(** * Promise tasks of core-js-101 (src/06-promises-tasks.js)

    A shallow embedding of the four exported functions together with the
    part of the ECMAScript promise machinery they run on: promise cells
    with their reaction lists, the microtask (job) queue, [then]/[catch],
    [Promise.all] and [Promise.race].

    Conventions of the model.
    - JavaScript closures are defunctionalised: each function literal of
      the source is one constructor of [handler], carrying the variables
      it captures by value; the variables it captures by reference
      ([results], [promisesCompleted], and the internal slots of
      [Promise.all]) are fields of the machine state, one call of a
      function being studied at a time.
    - Values are plain data, never thenables, so resolving a promise
      with a value fulfils it at once.  Numbers are integers.  The
      reducer is a pure function that returns a value or throws.
    - The promises handed to a function by its caller live in [tasks];
      the promises a function creates live in [own].  The elements of
      the array argument are indices into [tasks]; an index beyond the
      tasks stands for an element that is not a promise, the plain
      number of that index.
    - A macrotask of the caller settles one task; the microtask queue is
      drained after the call and after every macrotask.
    - Host behaviour outside the language (reports of unhandled
      rejections) is not modelled. *)

From Stdlib Require Import ZArith String Ascii Lia.

From stdpp Require Import base list.

(** ** Values and completions *)

#[warnings="-register-all"]
Inductive value :=
| VUndef
| VBool (b : bool)
| VNum (n : Z)
| VStr (s : string)
| VErr (msg : string)
| VArr (l : list value).

Inductive completion :=
| Normal (v : value)
| Throw (e : value).

(** [typeof x === 'boolean'] *)
Definition is_boolean (x : value) : bool :=
  match x with VBool _ => true | _ => false end.

(** ToBoolean, as used by the conditional operator. *)
Definition to_boolean (x : value) : bool :=
  match x with
  | VUndef => false
  | VBool b => b
  | VNum n => negb (n =? 0)%Z
  | VStr s => negb (Nat.eqb (String.length s) 0)
  | VErr _ => true
  | VArr _ => true
  end.

(** ** Promise cells, reactions, jobs *)

Inductive ref :=
| Task (i : nat)
| Own (i : nat).

Inductive pstate :=
| Pending
| Fulfilled (v : value)
| Rejected (e : value).

(** The function literals of the source and the built-in functions that
    end up in reaction records. *)
Inductive handler :=
| HChainThen (n : nat) (allp : ref)     (* lines 113-119; n = array.length *)
| HChainCatch (n : nat) (allp : ref)    (* lines 120-125 *)
| HChainReduce (res : ref)              (* lines 129-131 *)
| HWrapResolve (p : ref)                (* (values) => resolve(values), lines 58 and 85 *)
| HWrapReject (p : ref)                 (* (err) => reject(err), lines 59 and 86 *)
| HResolveFn (cap : ref)                (* resolving function of a capability *)
| HRejectFn (cap : ref)                 (* rejecting function of a capability *)
| HAllElement (idx : nat) (cap : ref).  (* Promise.all resolve element function *)

Record reaction := Reaction {
  r_ful : option handler;
  r_rej : option handler;
  r_cap : ref
}.

Record promise := Promise {
  p_state : pstate;
  p_reactions : list reaction
}.

Record job := Job {
  j_handler : option handler;
  j_rej : bool;
  j_arg : value;
  j_cap : ref
}.

(** Observable steps of [chainPromises], recorded as the run goes. *)
Inductive logent :=
| LFire                                  (* the test at line 116 or 122 succeeded *)
| LRes (v : value)                       (* res(v) at line 130 *)
| LCall (acc cur : value) (idx : nat).   (* action(acc, cur, idx, values) *)

Record state := State {
  tasks : list promise;
  own : list promise;
  queue : list job;
  results : list value;
  promisesCompleted : nat;
  all_values : list (option value);
  all_remaining : nat;
  log : list logent
}.

Definition set_tasks (f : list promise → list promise) (s : state) : state :=
  State (f (tasks s)) (own s) (queue s) (results s) (promisesCompleted s)
        (all_values s) (all_remaining s) (log s).

Definition set_own (f : list promise → list promise) (s : state) : state :=
  State (tasks s) (f (own s)) (queue s) (results s) (promisesCompleted s)
        (all_values s) (all_remaining s) (log s).

Definition set_queue (f : list job → list job) (s : state) : state :=
  State (tasks s) (own s) (f (queue s)) (results s) (promisesCompleted s)
        (all_values s) (all_remaining s) (log s).

Definition set_results (f : list value → list value) (s : state) : state :=
  State (tasks s) (own s) (queue s) (f (results s)) (promisesCompleted s)
        (all_values s) (all_remaining s) (log s).

Definition set_completed (f : nat → nat) (s : state) : state :=
  State (tasks s) (own s) (queue s) (results s) (f (promisesCompleted s))
        (all_values s) (all_remaining s) (log s).

Definition set_all_values (f : list (option value) → list (option value))
    (s : state) : state :=
  State (tasks s) (own s) (queue s) (results s) (promisesCompleted s)
        (f (all_values s)) (all_remaining s) (log s).

Definition set_all_remaining (f : nat → nat) (s : state) : state :=
  State (tasks s) (own s) (queue s) (results s) (promisesCompleted s)
        (all_values s) (f (all_remaining s)) (log s).

Definition add_log (l : list logent) (s : state) : state :=
  State (tasks s) (own s) (queue s) (results s) (promisesCompleted s)
        (all_values s) (all_remaining s) (log s ++ l).

Definition get (r : ref) (s : state) : option promise :=
  match r with
  | Task i => tasks s !! i
  | Own i => own s !! i
  end.

Definition put (r : ref) (p : promise) (s : state) : state :=
  match r with
  | Task i => set_tasks (λ h, <[i:=p]> h) s
  | Own i => set_own (λ h, <[i:=p]> h) s
  end.

Definition state_of (r : ref) (s : state) : option pstate :=
  p_state <$> get r s.

(** [new Promise(...)], before the executor runs. *)
Definition alloc (s : state) : ref * state :=
  (Own (length (own s)), set_own (λ h, h ++ [Promise Pending []]) s).

Definition enqueue (js : list job) (s : state) : state :=
  set_queue (λ q, q ++ js) s.

Definition job_of (rej : bool) (arg : value) (r : reaction) : job :=
  Job (if rej then r_rej r else r_ful r) rej arg (r_cap r).

(** FulfillPromise / RejectPromise behind the once-only guard of the
    resolving functions: a settled promise ignores further calls. *)
Definition settle (r : ref) (rej : bool) (v : value) (s : state) : state :=
  match get r s with
  | Some (Promise Pending rs) =>
      enqueue (map (job_of rej v) rs)
              (put r (Promise (if rej then Rejected v else Fulfilled v) []) s)
  | _ => s
  end.

Definition resolve_fn (r : ref) (v : value) : state → state := settle r false v.

Definition reject_fn (r : ref) (e : value) : state → state := settle r true e.

Definition type_error : value := VErr "TypeError".

(** [p.then(onF, onR)]: [None] when [p] is not a promise (the call
    throws a TypeError). *)
Definition then_ (r : ref) (onF onR : option handler) (s : state)
    : option (ref * state) :=
  match get r s with
  | None => None
  | Some p =>
      let '(d, s1) := alloc s in
      let rc := Reaction onF onR d in
      Some (d, match p_state p with
               | Pending => put r (Promise Pending (p_reactions p ++ [rc])) s1
               | Fulfilled v => enqueue [job_of false v rc] s1
               | Rejected e => enqueue [job_of true e rc] s1
               end)
  end.

Definition catch_ (r : ref) (onR : handler) : state → option (ref * state) :=
  then_ r None (Some onR).

(** CreateArrayFromList over the value slots of [Promise.all]. *)
Definition values_array (l : list (option value)) : value :=
  VArr (map (default VUndef) l).

Section Machine.

(** The reducer handed to [chainPromises]; [Array.prototype.reduce]
    calls it with the accumulator, the current element, its index and
    the array.  It is a pure function that returns or throws. *)
Variable action : value → value → nat → list value → completion.

Fixpoint reduce_from (arr : list value) (k : nat) (acc : value)
    (xs : list value) : completion * list logent :=
  match xs with
  | [] => (Normal acc, [])
  | x :: xs' =>
      match action acc x k arr with
      | Normal a =>
          let '(c, l) := reduce_from arr (S k) a xs' in (c, LCall acc x k :: l)
      | Throw e => (Throw e, [LCall acc x k])
      end
  end.

(** [values.reduce(action)] without an initial value. *)
Definition reduce (arr : list value) : completion * list logent :=
  match arr with
  | [] => (Throw (VErr "Reduce of empty array with no initial value"), [])
  | x :: xs => reduce_from arr 1 x xs
  end.

(** The test-and-resolve shared by both observers (lines 116-118 and
    122-124). *)
Definition check_done (n : nat) (allp : ref) (s : state) : state :=
  if Nat.eqb (promisesCompleted s) n
  then resolve_fn allp (VArr (results s)) (add_log [LFire] s)
  else s.

Definition call (h : handler) (arg : value) (s : state) : completion * state :=
  match h with
  | HChainThen n allp =>
      (Normal VUndef,
       check_done n allp (set_completed S (set_results (λ l, l ++ [arg]) s)))
  | HChainCatch n allp =>
      (Normal VUndef, check_done n allp (set_completed S s))
  | HChainReduce res =>
      match arg with
      | VArr values =>
          match reduce values with
          | (Normal v, l) =>
              (Normal VUndef, resolve_fn res v (add_log (l ++ [LRes v]) s))
          | (Throw e, l) => (Throw e, add_log l s)
          end
      | _ => (Throw type_error, s)
      end
  | HWrapResolve p => (Normal VUndef, resolve_fn p arg s)
  | HWrapReject p => (Normal VUndef, reject_fn p arg s)
  | HResolveFn cap => (Normal VUndef, resolve_fn cap arg s)
  | HRejectFn cap => (Normal VUndef, reject_fn cap arg s)
  | HAllElement idx cap =>
      match all_values s !! idx with
      | Some (Some _) => (Normal VUndef, s)
      | _ =>
          let s1 := set_all_values (λ l, <[idx:=Some arg]> l) s in
          let s2 := set_all_remaining pred s1 in
          (Normal VUndef,
           if Nat.eqb (all_remaining s2) 0
           then resolve_fn cap (values_array (all_values s2)) s2
           else s2)
      end
  end.

(** PromiseReactionJob: an absent handler is the identity for a
    fulfilment and a thrower for a rejection. *)
Definition run_job (j : job) (s : state) : state :=
  let '(c, s1) :=
    match j_handler j with
    | None => (if j_rej j then Throw (j_arg j) else Normal (j_arg j), s)
    | Some h => call h (j_arg j) s
    end in
  match c with
  | Normal v => resolve_fn (j_cap j) v s1
  | Throw e => reject_fn (j_cap j) e s1
  end.

Fixpoint drain (fuel : nat) (s : state) : state :=
  match fuel with
  | 0 => s
  | S f =>
      match queue s with
      | [] => s
      | j :: q => drain f (run_job j (set_queue (λ _, q) s))
      end
  end.

(** Jobs queued plus reactions registered: no job registers a reaction,
    so this bounds the number of jobs still to run. *)
Definition reactions_in (h : list promise) : nat :=
  list_sum (map (λ p, length (p_reactions p)) h).

Definition measure (s : state) : nat :=
  length (queue s) + reactions_in (tasks s) + reactions_in (own s).

Definition run_microtasks (s : state) : state := drain (measure s) s.

(** ** The four exported functions *)

Definition yes_answer : string :=
  "Hooray!!! She said " ++ String "034" "Yes" ++ String "034" "!".

Definition no_answer : string :=
  "Oh no, she said " ++ String "034" "No" ++ String "034" ".".

Definition wrong_parameter : string :=
  "Wrong parameter is passed! Ask her again.".

(** Lines 31-37.  A missing argument is [VUndef]. *)
Definition willYouMarryMe (isPositiveAnswer : value) (s : state) : ref * state :=
  let '(p, s1) := alloc s in
  let s2 := if negb (is_boolean isPositiveAnswer)
            then reject_fn p (VErr wrong_parameter) s1
            else s1 in
  let answer := if to_boolean isPositiveAnswer
                then VStr yes_answer else VStr no_answer in
  (p, resolve_fn p answer s2).

(** Lines 112-126: the body of [array.forEach]; it stops at the first
    element that is not a promise. *)
Fixpoint chain_forEach (n : nat) (allp : ref) (arr : list nat) (s : state)
    : completion * state :=
  match arr with
  | [] => (Normal VUndef, s)
  | i :: rest =>
      match then_ (Task i) (Some (HChainThen n allp)) None s with
      | None => (Throw type_error, s)
      | Some (_, s1) =>
          match catch_ (Task i) (HChainCatch n allp) s1 with
          | None => (Throw type_error, s1)
          | Some (_, s2) => chain_forEach n allp rest s2
          end
      end
  end.

(** Lines 107-135. *)
Definition chainPromises (array : list nat) (s : state) : ref * state :=
  let '(res, s1) := alloc s in
  let s2 := set_completed (λ _, 0) (set_results (λ _, []) s1) in
  let '(allp, s3) := alloc s2 in
  let s4 := match chain_forEach (length array) allp array s3 with
            | (Normal _, s') => s'
            | (Throw e, s') => reject_fn allp e s'
            end in
  match then_ allp (Some (HChainReduce res)) None s4 with
  | Some (_, s5) => (res, s5)
  | None => (res, reject_fn res type_error s4)
  end.

(** [Promise.resolve(x)] for the entry [i] of an array: a task is a
    promise and is returned as it is; an entry that is not a promise
    is wrapped in a new promise fulfilled with it.  Such an entry is an
    index beyond the tasks and stands for the plain number [i]. *)
Definition promise_resolve (i : nat) (s : state) : ref * state :=
  match tasks s !! i with
  | Some _ => (Task i, s)
  | None =>
      let '(q, s1) := alloc s in (q, resolve_fn q (VNum (Z.of_nat i)) s1)
  end.

(** PerformPromiseAll. *)
Fixpoint all_loop (cap : ref) (idx : nat) (arr : list nat) (s : state)
    : completion * state :=
  match arr with
  | [] => (Normal VUndef, s)
  | i :: rest =>
      let s1 := set_all_values (λ l, l ++ [None]) s in
      let '(q, s2) := promise_resolve i s1 in
      let s3 := set_all_remaining S s2 in
      match then_ q (Some (HAllElement idx cap)) (Some (HRejectFn cap)) s3 with
      | None => (Throw type_error, s3)
      | Some (_, s4) => all_loop cap (S idx) rest s4
      end
  end.

Definition Promise_all (array : list nat) (s : state) : ref * state :=
  let '(cap, s1) := alloc s in
  let s2 := set_all_remaining (λ _, 1) (set_all_values (λ _, []) s1) in
  match all_loop cap 0 array s2 with
  | (Throw e, s3) => (cap, reject_fn cap e s3)
  | (Normal _, s3) =>
      let s4 := set_all_remaining pred s3 in
      (cap, if Nat.eqb (all_remaining s4) 0
            then resolve_fn cap (values_array (all_values s4)) s4
            else s4)
  end.

(** PerformPromiseRace. *)
Fixpoint race_loop (cap : ref) (arr : list nat) (s : state) : completion * state :=
  match arr with
  | [] => (Normal VUndef, s)
  | i :: rest =>
      let '(q, s1) := promise_resolve i s in
      match then_ q (Some (HResolveFn cap)) (Some (HRejectFn cap)) s1 with
      | None => (Throw type_error, s1)
      | Some (_, s2) => race_loop cap rest s2
      end
  end.

Definition Promise_race (array : list nat) (s : state) : ref * state :=
  let '(cap, s1) := alloc s in
  match race_loop cap array s1 with
  | (Throw e, s2) => (cap, reject_fn cap e s2)
  | (Normal _, s2) => (cap, s2)
  end.

(** The executor shared by lines 56-60 and 83-87: [p] is the promise
    under construction, [agg] the aggregate it wraps. *)
Definition wrap (p agg : ref) (s : state) : state :=
  match then_ agg (Some (HWrapResolve p)) None s with
  | None => reject_fn p type_error s
  | Some (_, s1) =>
      match catch_ agg (HWrapReject p) s1 with
      | None => reject_fn p type_error s1
      | Some (_, s2) => s2
      end
  end.

(** Lines 55-61; the second component is the promise [all]. *)
Definition processAllPromises (array : list nat) (s : state) : ref * ref * state :=
  let '(p, s1) := alloc s in
  let '(all, s2) := Promise_all array s1 in
  (p, all, wrap p all s2).

(** Lines 82-88; the second component is the promise [race]. *)
Definition getFastestPromise (array : list nat) (s : state) : ref * ref * state :=
  let '(p, s1) := alloc s in
  let '(race, s2) := Promise_race array s1 in
  (p, race, wrap p race s2).

(** ** Scenarios: what the caller does around one call *)

Inductive outcome :=
| Success (v : value)
| Failure (e : value).

Definition event : Type := nat * outcome.

Definition settle_task (e : event) (s : state) : state :=
  match e.2 with
  | Success v => resolve_fn (Task e.1) v s
  | Failure x => reject_fn (Task e.1) x s
  end.

(** One macrotask of the caller: a task settles, then the microtask
    queue runs dry. *)
Definition fire (s : state) (e : event) : state :=
  run_microtasks (settle_task e s).

Definition init (T : nat) : state :=
  State (replicate T (Promise Pending [])) [] [] [] 0 [] 0 [].

(** [T] pending tasks are created, the events of [pre] happen, the
    function is called on [array], and the events of [post] happen. *)
Definition run_chain (T : nat) (pre : list event) (array : list nat)
    (post : list event) : ref * state :=
  let '(r, s) := chainPromises array (fold_left fire pre (init T)) in
  (r, fold_left fire post (run_microtasks s)).

Definition run_all (T : nat) (pre : list event) (array : list nat)
    (post : list event) : ref * ref * state :=
  let '(p, a, s) := processAllPromises array (fold_left fire pre (init T)) in
  (p, a, fold_left fire post (run_microtasks s)).

Definition run_race (T : nat) (pre : list event) (array : list nat)
    (post : list event) : ref * ref * state :=
  let '(p, a, s) := getFastestPromise array (fold_left fire pre (init T)) in
  (p, a, fold_left fire post (run_microtasks s)).

End Machine.

(** Binary operators as reducers: the index and the array are ignored. *)
Definition binop (op : value → value → value)
    : value → value → nat → list value → completion :=
  λ a b _ _, Normal (op a b).

(** The operators [+], [-] and [*] on integers, where they are exact
    as long as the numbers stay below 2^53.  On other operands
    JavaScript coerces, concatenates or gives NaN; that part is not
    modelled, the result stands as [VUndef]. *)
Definition js_add (a b : value) : value :=
  match a, b with VNum x, VNum y => VNum (x + y) | _, _ => VUndef end.

Definition js_sub (a b : value) : value :=
  match a, b with VNum x, VNum y => VNum (x - y) | _, _ => VUndef end.

Definition js_mul (a b : value) : value :=
  match a, b with VNum x, VNum y => VNum (x * y) | _, _ => VUndef end.

Definition final_state (r : ref * state) : option pstate := state_of r.1 r.2.

(** * Vocabulary of the statements *)

(** ** Outcomes *)

(** The state a promise takes when it is rejected or fulfilled with [v]. *)
Definition new_state (rej : bool) (v : value) : pstate :=
  if rej then Rejected v else Fulfilled v.

Definition outcome_rej (o : outcome) : bool :=
  match o with Success _ => false | Failure _ => true end.

Definition outcome_val (o : outcome) : value :=
  match o with Success v => v | Failure e => e end.

Definition outcome_state (o : outcome) : pstate :=
  new_state (outcome_rej o) (outcome_val o).

Definition success_of (o : outcome) : option value :=
  match o with Success v => Some v | Failure _ => None end.

(** The values of the successful outcomes, in order. *)
Definition successes (os : list outcome) : list value := omap success_of os.

Definition failure_of (o : outcome) : option value :=
  match o with Success _ => None | Failure e => Some e end.

(** The errors of the failed outcomes, in order. *)
Definition failures (os : list outcome) : list value := omap failure_of os.

(** ** The order in which settlements are seen

    The caller's view: a table with the state of every task, changed by
    the settle events, the first event of a task winning. *)

Definition settle_tbl (t : list pstate) (e : event) : list pstate :=
  match t !! e.1 with
  | Some Pending => <[e.1:=outcome_state e.2]> t
  | _ => t
  end.

(** The states of [T] tasks, all pending at first, after the events. *)
Definition table (T : nat) (evs : list event) : list pstate :=
  fold_left settle_tbl evs (replicate T Pending).

Definition outcome_of (st : pstate) : option outcome :=
  match st with
  | Pending => None
  | Fulfilled v => Some (Success v)
  | Rejected e => Some (Failure e)
  end.

(** How often task [i] occurs in [array]. *)
Fixpoint occurrences (i : nat) (array : list nat) : nat :=
  match array with
  | [] => 0
  | j :: rest => (if Nat.eqb j i then 1 else 0) + occurrences i rest
  end.

(** Entries of [array] already settled when the function is called: it
    meets their outcomes in input order. *)
Definition seen_at_call (array : list nat) (t : list pstate) : list outcome :=
  omap (λ i, t !! i ≫= outcome_of) array.

(** Entries that settle later: their outcomes are met as the events
    happen, once per occurrence in [array]. *)
Fixpoint seen_after (array : list nat) (t : list pstate) (post : list event)
    : list outcome :=
  match post with
  | [] => []
  | e :: post' =>
      match t !! e.1 with
      | Some Pending =>
          replicate (occurrences e.1 array) e.2
          ++ seen_after array (settle_tbl t e) post'
      | _ => seen_after array t post'
      end
  end.

(** The outcomes a function called on [array] between [pre] and [post]
    observes, in the order it observes them. *)
Definition seen (T : nat) (pre : list event) (array : list nat)
    (post : list event) : list outcome :=
  seen_at_call array (table T pre) ++ seen_after array (table T pre) post.

(** The outcomes of the entries of [array] in the order the tasks
    settled, whenever that was. *)
Definition settlement_order (T : nat) (array : list nat) (evs : list event)
    : list outcome :=
  seen_after array (replicate T Pending) evs.

(** The table of a machine state. *)
Definition tbl (s : state) : list pstate := map p_state (tasks s).

Definition settled (st : pstate) : Prop := st ≠ Pending.

(** ** Observations tagged with their position in the array *)

(** The positions of task [i] in [arr], counted from [start]. *)
Fixpoint positions_from (start i : nat) (arr : list nat) : list nat :=
  match arr with
  | [] => []
  | j :: rest =>
      (if Nat.eqb j i then [start] else []) ++ positions_from (S start) i rest
  end.

Fixpoint tagged_at_call (start : nat) (arr : list nat) (t : list pstate)
    : list (nat * outcome) :=
  match arr with
  | [] => []
  | i :: rest =>
      from_option (λ o, [(start, o)]) [] (t !! i ≫= outcome_of)
      ++ tagged_at_call (S start) rest t
  end.

Fixpoint tagged_after (array : list nat) (t : list pstate) (post : list event)
    : list (nat * outcome) :=
  match post with
  | [] => []
  | e :: post' =>
      match t !! e.1 with
      | Some Pending =>
          map (λ idx, (idx, e.2)) (positions_from 0 e.1 array)
          ++ tagged_after array (settle_tbl t e) post'
      | _ => tagged_after array t post'
      end
  end.

(** [seen], each outcome with the position of its array entry. *)
Definition tagged (T : nat) (pre : list event) (array : list nat)
    (post : list event) : list (nat * outcome) :=
  tagged_at_call 0 array (table T pre) ++ tagged_after array (table T pre) post.

(** ** What a run has logged *)

Definition is_call (l : logent) : bool :=
  match l with LCall _ _ _ => true | _ => false end.

Definition is_fire (l : logent) : bool :=
  match l with LFire => true | _ => false end.

Definition is_res (l : logent) : bool :=
  match l with LRes _ => true | _ => false end.

(** The calls of the reducer, the successful tests of lines 116 and 122,
    and the calls of [res] a run has made. *)
Definition reducer_calls (l : list logent) : list logent := List.filter is_call l.

Definition fires (l : list logent) : nat := length (List.filter is_fire l).

Definition res_calls (l : list logent) : nat := length (List.filter is_res l).

(** The index argument of a logged call of the reducer. *)
Definition call_index (l : logent) : option nat :=
  match l with LCall _ _ k => Some k | _ => None end.

(** * Vocabulary of the proofs *)

(** ** Settling, one cell at a time *)

(** The reactions a settlement of [r] would trigger. *)
Definition pending_reactions (r : ref) (s : state) : list reaction :=
  match get r s with
  | Some (Promise Pending rs) => rs
  | _ => []
  end.

Definition settled_cell (rej : bool) (v : value) (p : promise) : promise :=
  match p_state p with
  | Pending => Promise (new_state rej v) []
  | _ => p
  end.

(** The change of state of a settlement, without the jobs it queues. *)
Definition settle_in (r : ref) (rej : bool) (v : value) (s : state) : state :=
  match r with
  | Task i => set_tasks (alter (settled_cell rej v) i) s
  | Own i => set_own (alter (settled_cell rej v) i) s
  end.

(** A cell nobody has reacted to settles silently. *)
Definition no_reactions (h : list promise) (k : nat) : Prop :=
  ∀ p, h !! k = Some p → p_reactions p = [].

(** A state in which no function has been called yet. *)
Record clean (s : state) : Prop := {
  clean_own : own s = [];
  clean_queue : queue s = [];
  clean_log : log s = [];
  clean_tasks : ∀ i, no_reactions (tasks s) i
}.

(** ** The observers of [chainPromises]

    The returned promise is the first promise the function creates,
    [allProms] the second. *)

Section ChainVocabulary.

Variable action : value → value → nat → list value → completion.
Variable array : list nat.

Local Abbreviation N := (length array).
Local Abbreviation R := (Own 0).
Local Abbreviation A := (Own 1).

Definition then_reaction (k : nat) : reaction :=
  Reaction (Some (HChainThen N A)) None (Own k).

Definition catch_reaction (k : nat) : reaction :=
  Reaction None (Some (HChainCatch N A)) (Own k).

Definition reduce_reaction (k : nat) : reaction :=
  Reaction (Some (HChainReduce R)) None (Own k).

(** The two jobs one settled array entry gives rise to. *)
Definition pair_jobs (o : outcome) (k1 k2 : nat) : list job :=
  [job_of (outcome_rej o) (outcome_val o) (then_reaction k1);
   job_of (outcome_rej o) (outcome_val o) (catch_reaction k2)].

(** A queue made of such pairs, and a reaction list made of the pairs
    of reactions they come from. *)
Inductive obs_queue : list outcome → list job → Prop :=
| obs_queue_nil : obs_queue [] []
| obs_queue_cons o os q k1 k2 :
    2 ≤ k1 → 2 ≤ k2 → obs_queue os q →
    obs_queue (o :: os) (pair_jobs o k1 k2 ++ q).

Inductive obs_reactions : nat → list reaction → Prop :=
| obs_reactions_nil : obs_reactions 0 []
| obs_reactions_cons m rs k1 k2 :
    2 ≤ k1 → 2 ≤ k2 → obs_reactions m rs →
    obs_reactions (S m) (then_reaction k1 :: catch_reaction k2 :: rs).

(** What line 130 makes of the collected values: the state it leaves
    the returned promise in, and what it logs. *)
Definition finish (vals : list value) : pstate * list logent :=
  match reduce action vals with
  | (Normal v, l) => (Fulfilled v, l ++ [LRes v])
  | (Throw _, l) => (Pending, l)
  end.

(** Nothing has been folded yet: both promises are pending, [allProms]
    with the reaction of line 129. *)
Record chain_frame (s : state) (kA : nat) : Prop := {
  cf_res : own s !! 0 = Some (Promise Pending []);
  cf_all : own s !! 1 = Some (Promise Pending [reduce_reaction kA]);
  cf_kA : 2 ≤ kA;
  cf_rest : ∀ k, 2 ≤ k → no_reactions (own s) k
}.

(** From [s], the observations [os] lead to [s']. *)
Definition observed_to (s : state) (os : list outcome) (s' : state) : Prop :=
  tasks s' = tasks s ∧ queue s' = [] ∧
  results s' = results s ++ successes os ∧
  promisesCompleted s' = promisesCompleted s + length os ∧
  (∀ k, 2 ≤ k → no_reactions (own s') k) ∧
  if Nat.eqb (promisesCompleted s') N && negb (Nat.eqb (length os) 0)
  then own s' !! 1 = Some (Promise (Fulfilled (VArr (results s'))) []) ∧
       own s' !! 0 = Some (Promise (finish (results s')).1 []) ∧
       log s' = log s ++ LFire :: (finish (results s')).2
  else own s' !! 0 = own s !! 0 ∧ own s' !! 1 = own s !! 1 ∧ log s' = log s.

(** One round of the loop of lines 112-126. *)
Definition entry_state (i : nat) (p : promise) (s : state) : state :=
  let k := length (own s) in
  let s1 := set_own (λ h, h ++ [Promise Pending []; Promise Pending []]) s in
  match outcome_of (p_state p) with
  | None =>
      set_tasks (λ h, <[i:=Promise Pending
                          (p_reactions p ++ [then_reaction k; catch_reaction (S k)])]> h) s1
  | Some o => enqueue (pair_jobs o k (S k)) s1
  end.

(** The state between two macrotasks, after the outcomes [os] have been
    observed. *)
Record chain_inv (os : list outcome) (s : state) : Prop := {
  ci_queue : queue s = [];
  ci_results : results s = successes os;
  ci_completed : promisesCompleted s = length os;
  ci_count : length os = length (seen_at_call array (tbl s));
  ci_range : Forall (λ i, i < length (tasks s)) array;
  ci_tasks : ∀ i p, tasks s !! i = Some p → p_state p = Pending →
             obs_reactions (occurrences i array) (p_reactions p);
  ci_rest : ∀ k, 2 ≤ k → no_reactions (own s) k;
  ci_own : if Nat.eqb (length os) N && negb (Nat.eqb N 0)
           then own s !! 1 = Some (Promise (Fulfilled (VArr (results s))) []) ∧
                own s !! 0 = Some (Promise (finish (results s)).1 []) ∧
                log s = LFire :: (finish (results s)).2
           else (∃ kA, chain_frame s kA) ∧ log s = []
}.

End ChainVocabulary.

(** ** The wrapper around an aggregate promise

    In both functions the returned promise [P] is the first promise
    created and the aggregate [A] the second. *)

Definition mk_outcome (rej : bool) (v : value) : outcome :=
  if rej then Failure v else Success v.

Definition wrap_then (k : nat) : reaction :=
  Reaction (Some (HWrapResolve (Own 0))) None (Own k).

Definition wrap_catch (k : nat) : reaction :=
  Reaction None (Some (HWrapReject (Own 0))) (Own k).

Definition wrap_jobs (o : outcome) (k1 k2 : nat) : list job :=
  [job_of (outcome_rej o) (outcome_val o) (wrap_then k1);
   job_of (outcome_rej o) (outcome_val o) (wrap_catch k2)].

(** How far the outcome of [A] has travelled to [P]; the list is what
    is still queued for it. *)
Inductive link (s : state) : option outcome → list job → Prop :=
| link_pending k1 k2 :
    2 ≤ k1 → 2 ≤ k2 →
    own s !! 1 = Some (Promise Pending [wrap_then k1; wrap_catch k2]) →
    own s !! 0 = Some (Promise Pending []) →
    link s None []
| link_queued o k1 k2 :
    2 ≤ k1 → 2 ≤ k2 →
    own s !! 1 = Some (Promise (outcome_state o) []) →
    own s !! 0 = Some (Promise Pending []) →
    link s (Some o) (wrap_jobs o k1 k2)
| link_done o :
    own s !! 1 = Some (Promise (outcome_state o) []) →
    own s !! 0 = Some (Promise (outcome_state o) []) →
    link s (Some o) [].

(** Nobody reacts to the promises that [then] and [catch] return. *)
Definition frame2 (s : state) : Prop := ∀ k, 2 ≤ k → no_reactions (own s) k.

(** ** One reaction per array entry, feeding an aggregate *)

(** The common shape of the loops of PerformPromiseAll and
    PerformPromiseRace. *)
Fixpoint el_loop (upd : state → state) (onF : nat → handler) (cap : ref)
    (idx : nat) (arr : list nat) (s : state) : completion * state :=
  match arr with
  | [] => (Normal VUndef, s)
  | i :: rest =>
      match then_ (Task i) (Some (onF idx)) (Some (HRejectFn cap)) (upd s) with
      | None => (Throw type_error, upd s)
      | Some (_, s1) => el_loop upd onF cap (S idx) rest s1
      end
  end.

Section ElementVocabulary.

Variable array : list nat.
Variable onF : nat → handler.

Local Abbreviation N := (length array).
Local Abbreviation A := (Own 1).

(** The reaction registered for the entry at position [idx], the job it
    becomes, and the handler that job runs. *)
Definition el_reaction (idx k : nat) : reaction :=
  Reaction (Some (onF idx)) (Some (HRejectFn A)) (Own k).

Definition el_job (io : nat * outcome) (k : nat) : job :=
  job_of (outcome_rej io.2) (outcome_val io.2) (el_reaction io.1 k).

Definition el_handler (io : nat * outcome) : handler :=
  match io.2 with Success _ => onF io.1 | Failure _ => HRejectFn A end.

Inductive el_queue : list (nat * outcome) → list job → Prop :=
| el_queue_nil : el_queue [] []
| el_queue_cons io os q k :
    2 ≤ k → io.1 < N → el_queue os q →
    el_queue (io :: os) (el_job io k :: q).

Inductive el_reactions : list nat → list reaction → Prop :=
| el_reactions_nil : el_reactions [] []
| el_reactions_cons idx idxs rs k :
    2 ≤ k → idx < N → el_reactions idxs rs →
    el_reactions (idx :: idxs) (el_reaction idx k :: rs).

Variable upd : state → state.

(** One round of the loop. *)
Definition el_entry (start i : nat) (p : promise) (s : state) : state :=
  let k := length (own s) in
  let s1 := set_own (λ h, h ++ [Promise Pending []]) (upd s) in
  match outcome_of (p_state p) with
  | None =>
      set_tasks (λ h, <[i:=Promise Pending (p_reactions p ++ [el_reaction start k])]> h) s1
  | Some o => enqueue [el_job (start, o) k] s1
  end.

Variable X : Type.
Variable aout : X → option outcome.
Variable rep : X → state → Prop.

(** The state between two macrotasks; [x] accounts for what has been
    observed. *)
Record el_inv (x : X) (s : state) : Prop := {
  ei_queue : queue s = [];
  ei_range : Forall (λ i, i < length (tasks s)) array;
  ei_tasks : ∀ i p, tasks s !! i = Some p → p_state p = Pending →
             el_reactions (positions_from 0 i array) (p_reactions p);
  ei_frame : frame2 s;
  ei_rep : rep x s;
  ei_link : link s (aout x) []
}.

End ElementVocabulary.

(** ** The aggregates in the abstract *)

(** What [Promise.race] makes of one observation: the first one wins. *)
Definition race_step (x : option outcome) (io : nat * outcome) : option outcome :=
  match x with
  | None => Some io.2
  | Some o => Some o
  end.

Fixpoint count_none (l : list (option value)) : nat :=
  match l with
  | [] => 0
  | None :: l' => S (count_none l')
  | Some _ :: l' => count_none l'
  end.

(** What [Promise.all] makes of one observation: the value slots and,
    once it has settled, its outcome. *)
Definition all_step (x : list (option value) * option outcome)
    (io : nat * outcome) : list (option value) * option outcome :=
  match io.2 with
  | Success v =>
      match x.1 !! io.1 with
      | Some (Some _) => x
      | _ =>
          let vals := <[io.1:=Some v]> x.1 in
          (vals,
           match x.2 with
           | Some o => Some o
           | None =>
               if Nat.eqb (count_none vals) 0
               then Some (Success (values_array vals)) else None
           end)
      end
  | Failure e => (x.1, Some (default (Failure e) x.2))
  end.

(** [Promise.all] on [n] entries, before any observation: an empty
    array is fulfilled at once. *)
Definition all_start (n : nat) : list (option value) * option outcome :=
  (replicate n None, if Nat.eqb n 0 then Some (Success (VArr [])) else None).

(** What the slots and the outcome say about the observations made. *)
Record all_account (n : nat) (os : list (nat * outcome))
    (x : list (option value) * option outcome) : Prop := {
  aa_length : length x.1 = n;
  aa_filled : ∀ idx v, x.1 !! idx = Some (Some v) → (idx, Success v) ∈ os;
  aa_seen : ∀ idx v, (idx, Success v) ∈ os → idx < n →
            ∃ w, x.1 !! idx = Some (Some w);
  aa_none : x.2 = None → failures (map snd os) = [] ∧ 0 < count_none x.1;
  aa_failed : ∀ e, x.2 = Some (Failure e) → head (failures (map snd os)) = Some e;
  aa_done : ∀ y, x.2 = Some (Success y) →
            y = values_array x.1 ∧ count_none x.1 = 0
}.

(** The machine state holds the slots of the abstract account. *)
Definition all_rep (n : nat) (x : list (option value) * option outcome)
    (s : state) : Prop :=
  all_values s = x.1 ∧ all_remaining s = count_none x.1 ∧ length x.1 = n.

(** ** [chainPromises] on an array with an entry that is not a promise

    The loop of line 112 throws at that entry, line 129 then finds
    [allProms] rejected, and the handler of line 129 is never held by
    a reaction or by a job. *)

(** The handlers of lines 113 and 120, or none. *)
Definition observer (h : option handler) : Prop :=
  match h with
  | None => True
  | Some (HChainThen _ allp) | Some (HChainCatch _ allp) => allp = Own 1
  | Some _ => False
  end.

(** Any promise of the function but the returned one. *)
Definition inner (r : ref) : Prop := ∃ k, 1 ≤ k ∧ r = Own k.

Definition observer_job (j : job) : Prop :=
  observer (j_handler j) ∧ inner (j_cap j).

Definition observer_reaction (r : reaction) : Prop :=
  observer (r_ful r) ∧ observer (r_rej r) ∧ inner (r_cap r).

(** Nothing in the state can reach the returned promise. *)
Record stuck (s : state) : Prop := {
  st_res : own s !! 0 = Some (Promise Pending []);
  st_own : ∀ k, 1 ≤ k → no_reactions (own s) k;
  st_queue : Forall observer_job (queue s);
  st_tasks : Forall (λ p, Forall observer_reaction (p_reactions p)) (tasks s);
  st_log : Forall (λ l, is_fire l = true) (log s)
}.

(** ** Promises nobody holds

    Every call of [then] and [catch] returns a promise.  The functions
    keep none of them: each is only the capability of one reaction,
    and later of the one job that reaction becomes. *)

#[global] Instance ref_eq_dec : EqDecision ref.
Proof. solve_decision. Defined.

(** The promise a handler settles. *)
Definition handler_target (h : handler) : ref :=
  match h with
  | HChainThen _ r | HChainCatch _ r | HChainReduce r
  | HWrapResolve r | HWrapReject r | HResolveFn r | HRejectFn r
  | HAllElement _ r => r
  end.

(** The promises the functions hold: the caller's tasks, the returned
    promise and the aggregate. *)
Definition outer (r : ref) : Prop :=
  match r with Task _ => True | Own k => k < 2 end.

Definition aims_out (h : option handler) : Prop :=
  match h with Some h => outer (handler_target h) | None => True end.

Definition reactions_of (h : list promise) : list reaction :=
  concat (map p_reactions h).

(** The capabilities of the jobs queued and of the reactions
    registered. *)
Definition caps (s : state) : list ref :=
  map j_cap (queue s)
  ++ map r_cap (reactions_of (tasks s)) ++ map r_cap (reactions_of (own s)).

(** A promise returned by [then] that is still pending. *)
Definition spare (s : state) (c : ref) : Prop :=
  ∃ k, c = Own k ∧ 2 ≤ k ∧ own s !! k = Some (Promise Pending []).

Definition aims_out_reaction (r : reaction) : Prop :=
  aims_out (r_ful r) ∧ aims_out (r_rej r).

Record tidy (s : state) : Prop := {
  td_nodup : NoDup (caps s);
  td_spare : Forall (spare s) (caps s);
  td_queue : Forall (λ j, aims_out (j_handler j)) (queue s);
  td_tasks : Forall aims_out_reaction (reactions_of (tasks s));
  td_own : Forall aims_out_reaction (reactions_of (own s))
}.

(** Two states with the same promises and the same queue. *)
Definition same_heap (s s' : state) : Prop :=
  tasks s' = tasks s ∧ own s' = own s ∧ queue s' = queue s.

(** A promise returned by [then] that has been rejected with [e]. *)
Definition orphan (e : value) (s : state) : Prop :=
  ∃ k, 2 ≤ k ∧ own s !! k = Some (Promise (Rejected e) []).

(** A job that passes a rejection on because its reaction has no
    handler for it. *)
Definition passes_on (e : value) (j : job) : Prop :=
  j_handler j = None ∧ j_rej j = true ∧ j_arg j = e.

(** [src] has a reaction without a rejection handler: its rejection,
    if it comes, ends in a promise returned by [then]. *)
Definition owes (src : ref) (s : state) : Prop :=
  match get src s with
  | Some (Promise Pending rs) => Exists (λ r, r_rej r = None) rs
  | Some (Promise (Rejected e) _) => Exists (passes_on e) (queue s) ∨ orphan e s
  | Some (Promise (Fulfilled _) _) => True
  | None => False
  end.

(** * Properties of the machine *)

(** Projections of updated states. *)
Ltac proj :=
  cbn [tasks own queue results promisesCompleted all_values all_remaining log
       set_tasks set_own set_queue set_results set_completed set_all_values
       set_all_remaining add_log enqueue settle_in] in *.

(** The head of the job at hand. *)
Ltac run_head :=
  unfold run_job;
  cbn [j_handler j_rej j_arg j_cap job_of outcome_rej outcome_val
       then_reaction catch_reaction reduce_reaction r_ful r_rej r_cap call map].

(** ** The microtask queue always runs dry *)

Lemma reactions_in_app (h h' : list promise) :
  reactions_in (h ++ h') = reactions_in h + reactions_in h'.
Proof.
  unfold reactions_in. rewrite map_app, list_sum_app. reflexivity.
Qed.

Lemma reactions_in_insert (h : list promise) (i : nat) (p q : promise) :
  h !! i = Some p →
  reactions_in (<[i:=q]> h) + length (p_reactions p)
  = reactions_in h + length (p_reactions q).
Proof.
  revert i. induction h as [|x h IH]; intros [|i] Hi; simplify_eq/=.
  - unfold reactions_in. simpl. lia.
  - specialize (IH _ Hi). unfold reactions_in in *. simpl. lia.
Qed.

Lemma measure_settle (r : ref) (rej : bool) (v : value) (s : state) :
  measure (settle r rej v s) = measure s.
Proof.
  unfold settle. destruct (get r s) as [[[| |] rs]|] eqn:Hg; try reflexivity.
  destruct r as [i|i]; simpl in Hg; unfold measure; simpl;
    rewrite length_app, length_map;
    pose proof (reactions_in_insert _ i _
      (Promise (if rej then Rejected v else Fulfilled v) []) Hg) as H;
    simpl in H; lia.
Qed.

Section MachineFacts.

Variable action : value → value → nat → list value → completion.

Lemma measure_call (h : handler) (arg : value) (s : state) :
  measure (call action h arg s).2 = measure s.
Proof.
  destruct h; simpl; unfold check_done, resolve_fn, reject_fn.
  - destruct (Nat.eqb _ _); simpl; rewrite ?measure_settle; reflexivity.
  - destruct (Nat.eqb _ _); simpl; rewrite ?measure_settle; reflexivity.
  - destruct arg; try reflexivity.
    destruct (reduce action l) as [[v|e] lg]; simpl;
      rewrite ?measure_settle; reflexivity.
  - simpl. apply measure_settle.
  - simpl. apply measure_settle.
  - simpl. apply measure_settle.
  - simpl. apply measure_settle.
  - destruct (all_values s !! idx) as [[x|]|]; simpl; try reflexivity;
      destruct (Nat.eqb _ _); rewrite ?measure_settle; reflexivity.
Qed.

Lemma measure_run_job (j : job) (s : state) :
  measure (run_job action j s) = measure s.
Proof.
  unfold run_job. destruct (j_handler j) as [h|].
  - pose proof (measure_call h (j_arg j) s) as H.
    destruct (call action h (j_arg j) s) as [[v|e] s1]; simpl in H;
      unfold resolve_fn, reject_fn; rewrite measure_settle; exact H.
  - destruct (j_rej j); unfold resolve_fn, reject_fn; apply measure_settle.
Qed.

Lemma drain_fuel (f f' : nat) (s : state) :
  measure s ≤ f → measure s ≤ f' → drain action f s = drain action f' s.
Proof.
  revert f' s. induction f as [|f IH]; intros f' s Hf Hf'.
  - assert (queue s = []) as Hq.
    { unfold measure in Hf. destruct (queue s); [reflexivity | simpl in Hf; lia]. }
    destruct f'; simpl; [reflexivity | rewrite Hq; reflexivity].
  - simpl. destruct (queue s) as [|j q] eqn:Hq.
    + destruct f'; simpl; [reflexivity | rewrite Hq; reflexivity].
    + assert (measure (set_queue (λ _, q) s) + 1 = measure s) as Hm.
      { unfold measure. simpl. rewrite Hq. simpl. lia. }
      destruct f' as [|f']; [lia|]. simpl. rewrite Hq.
      apply IH; rewrite measure_run_job; lia.
Qed.

Lemma run_microtasks_nil (s : state) :
  queue s = [] → run_microtasks action s = s.
Proof.
  intros Hq. unfold run_microtasks.
  destruct (measure s); simpl; [reflexivity | rewrite Hq; reflexivity].
Qed.

Lemma run_microtasks_cons (s : state) (j : job) (q : list job) :
  queue s = j :: q →
  run_microtasks action s
  = run_microtasks action (run_job action j (set_queue (λ _, q) s)).
Proof.
  intros Hq. unfold run_microtasks.
  assert (measure (set_queue (λ _, q) s) + 1 = measure s) as Hm.
  { unfold measure. simpl. rewrite Hq. simpl. lia. }
  destruct (measure s) as [|m] eqn:Em; [lia|].
  simpl. rewrite Hq. apply drain_fuel; rewrite measure_run_job; lia.
Qed.

Lemma run_microtasks_quiet (s : state) : queue (run_microtasks action s) = [].
Proof.
  unfold run_microtasks.
  remember (measure s) as m eqn:Em.
  assert (measure s ≤ m) as Hm by lia. clear Em.
  revert s Hm. induction m as [|m IH]; intros s Hm.
  - simpl. unfold measure in Hm. destruct (queue s); [reflexivity | simpl in Hm; lia].
  - simpl. destruct (queue s) as [|j q] eqn:Hq; [exact Hq|].
    apply IH. rewrite measure_run_job. unfold measure in *. simpl.
    rewrite Hq in Hm. simpl in Hm. lia.
Qed.

End MachineFacts.

(** ** Settling, one cell at a time *)

Lemma enqueue_nil (s : state) : enqueue [] s = s.
Proof. destruct s. unfold enqueue, set_queue. simpl. rewrite app_nil_r. reflexivity. Qed.

Lemma alter_settled_cell (h : list promise) (i : nat) (rej : bool) (v : value) :
  alter (settled_cell rej v) i h
  = match h !! i with
    | Some (Promise Pending _) => <[i:=Promise (new_state rej v) []]> h
    | _ => h
    end.
Proof.
  revert i. induction h as [|p h IH]; intros [|i]; simpl; try reflexivity.
  - destruct p as [[| |] rs]; reflexivity.
  - change (list_alter ?f ?i ?l) with (alter f i l). rewrite IH. destruct (h !! i) as [[[| |] rs]|]; reflexivity.
Qed.

Lemma settle_eq (r : ref) (rej : bool) (v : value) (s : state) :
  settle r rej v s
  = enqueue (map (job_of rej v) (pending_reactions r s)) (settle_in r rej v s).
Proof.
  unfold settle, pending_reactions, settle_in.
  destruct r as [i|i]; cbn [get put]; unfold set_tasks, set_own;
    rewrite alter_settled_cell;
    destruct (_ !! i) as [[[| |] rs]|]; cbn [map];
    try reflexivity; destruct s; unfold enqueue, set_queue; simpl;
    rewrite app_nil_r; reflexivity.
Qed.

Lemma settle_silent (k : nat) (rej : bool) (v : value) (s : state) :
  no_reactions (own s) k →
  settle (Own k) rej v s = settle_in (Own k) rej v s.
Proof.
  intros Hk. rewrite settle_eq. unfold pending_reactions. simpl.
  destruct (own s !! k) as [[[| |] rs]|] eqn:Hg; try apply enqueue_nil.
  pose proof (Hk _ Hg) as E. simpl in E. subst rs. apply enqueue_nil.
Qed.

Lemma no_reactions_alter (h : list promise) (k j : nat) (rej : bool) (v : value) :
  no_reactions h j → no_reactions (alter (settled_cell rej v) k h) j.
Proof.
  intros Hj p. destruct (decide (k = j)) as [->|Hne].
  - rewrite list_lookup_alter_eq. destruct (h !! j) as [q|] eqn:Hq; [|done].
    simpl. intros [= <-]. unfold settled_cell.
    destruct (p_state q); simpl; auto.
  - rewrite list_lookup_alter_ne by done. apply Hj.
Qed.

(** ** Before the call: nobody listens yet *)

Lemma outcome_of_state (o : outcome) : outcome_of (outcome_state o) = Some o.
Proof. by destruct o. Qed.

Lemma tbl_settle_in (i : nat) (o : outcome) (s : state) :
  tbl (settle_in (Task i) (outcome_rej o) (outcome_val o) s)
  = settle_tbl (tbl s) (i, o).
Proof.
  unfold tbl, settle_tbl. cbn [settle_in fst snd]. proj.
  rewrite alter_settled_cell, list_lookup_fmap.
  destruct (tasks s !! i) as [[[| |] rs]|] eqn:Hi; cbn [fmap option_fmap option_map p_state];
    try reflexivity.
  by rewrite list_fmap_insert.
Qed.

Lemma settle_task_eq (i : nat) (o : outcome) (s : state) :
  settle_task (i, o) s = settle (Task i) (outcome_rej o) (outcome_val o) s.
Proof. by destruct o. Qed.

Section Prelude.

Variable action : value → value → nat → list value → completion.

Lemma fire_clean (s : state) (e : event) :
  clean s →
  clean (fire action s e) ∧ tbl (fire action s e) = settle_tbl (tbl s) e
  ∧ results (fire action s e) = results s
  ∧ promisesCompleted (fire action s e) = promisesCompleted s.
Proof.
  intros [Ho Hq Hl Ht]. destruct e as [i o]. unfold fire.
  rewrite settle_task_eq, settle_eq.
  assert (pending_reactions (Task i) s = []) as ->.
  { unfold pending_reactions. cbn [get].
    destruct (tasks s !! i) as [[[| |] rs]|] eqn:Hi; try done. apply (Ht i _ Hi). }
  cbn [map]. rewrite enqueue_nil.
  rewrite run_microtasks_nil by (by proj).
  rewrite tbl_settle_in. repeat split; try done.
  intros j. proj. by apply no_reactions_alter.
Qed.

Lemma init_clean (T : nat) : clean (init T).
Proof.
  split; try done. intros i p Hp. apply lookup_replicate in Hp as [-> _]. done.
Qed.

Lemma prelude_clean (T : nat) (pre : list event) :
  let s := fold_left (fire action) pre (init T) in
  clean s ∧ tbl s = table T pre.
Proof.
  cbn zeta. unfold table.
  assert (tbl (init T) = replicate T Pending) as <-.
  { unfold tbl, init. cbn [tasks]. by rewrite fmap_replicate. }
  generalize (init_clean T). generalize (init T) as s.
  induction pre as [|e pre IH]; intros s Hs; [done|].
  cbn [fold_left]. destruct (fire_clean s e Hs) as (Hc & <- & _).
  by apply IH.
Qed.

End Prelude.

(** ** [chainPromises]: what the observers do *)

Section ChainFacts.

Variable action : value → value → nat → list value → completion.

Variable array : list nat.

Local Abbreviation N := (length array).

Local Abbreviation R := (Own 0).

Local Abbreviation A := (Own 1).

Local Abbreviation then_reaction := (then_reaction array).
Local Abbreviation catch_reaction := (catch_reaction array).
Local Abbreviation pair_jobs := (pair_jobs array).
Local Abbreviation obs_queue := (obs_queue array).
Local Abbreviation obs_queue_nil := (obs_queue_nil array).
Local Abbreviation obs_queue_cons := (obs_queue_cons array).
Local Abbreviation obs_reactions := (obs_reactions array).
Local Abbreviation obs_reactions_nil := (obs_reactions_nil array).
Local Abbreviation obs_reactions_cons := (obs_reactions_cons array).
Local Abbreviation finish := (finish action).
Local Abbreviation observed_to := (observed_to action array).
Local Abbreviation entry_state := (entry_state array).
Local Abbreviation chain_inv := (chain_inv action array).
Local Abbreviation ci_queue := (ci_queue action array).
Local Abbreviation ci_results := (ci_results action array).
Local Abbreviation ci_completed := (ci_completed action array).
Local Abbreviation ci_count := (ci_count action array).
Local Abbreviation ci_range := (ci_range action array).
Local Abbreviation ci_tasks := (ci_tasks action array).
Local Abbreviation ci_rest := (ci_rest action array).
Local Abbreviation ci_own := (ci_own action array).

Lemma check_done_no (n : nat) (allp : ref) (s : state) :
  promisesCompleted s ≠ n → check_done n allp s = s.
Proof.
  intros H. unfold check_done.
  destruct (Nat.eqb_spec (promisesCompleted s) n); [done | reflexivity].
Qed.

Lemma check_done_yes (n : nat) (allp : ref) (s : state) :
  promisesCompleted s = n →
  check_done n allp s = resolve_fn allp (VArr (results s)) (add_log [LFire] s).
Proof. intros H. unfold check_done. rewrite H, Nat.eqb_refl. reflexivity. Qed.

(** A pair that does not bring the counter to [N]. *)
Lemma pair_quiet (o : outcome) (k1 k2 : nat) (q : list job) (s : state) :
  queue s = pair_jobs o k1 k2 ++ q →
  S (promisesCompleted s) ≠ N →
  (∀ k, 2 ≤ k → no_reactions (own s) k) → 2 ≤ k1 → 2 ≤ k2 →
  ∃ s2, run_microtasks action s = run_microtasks action s2 ∧
        queue s2 = q ∧ tasks s2 = tasks s ∧
        results s2 = results s ++ successes [o] ∧
        promisesCompleted s2 = S (promisesCompleted s) ∧ log s2 = log s ∧
        own s2 !! 0 = own s !! 0 ∧ own s2 !! 1 = own s !! 1 ∧
        (∀ k, 2 ≤ k → no_reactions (own s2) k).
Proof.
  intros Hq Hn Hrest Hk1 Hk2. simpl in Hq.
  rewrite (run_microtasks_cons _ _ _ _ Hq).
  destruct o as [v|e]; unfold run_job at 1; cbn [j_handler j_rej j_arg j_cap job_of
    outcome_rej outcome_val then_reaction catch_reaction r_ful r_rej r_cap call].
  - rewrite check_done_no by (proj; done).
    unfold resolve_fn at 1. rewrite settle_silent by (proj; auto).
    erewrite run_microtasks_cons by (proj; reflexivity).
    unfold run_job at 1; cbn [j_handler j_rej j_arg j_cap job_of
      outcome_rej outcome_val then_reaction catch_reaction r_ful r_rej r_cap call].
    unfold resolve_fn at 1. rewrite settle_silent
      by (proj; apply no_reactions_alter; auto).
    eexists. split; [reflexivity|]. proj.
    rewrite !list_lookup_alter_ne by lia. unfold successes. simpl.
    rewrite ?app_nil_r. repeat split; try done.
    intros k Hk. do 2 apply no_reactions_alter. auto.
  - unfold reject_fn at 1. rewrite settle_silent by (proj; auto).
    erewrite run_microtasks_cons by (proj; reflexivity).
    unfold run_job at 1; cbn [j_handler j_rej j_arg j_cap job_of
      outcome_rej outcome_val then_reaction catch_reaction r_ful r_rej r_cap call].
    rewrite check_done_no by (proj; done).
    unfold resolve_fn at 1. rewrite settle_silent
      by (proj; apply no_reactions_alter; auto).
    eexists. split; [reflexivity|]. proj.
    rewrite !list_lookup_alter_ne by lia. unfold successes. simpl.
    rewrite ?app_nil_r. repeat split; try done.
    intros k Hk. do 2 apply no_reactions_alter. auto.
Qed.

Lemma pending_reactions_own (k : nat) (s : state) (rs : list reaction) :
  own s !! k = Some (Promise Pending rs) → pending_reactions (Own k) s = rs.
Proof. intros H. unfold pending_reactions. simpl. rewrite H. reflexivity. Qed.

(** The job of line 129, run in a state where the returned promise is
    still pending. *)
Lemma reduce_job_runs (vals : list value) (kA : nat) (s : state) :
  queue s = [job_of false (VArr vals) (reduce_reaction kA)] →
  own s !! 0 = Some (Promise Pending []) → 2 ≤ kA →
  (∀ k, 2 ≤ k → no_reactions (own s) k) →
  let s' := run_microtasks action s in
  tasks s' = tasks s ∧ queue s' = [] ∧ results s' = results s ∧
  promisesCompleted s' = promisesCompleted s ∧
  (∀ k, 2 ≤ k → no_reactions (own s') k) ∧
  own s' !! 1 = own s !! 1 ∧
  own s' !! 0 = Some (Promise (finish vals).1 []) ∧
  log s' = log s ++ (finish vals).2.
Proof.
  intros Hq H0 HkA Hrest. cbn zeta.
  rewrite (run_microtasks_cons _ _ _ _ Hq). run_head. unfold finish.
  destruct (reduce action vals) as [[v|e] l].
  - unfold resolve_fn. rewrite (settle_silent 0) by (proj; intros p; rewrite H0; by intros [= <-]).
    rewrite settle_silent by (proj; apply no_reactions_alter; auto).
    rewrite run_microtasks_nil by (proj; reflexivity). proj.
    rewrite !list_lookup_alter_ne by lia. rewrite list_lookup_alter_eq, H0.
    repeat split; try done.
    intros k Hk. do 2 apply no_reactions_alter. auto.
  - unfold reject_fn. rewrite settle_silent by (proj; auto).
    rewrite run_microtasks_nil by (proj; reflexivity). proj.
    rewrite !list_lookup_alter_ne by lia.
    repeat split; try done.
    intros k Hk. apply no_reactions_alter. auto.
Qed.

(** The pair that brings the counter to [N]. *)
Lemma pair_final (o : outcome) (k1 k2 kA : nat) (s : state) :
  queue s = pair_jobs o k1 k2 →
  S (promisesCompleted s) = N →
  chain_frame s kA → 2 ≤ k1 → 2 ≤ k2 →
  observed_to s [o] (run_microtasks action s).
Proof.
  intros Hq Hn [H0 H1 HkA Hrest] Hk1 Hk2. simpl in Hq.
  rewrite (run_microtasks_cons _ _ _ _ Hq).
  destruct o as [v|e]; run_head.
  - rewrite check_done_yes by (proj; done).
    unfold resolve_fn at 2. rewrite settle_eq.
    rewrite (pending_reactions_own 1 _ [reduce_reaction kA]) by (proj; done).
    unfold resolve_fn at 1. rewrite settle_silent
      by (proj; apply no_reactions_alter; auto).
    erewrite run_microtasks_cons by (proj; reflexivity). run_head.
    unfold resolve_fn at 1. rewrite settle_silent
      by (proj; do 2 apply no_reactions_alter; auto).
    match goal with |- observed_to _ _ (run_microtasks _ ?s2) =>
      destruct (reduce_job_runs (results s ++ [v]) kA s2)
        as (Ht & Hqq & Hr & Hc & Hre & HA & HR & Hl) end.
    { proj. reflexivity. }
    { proj. rewrite !list_lookup_alter_ne by lia. done. }
    { done. }
    { intros k Hk. proj. do 3 apply no_reactions_alter. auto. }
    proj. unfold observed_to. rewrite Ht, Hqq, Hr, Hc, HA, HR, Hl. clear Ht Hqq Hr Hc HA HR Hl.
    rewrite Hn, Nat.eqb_refl. simpl. unfold successes. simpl.
    rewrite !list_lookup_alter_ne by lia. rewrite list_lookup_alter_eq, H1. simpl.
    rewrite <- app_assoc. repeat split; try done. lia.
  - unfold reject_fn at 1. rewrite settle_silent by (proj; auto).
    erewrite run_microtasks_cons by (proj; reflexivity). run_head.
    rewrite check_done_yes by (proj; done).
    unfold resolve_fn at 2. rewrite settle_eq.
    rewrite (pending_reactions_own 1 _ [reduce_reaction kA])
      by (proj; rewrite list_lookup_alter_ne by lia; done).
    unfold resolve_fn at 1. rewrite settle_silent
      by (proj; do 2 apply no_reactions_alter; auto).
    match goal with |- observed_to _ _ (run_microtasks _ ?s2) =>
      destruct (reduce_job_runs (results s) kA s2)
        as (Ht & Hqq & Hr & Hc & Hre & HA & HR & Hl) end.
    { proj. reflexivity. }
    { proj. rewrite !list_lookup_alter_ne by lia. done. }
    { done. }
    { intros k Hk. proj. do 3 apply no_reactions_alter. auto. }
    proj. unfold observed_to. rewrite Ht, Hqq, Hr, Hc, HA, HR, Hl. clear Ht Hqq Hr Hc HA HR Hl.
    rewrite Hn, Nat.eqb_refl. simpl. unfold successes. simpl.
    rewrite !list_lookup_alter_ne by lia. rewrite list_lookup_alter_eq.
    rewrite list_lookup_alter_ne by lia. rewrite H1. simpl.
    rewrite <- app_assoc, app_nil_r. repeat split; try done. lia.
Qed.

Lemma obs_queue_nil_inv (q : list job) : obs_queue [] q → q = [].
Proof. inversion 1. reflexivity. Qed.

Lemma successes_cons (o : outcome) (os : list outcome) :
  successes (o :: os) = successes [o] ++ successes os.
Proof. unfold successes. simpl. destruct (success_of o); reflexivity. Qed.

(** Draining a queue of observer pairs, as long as the counter cannot
    pass [N]. *)
Lemma drain_observers (os : list outcome) :
  ∀ s kA,
    obs_queue os (queue s) → chain_frame s kA →
    promisesCompleted s + length os ≤ N →
    observed_to s os (run_microtasks action s).
Proof.
  induction os as [|o os IH]; intros s kA Hq Hf Hle.
  - inversion Hq as [E|]. rewrite run_microtasks_nil by done.
    unfold observed_to. simpl. rewrite app_nil_r, Nat.add_0_r, andb_false_r.
    repeat split; try done. apply Hf.
  - inversion Hq as [|o' os' q k1 k2 Hk1 Hk2 Hq' E1 E2]; subst.
    symmetry in E2. simpl in Hle.
    destruct (decide (S (promisesCompleted s) = N)) as [Hn|Hn].
    + assert (os = []) as -> by (destruct os; [done | simpl in Hle; lia]).
      apply obs_queue_nil_inv in Hq'. subst q.
      by eapply pair_final.
    + destruct Hf as [H0 H1 HkA Hrest].
      destruct (pair_quiet o k1 k2 q s E2 Hn Hrest Hk1 Hk2)
        as (s2 & -> & Hq2 & Ht2 & Hr2 & Hc2 & Hl2 & HR2 & HA2 & Hrest2).
      specialize (IH s2 kA). rewrite Hq2 in IH. specialize (IH Hq').
      destruct IH as (Ht & Hqq & Hr & Hc & Hre & Hfin).
      { split; [by rewrite HR2 | by rewrite HA2 | done | done]. }
      { lia. }
      assert (promisesCompleted (run_microtasks action s2)
              = promisesCompleted s + length (o :: os)) as Hc' by (simpl; lia).
      assert (results (run_microtasks action s2)
              = results s ++ successes (o :: os)) as Hr'.
      { rewrite Hr, Hr2, (successes_cons o os), app_assoc. done. }
      unfold observed_to.
      rewrite Hc', Hr', HR2, HA2, Hl2 in Hfin. rewrite Hc', Hr', Ht, Hqq.
      repeat split; try done.
      destruct (Nat.eqb_spec (promisesCompleted s + length (o :: os)) N) as [En|En].
      * destruct os as [|o2 os]; [simpl in En; lia|]. exact Hfin.
      * exact Hfin.
Qed.

Lemma entry_step (i : nat) (p : promise) (rest : list nat) (s : state) :
  tasks s !! i = Some p →
  chain_forEach N A (i :: rest) s = chain_forEach N A rest (entry_state i p s).
Proof.
  intros Hi. cbn [chain_forEach]. unfold catch_, then_, entry_state.
  cbn [get alloc]. rewrite Hi.
  destruct p as [[|v|e] rs]; cbn [p_state p_reactions outcome_of put]; proj.
  - rewrite list_lookup_insert_eq by (by eapply lookup_lt_Some).
    cbn [p_state p_reactions put]. f_equal.
    unfold set_tasks, set_own, then_reaction, catch_reaction. proj.
    rewrite list_insert_insert_eq, <- !app_assoc, length_app, Nat.add_1_r.
    reflexivity.
  - rewrite Hi. cbn [p_state]. f_equal.
    unfold enqueue, set_own, set_queue, pair_jobs, then_reaction, catch_reaction.
    proj. rewrite <- !app_assoc, length_app, Nat.add_1_r. reflexivity.
  - rewrite Hi. cbn [p_state]. f_equal.
    unfold enqueue, set_own, set_queue, pair_jobs, then_reaction, catch_reaction.
    proj. rewrite <- !app_assoc, length_app, Nat.add_1_r. reflexivity.
Qed.

Lemma entry_state_facts (i : nat) (p : promise) (s : state) :
  tasks s !! i = Some p →
  let s1 := entry_state i p s in
  tbl s1 = tbl s ∧ length (tasks s1) = length (tasks s) ∧
  own s1 = own s ++ [Promise Pending []; Promise Pending []] ∧
  results s1 = results s ∧ promisesCompleted s1 = promisesCompleted s ∧
  log s1 = log s.
Proof.
  intros Hi. unfold entry_state, tbl.
  destruct p as [[|v|e] rs]; cbn [outcome_of p_state p_reactions]; proj;
    repeat split; try done.
  - rewrite list_fmap_insert. cbn [p_state]. apply list_insert_id.
    rewrite list_lookup_fmap, Hi. reflexivity.
  - apply length_insert.
Qed.

Lemma chain_forEach_spec (arr : list nat) :
  ∀ s,
    Forall (λ i, i < length (tasks s)) arr → 2 ≤ length (own s) →
    ∃ s' qs,
      chain_forEach N A arr s = (Normal VUndef, s') ∧
      tbl s' = tbl s ∧
      queue s' = queue s ++ qs ∧ obs_queue (seen_at_call arr (tbl s)) qs ∧
      results s' = results s ∧ promisesCompleted s' = promisesCompleted s ∧
      log s' = log s ∧
      (∀ k, k < length (own s) → own s' !! k = own s !! k) ∧
      (∀ k, length (own s) ≤ k → no_reactions (own s') k) ∧
      length (own s) ≤ length (own s') ∧
      (∀ i p, tasks s !! i = Some p → p_state p = Pending →
         ∃ rs, obs_reactions (occurrences i arr) rs ∧
               tasks s' !! i = Some (Promise Pending (p_reactions p ++ rs))).
Proof.
  induction arr as [|i rest IH]; intros s Hwf Hown.
  - exists s, []. cbn [chain_forEach]. rewrite app_nil_r.
    repeat split; try done; try constructor.
    + intros k Hk p Hp. apply lookup_lt_Some in Hp. lia.
    + intros i [st rs] Hi Hst. simpl in Hst. subst st. exists [].
      split; [constructor | by rewrite app_nil_r].
  - apply Forall_cons in Hwf as [Hi Hwf].
    destruct (lookup_lt_is_Some_2 _ _ Hi) as [p Hp].
    rewrite (entry_step i p rest s Hp).
    destruct (entry_state_facts i p s Hp) as (Htbl & Hlen & Ho & Hr & Hc & Hl).
    destruct (IH (entry_state i p s)) as (s' & qs & -> & Htbl' & Hq' & Hobs & Hr' & Hc' & Hl'
      & Hold & Hnew & Hlen' & Htasks).
    { by rewrite Hlen. }
    { rewrite Ho, length_app. lia. }
    rewrite Ho, length_app in Hold, Hnew, Hlen'. simpl in Hold, Hnew, Hlen'.
    assert (tbl s !! i = Some (p_state p)) as Hti.
    { unfold tbl. by rewrite list_lookup_fmap, Hp. }
    assert (seen_at_call (i :: rest) (tbl s)
            = from_option (λ o, [o]) [] (outcome_of (p_state p)) ++ seen_at_call rest (tbl s)) as Hseen.
    { unfold seen_at_call. cbn [omap list_omap]. rewrite Hti. simpl.
      destruct (outcome_of (p_state p)); reflexivity. }
    exists s'.
    exists (from_option (λ o, pair_jobs o (length (own s)) (S (length (own s)))) []
              (outcome_of (p_state p)) ++ qs).
    rewrite Htbl', Htbl, Hr', Hr, Hc', Hc, Hl', Hl, Hseen. rewrite Htbl in Hobs.
    split; [done|]. split; [done|]. split.
    { rewrite Hq'. unfold entry_state.
      destruct (outcome_of (p_state p)); proj; by rewrite <- ?app_assoc. }
    split.
    { destruct (outcome_of (p_state p)) as [o|]; [|done].
      cbn [from_option]. apply (obs_queue_cons o); [lia | lia | done]. }
    do 3 (split; [done|]). split.
    { intros k Hk. rewrite Hold by lia. by apply lookup_app_l. }
    split.
    { intros k Hk. destruct (decide (k < length (own s) + 2)) as [Hk2|Hk2].
      - intros q. rewrite Hold by done.
        rewrite lookup_app_r by done.
        destruct (k - length (own s)) as [|[|?]]; simpl; [by intros [= <-] .. | done].
      - apply Hnew. lia. }
    split; [lia|].
    intros i' p' Hp' Hst'. destruct (decide (i' = i)) as [->|Hne].
    + rewrite Hp in Hp'. injection Hp' as <-.
      destruct (Htasks i (Promise Pending
        (p_reactions p ++ [then_reaction (length (own s)); catch_reaction (S (length (own s)))])))
        as (rs & Hrs & Hlook).
      { unfold entry_state. rewrite Hst'. cbn [outcome_of]. proj.
        apply list_lookup_insert_eq. by eapply lookup_lt_Some. }
      { done. }
      exists (then_reaction (length (own s)) :: catch_reaction (S (length (own s))) :: rs).
      split.
      * cbn [occurrences]. rewrite Nat.eqb_refl. apply obs_reactions_cons; [lia | lia | done].
      * rewrite Hlook. cbn [p_reactions]. by rewrite <- app_assoc.
    + destruct (Htasks i' p') as (rs & Hrs & Hlook); [|done|].
      { unfold entry_state. destruct (outcome_of (p_state p)); proj; [done|].
        by rewrite list_lookup_insert_ne. }
      exists rs. split; [|done]. cbn [occurrences].
      destruct (Nat.eqb_spec i i'); [congruence | done].
Qed.

Lemma seen_at_call_length (arr : list nat) (t : list pstate) :
  length (seen_at_call arr t) ≤ length arr.
Proof.
  induction arr as [|i arr IH]; [done|]. unfold seen_at_call in *.
  cbn [omap list_omap]. destruct (t !! i ≫= outcome_of); simpl; lia.
Qed.

Lemma chain_call (s0 : state) :
  clean s0 → Forall (λ i, i < length (tasks s0)) array →
  let r := chainPromises array s0 in
  r.1 = R ∧ tbl (run_microtasks action r.2) = tbl s0 ∧
  chain_inv (seen_at_call array (tbl s0)) (run_microtasks action r.2).
Proof.
  intros [Ho Hq Hl Ht] Hwf. cbn zeta. unfold chainPromises, alloc. rewrite Ho.
  cbn [length]. proj. rewrite Ho. cbn [app length].
  match goal with |- context [chain_forEach _ _ _ ?s3] =>
    destruct (chain_forEach_spec array s3)
      as (s' & qs & -> & Htbl & Hq' & Hobs & Hr & Hc & Hl' & Hold & Hnew & Hlen & Htasks)
  end.
  { exact Hwf. } { proj. rewrite Ho. simpl. lia. }
  change (tbl (set_own _ (set_completed _ (set_results _ (set_own _ s0)))))
    with (tbl s0) in *.
  proj. rewrite Ho in Hold, Hnew, Hlen. cbn [app length] in Hold, Hnew, Hlen.
  assert (own s' !! 0 = Some (Promise Pending [])) as H0 by (by rewrite Hold by lia).
  assert (own s' !! 1 = Some (Promise Pending [])) as H1 by (by rewrite Hold by lia).
  unfold then_. cbn [get]. rewrite H1. cbn [alloc p_state p_reactions put app fst snd].
  match goal with |- _ ∧ tbl (run_microtasks _ ?s) = _ ∧ _ => set (s5 := s) end.
  assert (tasks s5 = tasks s') as Et by reflexivity.
  assert (queue s5 = queue s') as Eq by reflexivity.
  assert (results s5 = results s') as Er by reflexivity.
  assert (promisesCompleted s5 = promisesCompleted s') as Ec by reflexivity.
  assert (log s5 = log s') as El by reflexivity.
  assert (own s5 = <[1:=Promise Pending [reduce_reaction (length (own s'))]]>
                     (own s' ++ [Promise Pending []])) as Eo by reflexivity.
  clearbody s5.
  assert (chain_frame s5 (length (own s'))) as Hframe.
  { split; rewrite ?Eo.
    - rewrite list_lookup_insert_ne by lia. by apply lookup_app_l_Some.
    - rewrite list_lookup_insert_eq by (rewrite length_app; simpl; lia). done.
    - done.
    - intros k Hk p. rewrite list_lookup_insert_ne by lia.
      destruct (decide (k < length (own s'))) as [Hlt|Hge].
      + rewrite lookup_app_l by done. by apply Hnew.
      + rewrite lookup_app_r by lia.
        destruct (k - length (own s')); simpl; [by intros [= <-] | done]. }
  destruct (drain_observers (seen_at_call array (tbl s0)) s5 (length (own s')))
    as (Ht5 & Hq5 & Hr5 & Hc5 & Hre5 & Hfin5).
  { rewrite Eq, Hq', Hq. exact Hobs. }
  { exact Hframe. }
  { rewrite Ec, Hc. simpl. apply seen_at_call_length. }
  assert (tbl (run_microtasks action s5) = tbl s0) as Htb.
  { unfold tbl. rewrite Ht5, Et. exact Htbl. }
  split; [done|]. split; [done|]. split.
  - done.
  - by rewrite Hr5, Er, Hr.
  - by rewrite Hc5, Ec, Hc.
  - by rewrite Htb.
  - rewrite Ht5, Et. apply (f_equal length) in Htbl. unfold tbl in Htbl.
    rewrite !length_map in Htbl. by rewrite Htbl.
  - rewrite Ht5, Et. intros i p Hp Hst.
    assert (∃ p0, tasks s0 !! i = Some p0 ∧ p_state p0 = Pending) as (p0 & Hp0 & Hst0).
    { apply (f_equal (λ l, l !! i)) in Htbl. unfold tbl in Htbl.
      rewrite !list_lookup_fmap, Hp in Htbl.
      destruct (tasks s0 !! i) as [p0|]; [|done]. exists p0. split; [done|].
      simpl in Htbl. congruence. }
    destruct (Htasks i p0 Hp0 Hst0) as (rs & Hrs & Hlook).
    rewrite (Ht i p0 Hp0) in Hlook. rewrite Hp in Hlook. injection Hlook as ->. done.
  - done.
  - rewrite Hc5, Ec, Hc, El, Hl', Hl in Hfin5. cbn [Nat.add app] in Hfin5.
    destruct (Nat.eqb (length (seen_at_call array (tbl s0))) N) eqn:E;
      cbn [andb] in *.
    + destruct (Nat.eqb N 0) eqn:E0.
      * apply Nat.eqb_eq in E, E0. rewrite E, E0 in Hfin5.
        cbn [Nat.eqb negb andb] in *.
        destruct Hfin5 as (HR & HA & HL). split; [|done].
        exists (length (own s')). destruct Hframe. split; try done; congruence.
      * apply Nat.eqb_eq in E. rewrite E in Hfin5. rewrite E0 in Hfin5.
        cbn [negb] in *. exact Hfin5.
    + destruct Hfin5 as (HR & HA & HL). split; [|done].
      exists (length (own s')). destruct Hframe. split; try done; congruence.
Qed.

(** At return nothing has been observed yet: the observers of lines
    113 and 120 run as microtasks, also for tasks that had settled
    before the call. *)
Lemma chain_at_return (s0 : state) :
  clean s0 → Forall (λ i, i < length (tasks s0)) array →
  let r := chainPromises array s0 in
  state_of r.1 r.2 = Some Pending ∧ log r.2 = [] ∧
  results r.2 = [] ∧ promisesCompleted r.2 = 0.
Proof.
  intros [Ho Hq Hl Ht] Hwf. cbn zeta. unfold chainPromises, alloc. rewrite Ho.
  cbn [length]. proj. rewrite Ho. cbn [app length].
  match goal with |- context [chain_forEach _ _ _ ?s3] =>
    destruct (chain_forEach_spec array s3)
      as (s' & qs & -> & Htbl & Hq' & Hobs & Hr & Hc & Hl' & Hold & Hnew & Hlen & Htasks)
  end.
  { exact Hwf. } { proj. rewrite Ho. simpl. lia. }
  proj. rewrite Ho in Hold, Hnew, Hlen. cbn [app length] in Hold, Hnew, Hlen.
  assert (own s' !! 0 = Some (Promise Pending [])) as H0 by (by rewrite Hold by lia).
  assert (own s' !! 1 = Some (Promise Pending [])) as H1 by (by rewrite Hold by lia).
  unfold then_. cbn [get]. rewrite H1. cbn [alloc p_state p_reactions put app fst snd].
  unfold state_of. cbn [get]. proj.
  rewrite list_lookup_insert_ne by lia.
  rewrite (lookup_app_l_Some _ _ _ _ H0). by rewrite Hl', Hr, Hc, Hl.
Qed.

Lemma obs_reactions_jobs (m : nat) (rs : list reaction) (o : outcome) :
  obs_reactions m rs →
  obs_queue (replicate m o) (map (job_of (outcome_rej o) (outcome_val o)) rs).
Proof.
  induction 1 as [|m rs k1 k2 Hk1 Hk2 _ IH]; [constructor|].
  cbn [replicate map]. by apply (obs_queue_cons o _ _ k1 k2).
Qed.

Lemma seen_count_settle (arr : list nat) (t : list pstate) (i : nat) (o : outcome) :
  t !! i = Some Pending →
  length (seen_at_call arr (<[i:=outcome_state o]> t))
  = length (seen_at_call arr t) + occurrences i arr.
Proof.
  intros Hi. induction arr as [|j arr IH]; [done|].
  unfold seen_at_call in *. cbn [omap list_omap occurrences].
  destruct (Nat.eqb_spec j i) as [->|Hne].
  - rewrite list_lookup_insert_eq by (by eapply lookup_lt_Some).
    rewrite Hi. cbn [mbind option_bind outcome_of]. rewrite outcome_of_state.
    cbn [length]. rewrite IH. lia.
  - rewrite list_lookup_insert_ne by done.
    destruct (t !! j ≫= outcome_of); cbn [length]; rewrite IH; lia.
Qed.

Lemma successes_app (os os' : list outcome) :
  successes (os ++ os') = successes os ++ successes os'.
Proof. apply omap_app. Qed.

(** One macrotask of the caller. *)
Lemma chain_event (os : list outcome) (s : state) (e : event) :
  chain_inv os s →
  chain_inv (os ++ match tbl s !! e.1 with
                   | Some Pending => replicate (occurrences e.1 array) e.2
                   | _ => []
                   end) (fire action s e)
  ∧ tbl (fire action s e) = settle_tbl (tbl s) e.
Proof.
  intros Hinv. destruct e as [i o]. cbn [fst snd]. unfold fire.
  rewrite settle_task_eq.
  destruct (tasks s !! i) as [[st rs]|] eqn:Hi.
  2: { assert (tbl s !! i = None) as Ht by (unfold tbl; by rewrite list_lookup_fmap, Hi).
       unfold settle, settle_tbl. cbn [get fst]. rewrite Hi, Ht, app_nil_r.
       rewrite run_microtasks_nil by apply Hinv. done. }
  assert (tbl s !! i = Some st) as Ht by (unfold tbl; by rewrite list_lookup_fmap, Hi).
  rewrite Ht.
  destruct st as [|v|x].
  2, 3: unfold settle, settle_tbl; cbn [get fst]; rewrite Hi, Ht, app_nil_r;
    rewrite run_microtasks_nil by apply Hinv; done.
  rewrite settle_eq. rewrite <- tbl_settle_in.
  assert (pending_reactions (Task i) s = rs) as ->.
  { unfold pending_reactions. cbn [get]. by rewrite Hi. }
  pose proof (ci_tasks _ _ Hinv i _ Hi eq_refl) as Hrs. cbn [p_reactions] in Hrs.
  set (s1 := enqueue _ _).
  assert (tasks s1 = alter (settled_cell (outcome_rej o) (outcome_val o)) i (tasks s))
    as Et by reflexivity.
  assert (queue s1 = queue s ++ map (job_of (outcome_rej o) (outcome_val o)) rs)
    as Eq by reflexivity.
  assert (results s1 = results s) as Er by reflexivity.
  assert (promisesCompleted s1 = promisesCompleted s) as Ec by reflexivity.
  assert (log s1 = log s) as El by reflexivity.
  assert (own s1 = own s) as Eo by reflexivity.
  assert (tbl s1 = tbl (settle_in (Task i) (outcome_rej o) (outcome_val o) s))
    as Etb by reflexivity.
  rewrite <- Etb. clearbody s1.
  rewrite (ci_queue _ _ Hinv) in Eq. cbn [app] in Eq.
  assert (tbl s1 = <[i:=outcome_state o]> (tbl s)) as Etb'.
  { rewrite Etb, tbl_settle_in. unfold settle_tbl. cbn [fst snd]. by rewrite Ht. }
  pose proof (seen_count_settle array (tbl s) i o Ht) as Hcount.
  pose proof (seen_at_call_length array (<[i:=outcome_state o]> (tbl s))) as Hle.
  pose proof (ci_count _ _ Hinv) as Hc0.
  assert (∀ j p, tasks s1 !! j = Some p → p_state p = Pending →
                 obs_reactions (occurrences j array) (p_reactions p)) as Htasks1.
  { intros j p. rewrite Et. destruct (decide (i = j)) as [<-|Hne].
    - rewrite list_lookup_alter_eq, Hi. cbn. intros [= <-]. by destruct o.
    - rewrite list_lookup_alter_ne by done. apply (ci_tasks _ _ Hinv). }
  assert (Forall (λ j, j < length (tasks s1)) array) as Hrange1.
  { rewrite Et, length_alter. apply Hinv. }
  destruct (occurrences i array) as [|m] eqn:Hocc.
  - inversion Hrs; subst. cbn [map] in Eq.
    rewrite run_microtasks_nil by done. cbn [replicate]. rewrite app_nil_r.
    split; [|done]. split; try (rewrite ?Er, ?Ec, ?Eo, ?El; apply Hinv); try done.
    { rewrite Etb', Hcount. lia. }
    pose proof (ci_own _ _ Hinv) as Hown.
    destruct (_ && _); rewrite ?Eo, ?Er, ?El; [exact Hown|].
    destruct Hown as [[kA [? ? ? ?]] ?].
    split; [exists kA; split; rewrite ?Eo; done | done].
  - assert (length os < N) as Hlt by lia.
    pose proof (ci_own _ _ Hinv) as Hown.
    destruct (Nat.eqb_spec (length os) N) as [?|_]; [lia|]. cbn [andb] in Hown.
    destruct Hown as [[kA Hframe] Hlog].
    assert (chain_frame s1 kA) as Hframe1.
    { destruct Hframe. split; rewrite ?Eo; done. }
    destruct (drain_observers (replicate (S m) o) s1 kA)
      as (Ht5 & Hq5 & Hr5 & Hc5 & Hre5 & Hfin5).
    { rewrite Eq. by apply obs_reactions_jobs. }
    { exact Hframe1. }
    { rewrite Ec, (ci_completed _ _ Hinv), length_replicate. lia. }
    assert (tbl (run_microtasks action s1) = tbl s1) as Htb.
    { unfold tbl. by rewrite Ht5. }
    rewrite Htb. split; [|done]. rewrite length_replicate in Hc5, Hfin5.
    split.
    + done.
    + by rewrite Hr5, Er, (ci_results _ _ Hinv), successes_app.
    + rewrite Hc5, Ec, (ci_completed _ _ Hinv), length_app, length_replicate. done.
    + rewrite Htb, Etb', Hcount, length_app, length_replicate. lia.
    + by rewrite Ht5.
    + by rewrite Ht5.
    + done.
    + rewrite Hc5, Ec, (ci_completed _ _ Hinv), El, Hlog in Hfin5.
      rewrite length_app, length_replicate.
      cbn [Nat.eqb negb app] in Hfin5.
      destruct (Nat.eqb (length os + S m) N) eqn:E; cbn [andb] in *.
      * destruct (Nat.eqb_spec N 0) as [?|_]; [lia|]. exact Hfin5.
      * destruct Hfin5 as (HR & HA & HL). split; [|done].
        exists kA. destruct Hframe1. split; try done; congruence.
Qed.

Lemma seen_after_cons (arr : list nat) (t : list pstate) (e : event)
    (post : list event) :
  seen_after arr t (e :: post)
  = match t !! e.1 with
    | Some Pending => replicate (occurrences e.1 arr) e.2
    | _ => []
    end ++ seen_after arr (settle_tbl t e) post.
Proof.
  cbn [seen_after]. unfold settle_tbl.
  destruct (t !! e.1) as [[| |]|]; reflexivity.
Qed.

Lemma chain_post (post : list event) :
  ∀ os s,
    chain_inv os s →
    chain_inv (os ++ seen_after array (tbl s) post) (fold_left (fire action) post s)
    ∧ tbl (fold_left (fire action) post s) = fold_left settle_tbl post (tbl s).
Proof.
  induction post as [|e post IH]; intros os s Hinv.
  - cbn [seen_after fold_left]. by rewrite app_nil_r.
  - rewrite seen_after_cons. cbn [fold_left].
    destruct (chain_event os s e Hinv) as [Hinv' Htbl].
    rewrite app_assoc, <- Htbl. by apply IH.
Qed.

Lemma table_length (T : nat) (evs : list event) : length (table T evs) = T.
Proof.
  unfold table. rewrite <- (length_replicate T Pending) at 2.
  generalize (replicate T Pending).
  induction evs as [|e evs IH]; intros t; [done|].
  cbn [fold_left]. rewrite IH. unfold settle_tbl.
  destruct (t !! e.1) as [[| |]|]; try done. apply length_insert.
Qed.

(** The whole run, summed up. *)
Lemma chain_run (T : nat) (pre post : list event) :
  Forall (λ i, i < T) array →
  let r := run_chain action T pre array post in
  r.1 = R ∧ chain_inv (seen T pre array post) r.2
  ∧ tbl r.2 = table T (pre ++ post).
Proof.
  intros Hwf. cbn zeta. unfold run_chain.
  destruct (prelude_clean action T pre) as [Hclean Htbl].
  set (s0 := fold_left (fire action) pre (init T)) in *. clearbody s0.
  destruct (chain_call s0 Hclean) as (Hr & Htbl1 & Hinv).
  { assert (length (tasks s0) = T) as ->; [|done].
    rewrite <- (table_length T pre), <- Htbl. unfold tbl. by rewrite length_map. }
  destruct (chainPromises array s0) as [r s1]. cbn [fst snd] in *.
  destruct (chain_post post _ _ Hinv) as [Hinv' Htbl'].
  rewrite Htbl1, Htbl in Hinv', Htbl'.
  split; [done|]. split; [exact Hinv'|].
  rewrite Htbl'. unfold table. by rewrite fold_left_app.
Qed.

End ChainFacts.

(** ** The order of observation against the final table *)

Lemma settle_tbl_keeps (t : list pstate) (e : event) (i : nat) (st : pstate) :
  t !! i = Some st → settled st → settle_tbl t e !! i = Some st.
Proof.
  intros Hi Hst. unfold settle_tbl.
  destruct (t !! e.1) as [[| |]|] eqn:He; try done.
  destruct (decide (e.1 = i)) as [E|E].
  - rewrite E in He. congruence.
  - by rewrite list_lookup_insert_ne.
Qed.

Lemma fold_settle_keeps (evs : list event) (t : list pstate) (i : nat) (st : pstate) :
  t !! i = Some st → settled st → fold_left settle_tbl evs t !! i = Some st.
Proof.
  revert t. induction evs as [|e evs IH]; intros t Hi Hst; [done|].
  cbn [fold_left]. apply IH; [by apply settle_tbl_keeps | done].
Qed.

Lemma settle_tbl_pending (t : list pstate) (e : event) (i : nat) :
  settle_tbl t e !! i = Some Pending → t !! i = Some Pending.
Proof.
  unfold settle_tbl. destruct (t !! e.1) as [[| |]|] eqn:He; try done.
  destruct (decide (e.1 = i)) as [E|E].
  - rewrite E in *. rewrite list_lookup_insert_eq by (by eapply lookup_lt_Some).
    intros [= H]. by destruct (e.2).
  - by rewrite list_lookup_insert_ne.
Qed.

Lemma outcome_state_settled (o : outcome) : settled (outcome_state o).
Proof. by destruct o. Qed.

Lemma outcome_of_inv (st : pstate) (o : outcome) :
  outcome_of st = Some o → st = outcome_state o.
Proof. destruct st; intros [= <-]; reflexivity. Qed.

Lemma seen_at_call_cons (i : nat) (arr : list nat) (t : list pstate) :
  seen_at_call (i :: arr) t
  = from_option (λ o, [o]) [] (t !! i ≫= outcome_of) ++ seen_at_call arr t.
Proof.
  unfold seen_at_call. cbn [omap list_omap].
  destruct (t !! i ≫= outcome_of); reflexivity.
Qed.

Lemma seen_perm_settle (arr : list nat) (t : list pstate) (i : nat) (o : outcome) :
  t !! i = Some Pending →
  seen_at_call arr (<[i:=outcome_state o]> t)
  ≡ₚ seen_at_call arr t ++ replicate (occurrences i arr) o.
Proof.
  intros Hi. induction arr as [|j arr IH]; [done|].
  rewrite !seen_at_call_cons. cbn [occurrences].
  destruct (Nat.eqb_spec j i) as [->|Hne].
  - rewrite list_lookup_insert_eq by (by eapply lookup_lt_Some).
    rewrite Hi. cbn [mbind option_bind outcome_of from_option app Nat.add replicate].
    rewrite outcome_of_state. cbn [from_option app].
    rewrite IH. apply Permutation_middle.
  - rewrite list_lookup_insert_ne by done. cbn [Nat.add]. by rewrite IH, app_assoc.
Qed.

(** Whatever the order of observation, what has been seen is what the
    table says of the entries of [array]. *)
Lemma seen_after_perm (arr : list nat) (post : list event) :
  ∀ t, seen_at_call arr t ++ seen_after arr t post
       ≡ₚ seen_at_call arr (fold_left settle_tbl post t).
Proof.
  induction post as [|e post IH]; intros t.
  - cbn [seen_after fold_left]. by rewrite app_nil_r.
  - rewrite seen_after_cons. cbn [fold_left]. rewrite <- IH, app_assoc.
    apply Permutation_app_tail. unfold settle_tbl.
    destruct (t !! e.1) as [[| |]|] eqn:He; rewrite ?app_nil_r; try done.
    symmetry. by apply seen_perm_settle.
Qed.

Lemma seen_perm (T : nat) (pre post : list event) (arr : list nat) :
  seen T pre arr post ≡ₚ seen_at_call arr (table T (pre ++ post)).
Proof.
  unfold seen, table. rewrite fold_left_app. apply seen_after_perm.
Qed.

Lemma seen_at_call_all (arr : list nat) (t : list pstate) (P : pstate → Prop) :
  Forall (λ i, ∃ st, t !! i = Some st ∧ settled st ∧ P st) arr →
  length (seen_at_call arr t) = length arr
  ∧ Forall (λ o, P (outcome_state o)) (seen_at_call arr t).
Proof.
  induction 1 as [|i arr (st & Hi & Hst & HP) _ [IH1 IH2]]; [done|].
  rewrite seen_at_call_cons, Hi. cbn [mbind option_bind].
  destruct st as [|v|e]; [done| |]; cbn [outcome_of from_option app length];
    (split; [by rewrite IH1 | by constructor]).
Qed.

Lemma seen_at_call_full (arr : list nat) (t : list pstate) :
  length (seen_at_call arr t) = length arr →
  Forall (λ i, ∃ st, t !! i = Some st ∧ settled st) arr.
Proof.
  induction arr as [|i arr IH]; [constructor|].
  rewrite seen_at_call_cons. pose proof (seen_at_call_length arr t) as Hle.
  destruct (t !! i) as [[|v|e]|] eqn:Hi; cbn [mbind option_bind outcome_of from_option app length];
    intros Hlen; try lia;
    (constructor; [by eexists | apply IH; lia]).
Qed.

Lemma seen_at_call_pending (arr : list nat) (t : list pstate) :
  Forall (λ i, t !! i = Some Pending) arr → seen_at_call arr t = [].
Proof.
  induction 1 as [|i arr Hi _ IH]; [done|].
  by rewrite seen_at_call_cons, Hi, IH.
Qed.

Lemma occurrences_absent (i : nat) (arr : list nat) :
  i ∉ arr → occurrences i arr = 0.
Proof.
  induction arr as [|j arr IH]; [done|]. intros Hni.
  apply not_elem_of_cons in Hni as [Hne Hni]. cbn [occurrences].
  destruct (Nat.eqb_spec j i); [congruence | by rewrite IH].
Qed.

(** When the events of [pre] leave every entry of [array] pending, the
    order of observation is the order of settlement. *)
Lemma seen_settlement_order (T : nat) (pre post : list event) (arr : list nat) :
  Forall (λ i, table T pre !! i = Some Pending) arr →
  seen T pre arr post = settlement_order T arr (pre ++ post).
Proof.
  unfold seen, settlement_order, table. intros Hp.
  rewrite (seen_at_call_pending _ _ Hp). cbn [app].
  revert Hp. generalize (replicate T Pending).
  induction pre as [|e pre IH]; intros t Hp; [done|].
  cbn [fold_left app] in *. rewrite seen_after_cons, <- (IH _ Hp).
  destruct (t !! e.1) as [[| |]|] eqn:He; try done.
  rewrite occurrences_absent; [done|]. intros Hin.
  rewrite Forall_forall in Hp. specialize (Hp _ Hin).
  assert (settle_tbl t e !! e.1 = Some (outcome_state e.2)) as Hs.
  { unfold settle_tbl. rewrite He. apply list_lookup_insert_eq. by eapply lookup_lt_Some. }
  rewrite (fold_settle_keeps pre _ _ _ Hs (outcome_state_settled _)) in Hp.
  by destruct (e.2).
Qed.

(** ** [chainPromises]: the run as a whole *)

Lemma reduce_from_calls action (arr : list value) (xs : list value) :
  ∀ k acc, Forall (λ l, is_call l = true) (reduce_from action arr k acc xs).2.
Proof.
  induction xs as [|x xs IH]; intros k acc; cbn [reduce_from]; [constructor|].
  destruct (action acc x k arr) as [a|e].
  - specialize (IH (S k) a). destruct (reduce_from action arr (S k) a xs).
    by constructor.
  - by repeat constructor.
Qed.

Lemma reduce_calls action (vals : list value) :
  Forall (λ l, is_call l = true) (reduce action vals).2.
Proof.
  destruct vals as [|x xs]; [constructor | apply reduce_from_calls].
Qed.

Lemma reduce_from_binop (op : value → value → value) (arr xs : list value) :
  ∀ k acc, (reduce_from (binop op) arr k acc xs).1 = Normal (fold_left op xs acc).
Proof.
  induction xs as [|x xs IH]; intros k acc; cbn [reduce_from]; [done|].
  unfold binop at 1. specialize (IH (S k) (op acc x)).
  by destruct (reduce_from (binop op) arr (S k) (op acc x) xs).
Qed.

Lemma finish_binop (op : value → value → value) (v0 : value) (vs : list value) :
  (finish (binop op) (v0 :: vs)).1 = Fulfilled (fold_left op vs v0).
Proof.
  unfold finish, reduce.
  pose proof (reduce_from_binop op (v0 :: vs) vs 1 v0) as H.
  destruct (reduce_from (binop op) (v0 :: vs) 1 v0 vs) as [c l].
  cbn [fst] in H. by subst c.
Qed.

Lemma finish_not_rejected action (vals : list value) (e : value) :
  (finish action vals).1 ≠ Rejected e.
Proof. unfold finish. by destruct (reduce action vals) as [[v|x] l]. Qed.

Lemma filter_none {X} (f : X → bool) (l : list X) :
  Forall (λ x, f x = false) l → List.filter f l = [].
Proof. induction 1 as [|x l Hx _ IH]; [done|]. cbn. by rewrite Hx. Qed.

Lemma finish_log action (vals : list value) :
  fires (finish action vals).2 = 0 ∧ res_calls (finish action vals).2 ≤ 1.
Proof.
  unfold finish, fires, res_calls. pose proof (reduce_calls action vals) as H.
  destruct (reduce action vals) as [[v|e] l]; cbn [snd] in *.
  - rewrite !List.filter_app, !length_app.
    rewrite !(filter_none _ l); [cbn; lia | |];
      (eapply Forall_impl; [exact H|]); by intros [].
  - rewrite !(filter_none _ l); [cbn; lia | |];
      (eapply Forall_impl; [exact H|]); by intros [].
Qed.

Section ChainRun.

Variable action : value → value → nat → list value → completion.

(** The returned promise and the log at the end of a run, from the
    outcomes observed. *)
Lemma chain_outcome (T : nat) (pre post : list event) (array : list nat) :
  Forall (λ i, i < T) array →
  let r := run_chain action T pre array post in
  let os := seen T pre array post in
  results r.2 = successes os ∧ promisesCompleted r.2 = length os ∧
  tbl r.2 = table T (pre ++ post) ∧
  if Nat.eqb (length os) (length array) && negb (Nat.eqb (length array) 0)
  then state_of r.1 r.2 = Some (finish action (successes os)).1 ∧
       log r.2 = LFire :: (finish action (successes os)).2
  else state_of r.1 r.2 = Some Pending ∧ log r.2 = [].
Proof.
  intros Hwf. cbn zeta.
  destruct (chain_run action array T pre post Hwf) as (Hr & Hinv & Htbl).
  rewrite Hr. pose proof (ci_own _ _ _ _ Hinv) as Hown.
  rewrite (ci_results _ _ _ _ Hinv) in Hown.
  split; [apply Hinv|]. split; [apply Hinv|]. split; [done|].
  unfold state_of. cbn [get].
  destruct (_ && _).
  - destruct Hown as (_ & -> & ->). done.
  - destruct Hown as [[kA [-> _ _ _]] ->]. done.
Qed.

Lemma seen_length (T : nat) (pre post : list event) (array : list nat) :
  length (seen T pre array post)
  = length (seen_at_call array (table T (pre ++ post))).
Proof. by rewrite seen_perm. Qed.

End ChainRun.

Lemma table_range (T : nat) (evs : list event) (array : list nat)
    (P : pstate → Prop) :
  Forall (λ i, ∃ st, table T evs !! i = Some st ∧ P st) array →
  Forall (λ i, i < T) array.
Proof.
  intros H. eapply Forall_impl; [exact H|]. intros i (st & Hi & _).
  rewrite <- (table_length T evs). by eapply lookup_lt_Some.
Qed.

Lemma all_success_map (os : list outcome) :
  Forall (λ o, ∃ v, outcome_state o = Fulfilled v) os →
  os = map Success (successes os).
Proof.
  induction 1 as [|o os [v Hv] _ IH]; [done|].
  destruct o as [w|e]; [|done]. unfold successes in *. cbn. by f_equal.
Qed.

Lemma no_success_nil (os : list outcome) :
  Forall (λ o, ∀ v, outcome_state o ≠ Fulfilled v) os → successes os = [].
Proof.
  induction 1 as [|o os Ho _ IH]; [done|].
  destruct o as [w|e]; [by destruct (Ho w)|]. exact IH.
Qed.

Lemma seen_all (T : nat) (pre post : list event) (array : list nat)
    (P : pstate → Prop) :
  Forall (λ i, ∃ st, table T (pre ++ post) !! i = Some st ∧ settled st ∧ P st) array →
  length (seen T pre array post) = length array
  ∧ Forall (λ o, P (outcome_state o)) (seen T pre array post).
Proof.
  intros H. destruct (seen_at_call_all _ _ P H) as [Hlen Hall].
  by rewrite seen_perm.
Qed.

Lemma table_app_keeps (T : nat) (evs evs' : list event) (i : nat) (st : pstate) :
  table T evs !! i = Some st → settled st → table T (evs ++ evs') !! i = Some st.
Proof.
  intros Hi Hst. unfold table. rewrite fold_left_app. by apply fold_settle_keeps.
Qed.

(** ** Observations only accumulate *)

Lemma seen_after_app (arr : list nat) (post post' : list event) :
  ∀ t, seen_after arr t (post ++ post')
       = seen_after arr t post
         ++ seen_after arr (fold_left settle_tbl post t) post'.
Proof.
  induction post as [|e post IH]; intros t; [done|].
  cbn [app]. rewrite !seen_after_cons, IH. cbn [fold_left]. by rewrite app_assoc.
Qed.

Lemma seen_app (T : nat) (pre post post' : list event) (array : list nat) :
  seen T pre array (post ++ post')
  = seen T pre array post ++ seen_after array (table T (pre ++ post)) post'.
Proof. unfold seen, table. by rewrite seen_after_app, fold_left_app, app_assoc. Qed.

(** Once every entry has been observed, nothing more is. *)
Lemma seen_complete (T : nat) (pre post post' : list event) (array : list nat) :
  length (seen T pre array post) = length array →
  seen T pre array (post ++ post') = seen T pre array post.
Proof.
  intros Hlen. pose proof (seen_length T pre (post ++ post') array) as H.
  pose proof (seen_at_call_length array (table T (pre ++ post ++ post'))) as Hle.
  rewrite seen_app in *. rewrite length_app in H.
  destruct (seen_after _ _ post'); [by rewrite app_nil_r|]. simpl in H. lia.
Qed.

(** The call itself, in a run: nothing is observed before the
    microtasks that follow it. *)
Lemma chain_before_microtasks
    (action : value → value → nat → list value → completion) (T : nat)
    (pre : list event) (array : list nat) :
  Forall (λ i, i < T) array →
  let c := chainPromises array (fold_left (fire action) pre (init T)) in
  state_of c.1 c.2 = Some Pending ∧ log c.2 = [] ∧
  results c.2 = [] ∧ promisesCompleted c.2 = 0.
Proof.
  intros Hwf. destruct (prelude_clean action T pre) as [Hclean Htbl].
  set (s0 := fold_left (fire action) pre (init T)) in *. clearbody s0.
  apply chain_at_return; [done|].
  assert (length (tasks s0) = T) as ->; [|done].
  rewrite <- (table_length T pre), <- Htbl. unfold tbl. by rewrite length_map.
Qed.

(** * The claims about [chainPromises] *)

(** C1 (as amended).  When every task of a non-empty array succeeds, the
    returned promise is fulfilled with [op] folded left over the values
    in the order their settlements are observed, the first one being
    the seed: entries already settled at the call come first, in input
    order, then the others as they settle.  When every entry is still
    pending at the call this is the order in which the tasks settled.
    Values 1, 2, 3 settling in that order, before or after the call,
    fold with addition to 6. *)
Theorem chain_all_succeed (op : value → value → value) (T : nat)
    (pre post : list event) (array : list nat) :
  array ≠ [] →
  Forall (λ i, ∃ v, table T (pre ++ post) !! i = Some (Fulfilled v)) array →
  (∃ v0 vs,
     seen T pre array post = map Success (v0 :: vs) ∧
     length (v0 :: vs) = length array ∧
     final_state (run_chain (binop op) T pre array post)
     = Some (Fulfilled (fold_left op vs v0)))
  ∧ (Forall (λ i, table T pre !! i = Some Pending) array →
     seen T pre array post = settlement_order T array (pre ++ post))
  ∧ final_state (run_chain (binop js_add) 3 []
       [0; 1; 2] [(0, Success (VNum 1)); (1, Success (VNum 2)); (2, Success (VNum 3))])
    = Some (Fulfilled (VNum 6))
  ∧ final_state (run_chain (binop js_add) 3
       [(0, Success (VNum 1)); (1, Success (VNum 2)); (2, Success (VNum 3))]
       [0; 1; 2] [])
    = Some (Fulfilled (VNum 6)).
Proof.
  intros Hne Hall.
  split; [|split; [apply seen_settlement_order | split; vm_compute; reflexivity]].
  assert (Forall (λ i, ∃ st, table T (pre ++ post) !! i = Some st ∧ settled st
                        ∧ ∃ v, st = Fulfilled v) array) as Hall'.
  { eapply Forall_impl; [exact Hall|]. intros i [v Hv].
    exists (Fulfilled v). split; [done|]. split; [done | by exists v]. }
  destruct (seen_all _ _ _ _ _ Hall') as [Hlen Hsucc].
  pose proof (all_success_map _ Hsucc) as Hmap.
  destruct (chain_outcome (binop op) T pre post array) as (_ & _ & _ & Hfin).
  { eapply (table_range _ _ _ settled). eapply Forall_impl; [exact Hall'|].
    intros i (st & Hi & Hs & _). eauto. }
  rewrite Hlen, Nat.eqb_refl in Hfin.
  destruct (Nat.eqb_spec (length array) 0) as [E|_]; [by destruct array|].
  destruct Hfin as [Hst _].
  destruct (successes (seen T pre array post)) as [|v0 vs] eqn:Es.
  { rewrite Hmap in Hlen. by destruct array. }
  exists v0, vs. split; [done|]. split.
  - rewrite <- Hlen, Hmap. by rewrite length_map.
  - unfold final_state. by rewrite Hst, finish_binop.
Qed.

Lemma chain_all_succeed_witness :
  [0; 1] ≠ [] ∧
  Forall (λ i, ∃ v, table 2 ([] ++ [(1, Success (VNum 2)); (0, Success (VNum 1))]) !! i
                    = Some (Fulfilled v)) [0; 1] ∧
  ∃ v0 vs,
    seen 2 [] [0; 1] [(1, Success (VNum 2)); (0, Success (VNum 1))]
    = map Success (v0 :: vs) ∧
    length (v0 :: vs) = length [0; 1] ∧
    final_state (run_chain (binop js_sub) 2 [] [0; 1]
                   [(1, Success (VNum 2)); (0, Success (VNum 1))])
    = Some (Fulfilled (fold_left js_sub vs v0)).
Proof.
  assert ([0; 1] ≠ []) as H1 by discriminate.
  assert (Forall (λ i, ∃ v, table 2 ([] ++ [(1, Success (VNum 2)); (0, Success (VNum 1))]) !! i
                    = Some (Fulfilled v)) [0; 1]) as H2.
  { repeat constructor; eexists; reflexivity. }
  split; [exact H1|]. split; [exact H2|].
  exact (proj1 (chain_all_succeed js_sub 2 [] _ [0; 1] H1 H2)).
Defined.

(** C1 as stated fails: two tasks that settled before the call, the
    second entry first, are folded in input order, not in the order
    they settled. *)
Lemma chain_all_succeed_counterexample :
  let pre := [(1, Success (VNum 2)); (0, Success (VNum 1))] in
  successes (settlement_order 2 [0; 1] (pre ++ [])) = [VNum 2; VNum 1] ∧
  final_state (run_chain (binop js_sub) 2 pre [0; 1] [])
  = Some (Fulfilled (VNum (-1))) ∧
  final_state (run_chain (binop js_sub) 2 pre [0; 1] [])
  ≠ Some (Fulfilled (fold_left js_sub [VNum 1] (VNum 2))).
Proof.
  cbn zeta. split; [reflexivity|]. split; [vm_compute; reflexivity|].
  vm_compute. discriminate.
Qed.

(** C2 (as amended).  When every task has settled and k of them
    succeeded, 1 <= k < N, the returned promise is fulfilled with [op]
    folded over exactly the k successful values, nothing standing in
    for a failed task, in the order their settlements are observed
    (entries settled at the call first, in input order, then the others
    as they settle; the order of settlement when all are pending at the
    call).  [resolve(5), reject('boom'), resolve(10)] folds with
    multiplication to 50. *)
Theorem chain_some_succeed (op : value → value → value) (T : nat)
    (pre post : list event) (array : list nat) :
  Forall (λ i, ∃ st, table T (pre ++ post) !! i = Some st ∧ settled st) array →
  1 ≤ length (successes (seen_at_call array (table T (pre ++ post)))) →
  length (successes (seen_at_call array (table T (pre ++ post)))) < length array →
  (∃ v0 vs,
     successes (seen T pre array post) = v0 :: vs ∧
     v0 :: vs ≡ₚ successes (seen_at_call array (table T (pre ++ post))) ∧
     final_state (run_chain (binop op) T pre array post)
     = Some (Fulfilled (fold_left op vs v0)))
  ∧ (Forall (λ i, table T pre !! i = Some Pending) array →
     seen T pre array post = settlement_order T array (pre ++ post))
  ∧ final_state (run_chain (binop js_mul) 3
       [(0, Success (VNum 5)); (1, Failure (VStr "boom")); (2, Success (VNum 10))]
       [0; 1; 2] [])
    = Some (Fulfilled (VNum 50)).
Proof.
  intros Hall Hk HkN.
  split; [|split; [apply seen_settlement_order | vm_compute; reflexivity]].
  assert (Forall (λ i, ∃ st, table T (pre ++ post) !! i = Some st ∧ settled st
                        ∧ True) array) as Hall'.
  { eapply Forall_impl; [exact Hall|]. intros i (st & Hi & Hs). eauto. }
  destruct (seen_all _ _ _ _ _ Hall') as [Hlen _].
  destruct (chain_outcome (binop op) T pre post array) as (_ & _ & _ & Hfin).
  { by eapply (table_range _ _ _ settled). }
  rewrite Hlen, Nat.eqb_refl in Hfin.
  destruct (Nat.eqb_spec (length array) 0) as [E|_]; [lia|].
  destruct Hfin as [Hst _].
  assert (successes (seen T pre array post)
          ≡ₚ successes (seen_at_call array (table T (pre ++ post)))) as Hperm.
  { unfold successes. by rewrite seen_perm. }
  destruct (successes (seen T pre array post)) as [|v0 vs] eqn:Es.
  { apply Permutation_length in Hperm. cbn in Hperm. lia. }
  exists v0, vs. split; [done|]. split; [done|].
  unfold final_state. by rewrite Hst, finish_binop.
Qed.

Lemma chain_some_succeed_witness :
  let pre := [(1, Failure (VStr "boom")); (2, Success (VNum 10))] in
  let post := [(0, Success (VNum 5))] in
  ∃ v0 vs,
    successes (seen 3 pre [0; 1; 2] post) = v0 :: vs ∧
    v0 :: vs ≡ₚ successes (seen_at_call [0; 1; 2] (table 3 (pre ++ post))) ∧
    final_state (run_chain (binop js_sub) 3 pre [0; 1; 2] post)
    = Some (Fulfilled (fold_left js_sub vs v0)).
Proof.
  refine (proj1 (chain_some_succeed js_sub 3 _ _ [0; 1; 2] _ _ _)).
  - repeat constructor; eexists; (split; [reflexivity | discriminate]).
  - cbn. lia.
  - cbn. lia.
Defined.

(** C2 as stated fails in the same way as C1: of three tasks settled
    before the call, the successful ones are folded in input order. *)
Lemma chain_some_succeed_counterexample :
  let pre := [(1, Success (VNum 2)); (2, Failure (VStr "boom"));
              (0, Success (VNum 1))] in
  successes (settlement_order 3 [0; 1; 2] (pre ++ [])) = [VNum 2; VNum 1] ∧
  final_state (run_chain (binop js_sub) 3 pre [0; 1; 2] [])
  = Some (Fulfilled (VNum (-1))) ∧
  final_state (run_chain (binop js_sub) 3 pre [0; 1; 2] [])
  ≠ Some (Fulfilled (fold_left js_sub [VNum 1] (VNum 2))).
Proof.
  cbn zeta. split; [reflexivity|]. split; [vm_compute; reflexivity|].
  vm_compute. discriminate.
Qed.

(** C3.  The promise returned by [chainPromises] is never rejected,
    whatever the tasks do and whatever the reducer does: a failed task
    only counts as settled, and only successful values are collected. *)
Theorem chain_never_rejects
    (action : value → value → nat → list value → completion) (T : nat)
    (pre post : list event) (array : list nat) :
  Forall (λ i, i < T) array →
  let r := run_chain action T pre array post in
  (∀ e, final_state r ≠ Some (Rejected e)) ∧
  results r.2 = successes (seen T pre array post) ∧
  promisesCompleted r.2 = length (seen T pre array post).
Proof.
  intros Hwf. cbn zeta.
  destruct (chain_outcome action T pre post array Hwf) as (Hr & Hc & _ & Hfin).
  split; [|done]. intros e. unfold final_state.
  destruct (_ && _); destruct Hfin as [-> _]; [|done].
  intros [= H]. by eapply finish_not_rejected.
Qed.

Lemma chain_never_rejects_witness :
  let r := run_chain (binop js_add) 2 [(0, Failure (VStr "a"))] [0; 1]
             [(1, Failure (VStr "b"))] in
  (∀ e, final_state r ≠ Some (Rejected e)) ∧
  results r.2 = successes (seen 2 [(0, Failure (VStr "a"))] [0; 1]
                             [(1, Failure (VStr "b"))]) ∧
  promisesCompleted r.2 = length (seen 2 [(0, Failure (VStr "a"))] [0; 1]
                                    [(1, Failure (VStr "b"))]).
Proof.
  apply (chain_never_rejects (binop js_add) 2). repeat constructor.
Defined.

(** C4.  For a non-empty array the test "counter equals N" succeeds at
    most once and [res] is called at most once; the returned promise is
    settled only when every task of the array has settled; and once
    they all have, the test has succeeded exactly once.

    While some task of the array is pending the test has not
    succeeded: nothing is logged and the counter is below N.  When the
    test has succeeded, the counter is N, which is the number of
    settlements observed, and the success is the first thing logged,
    before any call of the reducer or of [res]; from then on later
    events change neither the log nor the returned promise.  When
    the function returns, nothing has been counted or logged yet,
    even if tasks had settled before the call: the test is only made
    by the callbacks of lines 113 and 120, which run as microtasks.
    As all this holds after every sequence of events, the test
    succeeds in the macrotask in which the last task of the array
    settles (in the microtasks after the call, when all had settled
    before it), on the observation that brings the counter to N, and
    on no other. *)
Theorem chain_settles_once
    (action : value → value → nat → list value → completion) (T : nat)
    (pre post : list event) (array : list nat) :
  array ≠ [] → Forall (λ i, i < T) array →
  let r := run_chain action T pre array post in
  fires (log r.2) ≤ 1 ∧ res_calls (log r.2) ≤ 1 ∧
  (final_state r ≠ Some Pending →
   Forall (λ i, ∃ st, state_of (Task i) r.2 = Some st ∧ settled st) array) ∧
  (Forall (λ i, ∃ st, state_of (Task i) r.2 = Some st ∧ settled st) array →
   fires (log r.2) = 1) ∧
  (¬ Forall (λ i, ∃ st, state_of (Task i) r.2 = Some st ∧ settled st) array →
   log r.2 = [] ∧ promisesCompleted r.2 < length array) ∧
  (fires (log r.2) = 1 →
   promisesCompleted r.2 = length array ∧
   ∃ l, log r.2 = LFire :: l ∧ fires l = 0) ∧
  promisesCompleted r.2 = length (seen T pre array post) ∧
  (∀ post', fires (log r.2) = 1 →
     let r' := run_chain action T pre array (post ++ post') in
     log r'.2 = log r.2 ∧ final_state r' = final_state r) ∧
  (let c := chainPromises array (fold_left (fire action) pre (init T)) in
   log c.2 = [] ∧ promisesCompleted c.2 = 0).
Proof.
  intros Hne Hwf. cbn zeta.
  destruct (chain_before_microtasks action T pre array Hwf) as (_ & Hl0 & _ & Hc0).
  destruct (chain_outcome action T pre post array Hwf) as (_ & Hcount & Htbl & Hfin).
  assert (∀ i, state_of (Task i) (run_chain action T pre array post).2
               = table T (pre ++ post) !! i) as Hst.
  { intros i. rewrite <- Htbl. unfold state_of, tbl. cbn [get].
    by rewrite list_lookup_fmap. }
  pose proof (seen_length T pre post array) as Hlen.
  pose proof (seen_at_call_length array (table T (pre ++ post))) as Hle.
  destruct (finish_log action (successes (seen T pre array post))) as [Hf Hr].
  assert (Forall (λ i, ∃ st, state_of (Task i) (run_chain action T pre array post).2
                             = Some st ∧ settled st) array
          ↔ length (seen T pre array post) = length array) as Hall.
  { split.
    - intros Hall. rewrite Hlen. apply (seen_at_call_all _ _ (λ _, True)).
      eapply Forall_impl; [exact Hall|]. intros i (st & Hi & Hs).
      rewrite Hst in Hi. eauto.
    - intros E. rewrite Hlen in E. apply seen_at_call_full in E.
      eapply Forall_impl; [exact E|]. intros i. by rewrite Hst. }
  destruct (Nat.eqb_spec (length (seen T pre array post)) (length array)) as [E|E];
    cbn [andb] in Hfin.
  - destruct (Nat.eqb_spec (length array) 0) as [E0|_]; [by destruct array|].
    cbn [negb] in Hfin. destruct Hfin as [Hp Hlog]. rewrite Hlog.
    assert (fires (LFire :: (finish action (successes (seen T pre array post))).2) = 1)
      as Hfire by (unfold fires in *; cbn; lia).
    rewrite Hfire. split; [lia|]. split.
    { unfold res_calls in *. cbn [List.filter is_res]. exact Hr. }
    split; [intros _; by apply Hall|]. split; [done|].
    split; [intros Hn; destruct Hn; by apply Hall|].
    split; [intros _; split; [congruence | by eexists]|].
    split; [done|]. split; [|done]. intros post' _.
    destruct (chain_outcome action T pre (post ++ post') array Hwf)
      as (_ & _ & _ & Hfin').
    rewrite (seen_complete T pre post post' array E) in Hfin'.
    rewrite E, Nat.eqb_refl in Hfin'. cbn [andb] in Hfin'.
    destruct (Nat.eqb_spec (length array) 0) as [E0|_]; [by destruct array|].
    cbn [negb] in Hfin'. destruct Hfin' as [Hp' Hlog'].
    unfold final_state. by rewrite Hp, Hp', Hlog'.
  - destruct Hfin as [Hp Hlog]. rewrite Hlog.
    split; [cbn; lia|]. split; [cbn; lia|].
    split; [intros Hnp; unfold final_state in Hnp; by rewrite Hp in Hnp|].
    split; [intros Ha; destruct E; by apply Hall|].
    split; [intros _; split; [done | lia]|].
    split; [by intros|]. split; [done|]. split; [by intros | done].
Qed.

Lemma chain_settles_once_witness :
  let r := run_chain (binop js_add) 2 [(1, Success (VNum 1))] [0; 1]
             [(0, Failure (VStr "late"))] in
  fires (log r.2) ≤ 1 ∧ res_calls (log r.2) ≤ 1 ∧
  (final_state r ≠ Some Pending →
   Forall (λ i, ∃ st, state_of (Task i) r.2 = Some st ∧ settled st) [0; 1]) ∧
  (Forall (λ i, ∃ st, state_of (Task i) r.2 = Some st ∧ settled st) [0; 1] →
   fires (log r.2) = 1) ∧
  (¬ Forall (λ i, ∃ st, state_of (Task i) r.2 = Some st ∧ settled st) [0; 1] →
   log r.2 = [] ∧ promisesCompleted r.2 < length [0; 1]) ∧
  (fires (log r.2) = 1 →
   promisesCompleted r.2 = length [0; 1] ∧
   ∃ l, log r.2 = LFire :: l ∧ fires l = 0) ∧
  promisesCompleted r.2
  = length (seen 2 [(1, Success (VNum 1))] [0; 1] [(0, Failure (VStr "late"))]) ∧
  (∀ post', fires (log r.2) = 1 →
     let r' := run_chain (binop js_add) 2 [(1, Success (VNum 1))] [0; 1]
                 ([(0, Failure (VStr "late"))] ++ post') in
     log r'.2 = log r.2 ∧ final_state r' = final_state r) ∧
  (let c := chainPromises [0; 1]
              (fold_left (fire (binop js_add)) [(1, Success (VNum 1))] (init 2)) in
   log c.2 = [] ∧ promisesCompleted c.2 = 0).
Proof.
  apply (chain_settles_once (binop js_add) 2); [discriminate | repeat constructor].
Defined.

Lemma seen_at_call_no_success (arr : list nat) (t : list pstate) :
  Forall (λ i, ∀ v, t !! i ≠ Some (Fulfilled v)) arr →
  successes (seen_at_call arr t) = [].
Proof.
  induction 1 as [|i arr Hi _ IH]; [done|].
  rewrite seen_at_call_cons, successes_app, IH, app_nil_r.
  destruct (t !! i) as [[|v|e]|]; try done. by destruct (Hi v).
Qed.

(** C5 (as amended).  When no task of the array succeeds, the reducer
    is never called: either the collected values are never folded (some
    task is still pending, or the array is empty), or the fold of the
    empty array throws before calling it.  The returned promise stays
    pending. *)
Theorem chain_no_success
    (action : value → value → nat → list value → completion) (T : nat)
    (pre post : list event) (array : list nat) :
  Forall (λ i, i < T) array →
  Forall (λ i, ∀ v, table T (pre ++ post) !! i ≠ Some (Fulfilled v)) array →
  let r := run_chain action T pre array post in
  reducer_calls (log r.2) = [] ∧ (∀ a c k, LCall a c k ∉ log r.2) ∧
  final_state r = Some Pending.
Proof.
  intros Hwf Hnone. cbn zeta.
  destruct (chain_outcome action T pre post array Hwf) as (_ & _ & _ & Hfin).
  assert (successes (seen T pre array post) = []) as Hs.
  { apply Permutation_nil_r. rewrite <- (seen_at_call_no_success _ _ Hnone).
    unfold successes. by rewrite seen_perm. }
  rewrite Hs in Hfin. unfold final_state.
  destruct (_ && _); destruct Hfin as [-> ->]; cbn.
  - repeat split; try done. intros a c k Hin.
    apply list_elem_of_singleton in Hin. discriminate.
  - repeat split; try done. intros a c k Hin. by apply elem_of_nil in Hin.
Qed.

Lemma chain_no_success_witness :
  let r := run_chain (binop js_add) 2 [(0, Failure (VStr "a"))] [0; 1]
             [(1, Failure (VStr "b"))] in
  reducer_calls (log r.2) = [] ∧ (∀ a c k, LCall a c k ∉ log r.2) ∧
  final_state r = Some Pending.
Proof.
  apply (chain_no_success (binop js_add) 2); repeat constructor; discriminate.
Defined.

(** C5 as stated fails: with one task, which fails, the run calls the
    reducer not at all, with undefined operands or any other. *)
Lemma chain_no_success_counterexample :
  let r := run_chain (binop js_add) 1 [(0, Failure (VStr "boom"))] [0] [] in
  log r.2 = [LFire] ∧ ¬ ∃ k, LCall VUndef VUndef k ∈ log r.2.
Proof.
  cbn zeta.
  assert (log (run_chain (binop js_add) 1 [(0, Failure (VStr "boom"))] [0] []).2
          = [LFire]) as -> by (vm_compute; reflexivity).
  split; [reflexivity|]. intros [k Hin].
  apply list_elem_of_singleton in Hin. discriminate.
Qed.

(** C6.  When every task of a non-empty array fails, the returned
    promise is pending and stays so whatever happens afterwards: the
    test of lines 116/122 succeeds once, the fold of the empty array
    throws, and [res] is never called. *)
Theorem chain_all_fail
    (action : value → value → nat → list value → completion) (T : nat)
    (pre post : list event) (array : list nat) :
  array ≠ [] →
  Forall (λ i, ∃ e, table T (pre ++ post) !! i = Some (Rejected e)) array →
  ∀ post',
    let r := run_chain action T pre array (post ++ post') in
    final_state r = Some Pending ∧ log r.2 = [LFire] ∧ results r.2 = [] ∧
    ∃ e, (reduce action (results r.2)).1 = Throw e.
Proof.
  intros Hne Hall post'. cbn zeta.
  assert (Forall (λ i, ∃ st, table T (pre ++ post ++ post') !! i = Some st ∧ settled st
                        ∧ ∃ e, st = Rejected e) array) as Hall'.
  { eapply Forall_impl; [exact Hall|]. intros i [e He].
    exists (Rejected e). split; [|split; [done | by exists e]].
    rewrite app_assoc. by apply table_app_keeps. }
  destruct (seen_all _ _ _ _ _ Hall') as [Hlen Hfail].
  destruct (chain_outcome action T pre (post ++ post') array) as (Hr & _ & _ & Hfin).
  { eapply (table_range _ _ _ settled). eapply Forall_impl; [exact Hall'|].
    intros i (st & Hi & Hs & _). eauto. }
  assert (successes (seen T pre array (post ++ post')) = []) as Hs.
  { apply no_success_nil. eapply Forall_impl; [exact Hfail|].
    intros o [e He] v. by rewrite He. }
  rewrite Hlen, Nat.eqb_refl, Hs in Hfin. rewrite Hs in Hr.
  destruct (Nat.eqb_spec (length array) 0) as [E|_]; [by destruct array|].
  destruct Hfin as [Hst Hlog]. unfold final_state. rewrite Hst, Hlog, Hr.
  repeat split; try done. by eexists.
Qed.

Lemma chain_all_fail_witness :
  let r := run_chain (binop js_add) 2 [(1, Failure (VStr "b"))] [0; 1]
             ([(0, Failure (VStr "a"))] ++ [(0, Success (VNum 1))]) in
  final_state r = Some Pending ∧ log r.2 = [LFire] ∧ results r.2 = [] ∧
  ∃ e, (reduce (binop js_add) (results r.2)).1 = Throw e.
Proof.
  apply (chain_all_fail (binop js_add) 2); [discriminate|].
  repeat constructor; eexists; reflexivity.
Defined.

(** C7.  With a single-element array whose task succeeds with [v], the
    returned promise is fulfilled with [v] and the reducer is never
    called, whatever the reducer is; so for [resolve(7)]. *)
Theorem chain_single
    (action : value → value → nat → list value → completion) (T : nat)
    (pre post : list event) (i : nat) (v : value) :
  table T (pre ++ post) !! i = Some (Fulfilled v) →
  let r := run_chain action T pre [i] post in
  final_state r = Some (Fulfilled v) ∧ reducer_calls (log r.2) = [] ∧
  log r.2 = [LFire; LRes v].
Proof.
  intros Hi. cbn zeta.
  destruct (chain_outcome action T pre post [i]) as (_ & _ & _ & Hfin).
  { constructor; [|constructor]. rewrite <- (table_length T (pre ++ post)).
    by eapply lookup_lt_Some. }
  assert (seen T pre [i] post = [Success v]) as Hs.
  { apply Permutation_singleton_r. rewrite seen_perm.
    by rewrite seen_at_call_cons, Hi. }
  rewrite Hs in Hfin. cbn in Hfin. destruct Hfin as [Hst ->].
  unfold final_state. by rewrite Hst.
Qed.

Lemma chain_single_witness :
  table 1 ([(0, Success (VNum 7))] ++ []) !! 0 = Some (Fulfilled (VNum 7)) ∧
  let r := run_chain (binop js_add) 1 [(0, Success (VNum 7))] [0] [] in
  final_state r = Some (Fulfilled (VNum 7)) ∧ reducer_calls (log r.2) = [] ∧
  log r.2 = [LFire; LRes (VNum 7)].
Proof.
  split; [reflexivity|].
  apply (chain_single (binop js_add) 1 [(0, Success (VNum 7))] [] 0 (VNum 7)).
  reflexivity.
Defined.

(** * [processAllPromises] and [getFastestPromise] *)

Lemma link_ext (s s' : state) (a : option outcome) (tail : list job) :
  own s' !! 0 = own s !! 0 → own s' !! 1 = own s !! 1 →
  link s a tail → link s' a tail.
Proof.
  intros H0 H1 Hl.
  destruct Hl as [k1 k2 ? ? A1 A0|o k1 k2 ? ? A1 A0|o A1 A0];
    rewrite <- H1 in A1; rewrite <- H0 in A0;
    [by apply (link_pending _ k1 k2) | by apply (link_queued _ o k1 k2)
    | by apply link_done].
Qed.

Lemma mk_outcome_state (rej : bool) (v : value) :
  outcome_state (mk_outcome rej v) = new_state rej v.
Proof. by destruct rej. Qed.

Lemma mk_outcome_rej (rej : bool) (v : value) : outcome_rej (mk_outcome rej v) = rej.
Proof. by destruct rej. Qed.

Lemma mk_outcome_val (rej : bool) (v : value) : outcome_val (mk_outcome rej v) = v.
Proof. by destruct rej. Qed.

Lemma settle_noop (r : ref) (rej : bool) (v : value) (s : state) (p : promise) :
  get r s = Some p → p_state p ≠ Pending → settle r rej v s = s.
Proof. intros Hg Hp. unfold settle. rewrite Hg. by destruct p as [[| |] rs]. Qed.

(** Settling the aggregate: the first call queues the two jobs of the
    wrapper, later calls do nothing. *)
Lemma settle_agg (s : state) (a : option outcome) (q tail : list job)
    (rej : bool) (v : value) :
  link s a tail → queue s = q ++ tail →
  let s' := settle (Own 1) rej v s in
  ∃ tail',
    link s' (Some (default (mk_outcome rej v) a)) tail' ∧ queue s' = q ++ tail' ∧
    tasks s' = tasks s ∧ all_values s' = all_values s ∧
    all_remaining s' = all_remaining s ∧
    (∀ k, 2 ≤ k → own s' !! k = own s !! k).
Proof.
  intros Hl Hq. cbn zeta.
  destruct Hl as [k1 k2 ? ? H1 H0|o k1 k2 ? ? H1 H0|o H1 H0].
  - rewrite settle_eq, (pending_reactions_own 1 _ _ H1). cbn [default].
    exists (wrap_jobs (mk_outcome rej v) k1 k2). proj.
    rewrite Hq, app_nil_r. split.
    { apply link_queued; [done | done | |]; proj.
      - rewrite list_lookup_alter_eq, H1. cbn. by rewrite mk_outcome_state.
      - rewrite list_lookup_alter_ne by lia. done. }
    split.
    { unfold wrap_jobs. by rewrite mk_outcome_rej, mk_outcome_val. }
    repeat split; try done. intros k Hk. by rewrite list_lookup_alter_ne by lia.
  - rewrite (settle_noop (Own 1) _ _ _ _ H1) by (by destruct o).
    exists (wrap_jobs o k1 k2). repeat split; try done. by apply link_queued.
  - rewrite (settle_noop (Own 1) _ _ _ _ H1) by (by destruct o).
    exists []. repeat split; try done. by apply link_done.
Qed.

Section Wrap.

Variable action : value → value → nat → list value → completion.

(** The two jobs of the wrapper hand the outcome of [A] to [P]. *)
Lemma wrap_run (s : state) (a : option outcome) (tail : list job) :
  link s a tail → queue s = tail → frame2 s →
  let s' := run_microtasks action s in
  link s' a [] ∧ queue s' = [] ∧ tasks s' = tasks s ∧ frame2 s' ∧
  all_values s' = all_values s ∧ all_remaining s' = all_remaining s.
Proof.
  intros Hl Hq Hf. cbn zeta.
  destruct Hl as [k1 k2 ? ? H1 H0|o k1 k2 Hk1 Hk2 H1 H0|o H1 H0].
  - rewrite run_microtasks_nil by done. repeat split; try done.
    by apply (link_pending _ k1 k2).
  - unfold wrap_jobs in Hq. rewrite (run_microtasks_cons _ _ _ _ Hq).
    destruct o as [v|e]; unfold run_job;
      cbn [j_handler j_rej j_arg j_cap job_of outcome_rej outcome_val
           wrap_then wrap_catch r_ful r_rej r_cap call].
    + unfold resolve_fn.
      rewrite (settle_silent 0) by (proj; intros p; rewrite H0; by intros [= <-]).
      rewrite settle_silent by (proj; apply no_reactions_alter; auto).
      erewrite run_microtasks_cons by (proj; reflexivity).
      unfold run_job;
        cbn [j_handler j_rej j_arg j_cap job_of outcome_rej outcome_val
             wrap_then wrap_catch r_ful r_rej r_cap call].
      unfold resolve_fn. rewrite settle_silent
        by (proj; do 2 apply no_reactions_alter; auto).
      rewrite run_microtasks_nil by (proj; reflexivity). proj.
      repeat split; try done.
      * apply link_done; proj; rewrite !list_lookup_alter_ne by lia.
        -- done.
        -- by rewrite list_lookup_alter_eq, H0.
      * unfold frame2. intros k Hk. proj. do 3 apply no_reactions_alter. auto.
    + unfold reject_fn. rewrite settle_silent by (proj; auto).
      erewrite run_microtasks_cons by (proj; reflexivity).
      unfold run_job;
        cbn [j_handler j_rej j_arg j_cap job_of outcome_rej outcome_val
             wrap_then wrap_catch r_ful r_rej r_cap call].
      unfold reject_fn, resolve_fn.
      rewrite (settle_silent 0)
        by (proj; intros p; rewrite list_lookup_alter_ne by lia; rewrite H0; by intros [= <-]).
      rewrite settle_silent by (proj; do 2 apply no_reactions_alter; auto).
      rewrite run_microtasks_nil by (proj; reflexivity). proj.
      repeat split; try done.
      * apply link_done; proj; rewrite !list_lookup_alter_ne by lia.
        -- done.
        -- rewrite list_lookup_alter_eq. rewrite list_lookup_alter_ne by lia.
           by rewrite H0.
      * unfold frame2. intros k Hk. proj. do 3 apply no_reactions_alter. auto.
  - rewrite run_microtasks_nil by done. repeat split; try done. by apply link_done.
Qed.

End Wrap.

(** ** Observations tagged with their position in the array *)

Lemma promise_resolve_task (i : nat) (s : state) :
  i < length (tasks s) → promise_resolve i s = (Task i, s).
Proof.
  intros Hi. unfold promise_resolve.
  by destruct (lookup_lt_is_Some_2 _ _ Hi) as [p ->].
Qed.

Lemma then_tasks_length (r : ref) (onF onR : option handler) (s s' : state)
    (d : ref) :
  then_ r onF onR s = Some (d, s') → length (tasks s') = length (tasks s).
Proof.
  unfold then_, alloc. destruct (get r s) as [p|]; [|done]. intros [= <- <-].
  destruct (p_state p); try done. destruct r; cbn [put]; proj; [|done].
  apply length_insert.
Qed.

(** On an array of tasks [Promise.resolve] changes nothing, and the
    loops are instances of [el_loop]. *)
Lemma all_loop_el (cap : ref) (arr : list nat) :
  ∀ idx s,
    Forall (λ i, i < length (tasks s)) arr →
    all_loop cap idx arr s
    = el_loop (λ s, set_all_remaining S (set_all_values (λ l, l ++ [None]) s))
        (λ idx, HAllElement idx cap) cap idx arr s.
Proof.
  induction arr as [|i arr IH]; intros idx s Hwf; [done|].
  apply Forall_cons in Hwf as [Hi Hwf]. cbn [all_loop el_loop]. cbn zeta.
  rewrite promise_resolve_task by done.
  destruct (then_ _ _ _ _) as [[d s1]|] eqn:E; [|done].
  apply IH. by rewrite (then_tasks_length _ _ _ _ _ _ E).
Qed.

Lemma race_loop_el (cap : ref) (arr : list nat) :
  ∀ idx s,
    Forall (λ i, i < length (tasks s)) arr →
    race_loop cap arr s = el_loop (λ s, s) (λ _, HResolveFn cap) cap idx arr s.
Proof.
  induction arr as [|i arr IH]; intros idx s Hwf; [done|].
  apply Forall_cons in Hwf as [Hi Hwf]. cbn [race_loop el_loop].
  rewrite promise_resolve_task by done.
  destruct (then_ _ _ _ _) as [[d s1]|] eqn:E; [|done].
  apply IH. by rewrite (then_tasks_length _ _ _ _ _ _ E).
Qed.

Lemma positions_length (start i : nat) (arr : list nat) :
  length (positions_from start i arr) = occurrences i arr.
Proof.
  revert start. induction arr as [|j arr IH]; intros start; [done|].
  cbn [positions_from occurrences]. rewrite length_app, IH.
  by destruct (Nat.eqb j i).
Qed.

Lemma tagged_at_call_snd (start : nat) (arr : list nat) (t : list pstate) :
  map snd (tagged_at_call start arr t) = seen_at_call arr t.
Proof.
  revert start. induction arr as [|i arr IH]; intros start; [done|].
  cbn [tagged_at_call]. rewrite seen_at_call_cons, map_app, IH.
  by destruct (t !! i ≫= outcome_of).
Qed.

Lemma tagged_after_snd (arr : list nat) (post : list event) :
  ∀ t, map snd (tagged_after arr t post) = seen_after arr t post.
Proof.
  induction post as [|e post IH]; intros t; [done|].
  cbn [tagged_after seen_after].
  destruct (t !! e.1) as [[| |]|]; rewrite ?map_app, IH; try done.
  f_equal. rewrite map_map. cbn [snd].
  rewrite <- (positions_length 0). generalize (positions_from 0 e.1 arr).
  intros l. induction l as [|x l IHl]; [done|]. cbn. by f_equal.
Qed.

Lemma tagged_snd (T : nat) (pre post : list event) (arr : list nat) :
  map snd (tagged T pre arr post) = seen T pre arr post.
Proof.
  unfold tagged, seen. by rewrite map_app, tagged_at_call_snd, tagged_after_snd.
Qed.

(** ** One reaction per array entry, feeding an aggregate *)

Section Elements.

Variable action : value → value → nat → list value → completion.

Variable array : list nat.

Variable onF : nat → handler.

Local Abbreviation N := (length array).

Local Abbreviation A := (Own 1).

Local Abbreviation el_reaction := (el_reaction onF).
Local Abbreviation el_job := (el_job onF).
Local Abbreviation el_handler := (el_handler onF).
Local Abbreviation el_queue := (el_queue array onF).
Local Abbreviation el_queue_nil := (el_queue_nil array onF).
Local Abbreviation el_queue_cons := (el_queue_cons array onF).
Local Abbreviation el_reactions := (el_reactions array onF).
Local Abbreviation el_reactions_nil := (el_reactions_nil array onF).
Local Abbreviation el_reactions_cons := (el_reactions_cons array onF).

Lemma el_queue_app (os os' : list (nat * outcome)) (q q' : list job) :
  el_queue os q → el_queue os' q' → el_queue (os ++ os') (q ++ q').
Proof. induction 1; [done|]. intros. cbn. constructor; auto. Qed.

Lemma el_reactions_jobs (idxs : list nat) (rs : list reaction) (o : outcome) :
  el_reactions idxs rs →
  el_queue (map (λ idx, (idx, o)) idxs)
           (map (job_of (outcome_rej o) (outcome_val o)) rs).
Proof.
  induction 1 as [|idx idxs rs k Hk Hidx _ IH]; [constructor|].
  cbn [map]. by apply (el_queue_cons (idx, o)).
Qed.

(** *** The loop *)

Section Loop.

Variable upd : state → state.

Variable fv : list (option value) → list (option value).

Variable fr : nat → nat.

Hypothesis upd_tasks : ∀ s, tasks (upd s) = tasks s.

Hypothesis upd_own : ∀ s, own (upd s) = own s.

Hypothesis upd_queue : ∀ s, queue (upd s) = queue s.

Hypothesis upd_values : ∀ s, all_values (upd s) = fv (all_values s).

Hypothesis upd_remaining : ∀ s, all_remaining (upd s) = fr (all_remaining s).

Local Abbreviation el_entry := (el_entry onF upd).

Lemma el_entry_step (start i : nat) (p : promise) (rest : list nat) (s : state) :
  tasks s !! i = Some p →
  el_loop upd onF A start (i :: rest) s
  = el_loop upd onF A (S start) rest (el_entry start i p s).
Proof.
  intros Hi. cbn [el_loop]. unfold then_, el_entry.
  cbn [get alloc]. rewrite upd_tasks, upd_own, Hi.
  by destruct p as [[|v|e] rs].
Qed.

Lemma el_entry_facts (start i : nat) (p : promise) (s : state) :
  tasks s !! i = Some p →
  let s1 := el_entry start i p s in
  tbl s1 = tbl s ∧ length (tasks s1) = length (tasks s) ∧
  own s1 = own s ++ [Promise Pending []] ∧
  all_values s1 = fv (all_values s) ∧ all_remaining s1 = fr (all_remaining s).
Proof.
  intros Hi. unfold el_entry, tbl.
  destruct p as [[|v|e] rs]; cbn [outcome_of p_state p_reactions]; proj;
    rewrite ?upd_tasks, ?upd_own, ?upd_values, ?upd_remaining;
    repeat split; try done.
  - rewrite list_fmap_insert. cbn [p_state]. apply list_insert_id.
    rewrite list_lookup_fmap, Hi. reflexivity.
  - apply length_insert.
Qed.

Lemma positions_from_lt (start i : nat) (arr : list nat) :
  Forall (λ idx, idx < start + length arr) (positions_from start i arr).
Proof.
  revert start. induction arr as [|j arr IH]; intros start; [constructor|].
  cbn [positions_from length]. apply Forall_app. split.
  - destruct (Nat.eqb j i); constructor; [lia | constructor].
  - eapply Forall_impl; [apply IH|]. intros idx. cbn. lia.
Qed.

Lemma el_loop_spec (arr : list nat) :
  ∀ start s,
    Forall (λ i, i < length (tasks s)) arr → 2 ≤ length (own s) →
    start + length arr ≤ N →
    ∃ s' qs,
      el_loop upd onF A start arr s = (Normal VUndef, s') ∧
      tbl s' = tbl s ∧
      queue s' = queue s ++ qs ∧ el_queue (tagged_at_call start arr (tbl s)) qs ∧
      all_values s' = Nat.iter (length arr) fv (all_values s) ∧
      all_remaining s' = Nat.iter (length arr) fr (all_remaining s) ∧
      (∀ k, k < length (own s) → own s' !! k = own s !! k) ∧
      (∀ k, length (own s) ≤ k → no_reactions (own s') k) ∧
      (∀ i p, tasks s !! i = Some p → p_state p = Pending →
         ∃ rs, el_reactions (positions_from start i arr) rs ∧
               tasks s' !! i = Some (Promise Pending (p_reactions p ++ rs))).
Proof.
  induction arr as [|i rest IH]; intros start s Hwf Hown HN.
  - exists s, []. cbn [el_loop]. rewrite app_nil_r.
    repeat split; try done; try constructor.
    + intros k Hk p Hp. apply lookup_lt_Some in Hp. lia.
    + intros i [st rs] Hi Hst. simpl in Hst. subst st. exists [].
      split; [constructor | by rewrite app_nil_r].
  - apply Forall_cons in Hwf as [Hi Hwf]. cbn [length] in HN.
    destruct (lookup_lt_is_Some_2 _ _ Hi) as [p Hp].
    rewrite (el_entry_step start i p rest s Hp).
    destruct (el_entry_facts start i p s Hp) as (Htbl & Hlen & Ho & Hv & Hr).
    destruct (IH (S start) (el_entry start i p s))
      as (s' & qs & -> & Htbl' & Hq' & Hobs & Hv' & Hr' & Hold & Hnew & Htasks).
    { by rewrite Hlen. }
    { rewrite Ho, length_app. lia. }
    { lia. }
    rewrite Ho, length_app in Hold, Hnew. cbn [length] in Hold, Hnew.
    assert (tbl s !! i = Some (p_state p)) as Hti.
    { unfold tbl. by rewrite list_lookup_fmap, Hp. }
    exists s'.
    exists (from_option (λ o, [el_job (start, o) (length (own s))]) []
              (outcome_of (p_state p)) ++ qs).
    rewrite Htbl', Htbl, Hv', Hv, Hr', Hr. rewrite Htbl in Hobs.
    cbn [tagged_at_call]. rewrite Hti. cbn [mbind option_bind length].
    rewrite <- !Nat.iter_succ_r.
    split; [done|]. split; [done|]. split.
    { rewrite Hq'. unfold el_entry.
      destruct (outcome_of (p_state p)); proj; rewrite upd_queue; by rewrite <- ?app_assoc. }
    split.
    { destruct (outcome_of (p_state p)) as [o|]; [|done].
      cbn [from_option app]. apply (el_queue_cons (start, o)); [lia | cbn; lia | done]. }
    do 2 (split; [done|]). split.
    { intros k Hk. rewrite Hold by lia. by apply lookup_app_l. }
    split.
    { intros k Hk. destruct (decide (k < length (own s) + 1)) as [Hk2|Hk2].
      - intros q. rewrite Hold by done.
        rewrite lookup_app_r by done.
        destruct (k - length (own s)) as [|?]; simpl; [by intros [= <-] | done].
      - apply Hnew. lia. }
    intros i' p' Hp' Hst'. destruct (decide (i' = i)) as [->|Hne].
    + rewrite Hp in Hp'. injection Hp' as <-.
      destruct (Htasks i (Promise Pending
        (p_reactions p ++ [el_reaction start (length (own s))])))
        as (rs & Hrs & Hlook).
      { unfold el_entry. rewrite Hst'. cbn [outcome_of]. proj. rewrite upd_tasks.
        apply list_lookup_insert_eq. by eapply lookup_lt_Some. }
      { done. }
      exists (el_reaction start (length (own s)) :: rs).
      split.
      * cbn [positions_from]. rewrite Nat.eqb_refl. cbn [app].
        apply el_reactions_cons; [lia | lia | done].
      * rewrite Hlook. cbn [p_reactions]. by rewrite <- app_assoc.
    + destruct (Htasks i' p') as (rs & Hrs & Hlook); [|done|].
      { unfold el_entry. destruct (outcome_of (p_state p)); proj;
          rewrite upd_tasks; [done|]. by rewrite list_lookup_insert_ne. }
      exists rs. split; [|done]. cbn [positions_from].
      destruct (Nat.eqb_spec i i'); [congruence | done].
Qed.

End Loop.

(** *** Draining, against an abstract account of the aggregate

    [x] is what the aggregate has made of the observations so far,
    [aout x] the outcome it has settled with, if any. *)

Section Drain.

Variable X : Type.

Variable astep : X → nat * outcome → X.

Variable aout : X → option outcome.

Variable rep : X → state → Prop.

Hypothesis rep_ext : ∀ x s s',
  all_values s' = all_values s → all_remaining s' = all_remaining s →
  rep x s → rep x s'.

Hypothesis job_step : ∀ x io s,
  io.1 < N → rep x s →
  ∃ s1, tasks s1 = tasks s ∧ own s1 = own s ∧ queue s1 = queue s ∧
        rep (astep x io) s1 ∧
        ((call action (el_handler io) (outcome_val io.2) s = (Normal VUndef, s1)
          ∧ aout (astep x io) = aout x)
         ∨ ∃ rej v,
             call action (el_handler io) (outcome_val io.2) s
             = (Normal VUndef, settle A rej v s1)
             ∧ aout (astep x io) = Some (default (mk_outcome rej v) (aout x))).

Local Abbreviation el_inv := (el_inv array onF X aout rep).
Local Abbreviation ei_queue := (ei_queue array onF X aout rep).
Local Abbreviation ei_range := (ei_range array onF X aout rep).
Local Abbreviation ei_tasks := (ei_tasks array onF X aout rep).
Local Abbreviation ei_frame := (ei_frame array onF X aout rep).
Local Abbreviation ei_rep := (ei_rep array onF X aout rep).
Local Abbreviation ei_link := (ei_link array onF X aout rep).

Lemma drain_elements (os : list (nat * outcome)) (q : list job) :
  el_queue os q →
  ∀ s x tail,
    queue s = q ++ tail → link s (aout x) tail → frame2 s → rep x s →
    let s' := run_microtasks action s in
    let x' := fold_left astep os x in
    tasks s' = tasks s ∧ queue s' = [] ∧ frame2 s' ∧ rep x' s' ∧
    link s' (aout x') [].
Proof.
  induction 1 as [|io os q k Hk Hidx Hq IH]; intros s x tail Hqs Hl Hf Hrep; cbn zeta.
  - cbn [app] in Hqs. destruct (wrap_run action s _ _ Hl Hqs Hf)
      as (Hl' & Hq' & Ht' & Hf' & Hv' & Hr').
    cbn [fold_left]. repeat split; try done. by eapply rep_ext.
  - cbn [app] in Hqs. rewrite (run_microtasks_cons _ _ _ _ Hqs). cbn [fold_left].
    set (s0 := set_queue (λ _, q ++ tail) s).
    assert (rep x s0) as Hrep0 by (by eapply rep_ext; [| |exact Hrep]).
    destruct (job_step x io s0 Hidx Hrep0) as (s1 & Ht1 & Ho1 & Hq1 & Hrep1 & Hcall).
    assert (run_job action (el_job io k) s0
            = resolve_fn (Own k) VUndef
                (call action (el_handler io) (outcome_val io.2) s0).2) as Hrun.
    { unfold run_job, el_job, el_handler in *.
      destruct io as [idx [v|e]];
        cbn [fst snd outcome_rej outcome_val job_of el_reaction
             j_handler j_rej j_arg j_cap r_ful r_rej r_cap] in *;
        by destruct Hcall as [[-> _]|(rej & w & -> & _)]. }
    rewrite Hrun. clear Hrun.
    destruct Hcall as [[-> Ha]|(rej & w & -> & Ha)]; cbn [snd].
    + unfold resolve_fn. rewrite settle_silent by (rewrite Ho1; by apply Hf).
      destruct (IH (settle_in (Own k) false VUndef s1) (astep x io) tail)
        as (Ht' & Hq' & Hf' & Hrep' & Hl').
      { proj. by rewrite Hq1. }
      { rewrite Ha. eapply link_ext; [| |exact Hl]; proj; rewrite Ho1;
          by rewrite list_lookup_alter_ne by lia. }
      { intros j Hj. proj. rewrite Ho1. apply no_reactions_alter. by apply Hf. }
      { by eapply rep_ext; [| |exact Hrep1]. }
      rewrite Ht'. proj. rewrite Ht1. done.
    + destruct (settle_agg s1 (aout x) q tail rej w)
        as (tail' & Hl2 & Hq2 & Ht2 & Hv2 & Hr2 & Ho2).
      { eapply link_ext; [| |exact Hl]; by rewrite Ho1. }
      { by rewrite Hq1. }
      unfold resolve_fn.
      rewrite settle_silent
        by (intros p; rewrite Ho2 by done; rewrite Ho1; by apply Hf).
      destruct (IH (settle_in (Own k) false VUndef (settle A rej w s1))
                  (astep x io) tail')
        as (Ht' & Hq' & Hf' & Hrep' & Hl').
      { proj. done. }
      { rewrite Ha. eapply link_ext; [| |exact Hl2]; proj;
          by rewrite list_lookup_alter_ne by lia. }
      { intros j Hj. proj. apply no_reactions_alter.
        intros p. rewrite Ho2 by done. rewrite Ho1. by apply Hf. }
      { eapply rep_ext; [| |exact Hrep1]; proj; done. }
      rewrite Ht'. proj. rewrite Ht2, Ht1. done.
Qed.

Lemma el_event (x : X) (s : state) (e : event) :
  el_inv x s →
  el_inv (fold_left astep
            match tbl s !! e.1 with
            | Some Pending => map (λ idx, (idx, e.2)) (positions_from 0 e.1 array)
            | _ => []
            end x) (fire action s e)
  ∧ tbl (fire action s e) = settle_tbl (tbl s) e.
Proof.
  intros Hinv. destruct e as [i o]. cbn [fst snd]. unfold fire.
  rewrite settle_task_eq.
  destruct (tasks s !! i) as [[st rs]|] eqn:Hi.
  2: { assert (tbl s !! i = None) as Ht by (unfold tbl; by rewrite list_lookup_fmap, Hi).
       unfold settle, settle_tbl. cbn [get fst]. rewrite Hi, Ht.
       rewrite run_microtasks_nil by apply Hinv. done. }
  assert (tbl s !! i = Some st) as Ht by (unfold tbl; by rewrite list_lookup_fmap, Hi).
  rewrite Ht.
  destruct st as [|v|w].
  2, 3: unfold settle, settle_tbl; cbn [get fst]; rewrite Hi, Ht;
    rewrite run_microtasks_nil by apply Hinv; done.
  rewrite settle_eq. rewrite <- tbl_settle_in.
  assert (pending_reactions (Task i) s = rs) as ->.
  { unfold pending_reactions. cbn [get]. by rewrite Hi. }
  pose proof (ei_tasks _ _ Hinv i _ Hi eq_refl) as Hrs. cbn [p_reactions] in Hrs.
  set (s1 := enqueue _ _).
  assert (tasks s1 = alter (settled_cell (outcome_rej o) (outcome_val o)) i (tasks s))
    as Et by reflexivity.
  assert (queue s1 = queue s ++ map (job_of (outcome_rej o) (outcome_val o)) rs)
    as Eq by reflexivity.
  assert (all_values s1 = all_values s) as Ev by reflexivity.
  assert (all_remaining s1 = all_remaining s) as Er by reflexivity.
  assert (own s1 = own s) as Eo by reflexivity.
  assert (tbl s1 = tbl (settle_in (Task i) (outcome_rej o) (outcome_val o) s))
    as Etb by reflexivity.
  rewrite <- Etb. clearbody s1.
  rewrite (ei_queue _ _ Hinv) in Eq. cbn [app] in Eq.
  destruct (drain_elements _ _ (el_reactions_jobs _ _ o Hrs) s1 x [])
    as (Ht' & Hq' & Hf' & Hrep' & Hl').
  { by rewrite app_nil_r. }
  { eapply link_ext; [| |apply (ei_link _ _ Hinv)]; by rewrite Eo. }
  { intros k Hk. rewrite Eo. by apply (ei_frame _ _ Hinv). }
  { eapply rep_ext; [| |apply (ei_rep _ _ Hinv)]; done. }
  split; [|unfold tbl; by rewrite Ht'].
  split; try done.
  - rewrite Ht', Et, length_alter. apply Hinv.
  - intros j p. rewrite Ht', Et. destruct (decide (i = j)) as [<-|Hne].
    + rewrite list_lookup_alter_eq, Hi. cbn. intros [= <-]. by destruct o.
    + rewrite list_lookup_alter_ne by done. apply (ei_tasks _ _ Hinv).
Qed.

Lemma el_post (post : list event) :
  ∀ x s,
    el_inv x s →
    el_inv (fold_left astep (tagged_after array (tbl s) post) x)
           (fold_left (fire action) post s)
    ∧ tbl (fold_left (fire action) post s) = fold_left settle_tbl post (tbl s).
Proof.
  induction post as [|e post IH]; intros x s Hinv; [done|].
  cbn [fold_left tagged_after].
  destruct (el_event x s e Hinv) as [Hinv' Htbl].
  assert (settle_tbl (tbl s) e = tbl s ∨ tbl s !! e.1 = Some Pending) as Hcase.
  { unfold settle_tbl. destruct (tbl s !! e.1) as [[| |]|]; auto. }
  destruct (IH _ _ Hinv') as [Hinv'' Htbl'']. rewrite Htbl in Hinv'', Htbl''.
  split; [|done].
  destruct (tbl s !! e.1) as [[| |]|] eqn:He; cbn [fold_left] in Hinv'';
    rewrite ?fold_left_app; try done;
    destruct Hcase as [Hc|Hc]; try done; by rewrite Hc in Hinv''.
Qed.

End Drain.

End Elements.

(** The executor of lines 56-60 and 83-87, run when the aggregate has
    no reaction yet. *)
Lemma wrap_spec (s : state) (a : option outcome) :
  own s !! 0 = Some (Promise Pending []) →
  own s !! 1 = Some (Promise (from_option outcome_state Pending a) []) →
  frame2 s →
  let s' := wrap (Own 0) (Own 1) s in
  ∃ tail,
    queue s' = queue s ++ tail ∧ link s' a tail ∧ frame2 s' ∧
    tasks s' = tasks s ∧ all_values s' = all_values s ∧
    all_remaining s' = all_remaining s.
Proof.
  intros H0 H1 Hf. cbn zeta.
  assert (2 ≤ length (own s)) as Hlen.
  { apply lookup_lt_Some in H1. lia. }
  assert (∀ h : list promise, length h = length (own s) →
          ∀ k, 2 ≤ k → (∀ j, j < length (own s) → h !! j = own s !! j ∨ j < 2) →
          no_reactions (h ++ [Promise Pending []; Promise Pending []]) k) as Hnew.
  { intros h Hh k Hk Hsame p.
    destruct (decide (k < length h)) as [Hlt|Hge].
    - rewrite lookup_app_l by done. destruct (Hsame k) as [->|?]; [lia | by apply Hf | lia].
    - rewrite lookup_app_r by lia.
      destruct (k - length h) as [|[|?]]; simpl; [by intros [= <-] .. | done]. }
  destruct a as [[v|e]|];
    cbn [from_option outcome_state new_state outcome_rej outcome_val] in H1;
    unfold wrap, catch_, then_; cbn [get]; rewrite H1;
    cbn [alloc p_state p_reactions put]; proj.
  - rewrite lookup_app_l by lia. rewrite H1. cbn [p_state]. proj.
    exists (wrap_jobs (Success v) (length (own s)) (S (length (own s)))).
    rewrite length_app, Nat.add_1_r, <- !app_assoc.
    repeat split; try done.
    + apply link_queued; [lia | lia | |]; proj;
        rewrite <- app_assoc; by apply lookup_app_l_Some.
    + intros k Hk. proj. rewrite <- app_assoc. apply Hnew; auto.
  - rewrite lookup_app_l by lia. rewrite H1. cbn [p_state]. proj.
    exists (wrap_jobs (Failure e) (length (own s)) (S (length (own s)))).
    rewrite length_app, Nat.add_1_r, <- !app_assoc.
    repeat split; try done.
    + apply link_queued; [lia | lia | |]; proj;
        rewrite <- app_assoc; by apply lookup_app_l_Some.
    + intros k Hk. proj. rewrite <- app_assoc. apply Hnew; auto.
  - rewrite list_lookup_insert_eq by (rewrite length_app; simpl; lia).
    cbn [p_state p_reactions app]. proj.
    exists []. rewrite app_nil_r, length_insert, length_app, Nat.add_1_r.
    repeat split; try done.
    + apply (link_pending _ (length (own s)) (S (length (own s)))); [lia | lia | |]; proj.
      * by rewrite list_lookup_insert_eq
          by (rewrite length_app, length_insert, length_app; simpl; lia).
      * rewrite list_lookup_insert_ne by lia.
        rewrite lookup_app_l by (rewrite length_insert, length_app; simpl; lia).
        rewrite list_lookup_insert_ne by lia. by apply lookup_app_l_Some.
    + intros k Hk p. proj. rewrite list_lookup_insert_ne by lia.
      destruct (decide (k < length (own s) + 1)) as [Hlt|Hge].
      * rewrite lookup_app_l by (rewrite length_insert, length_app; simpl; lia).
        rewrite list_lookup_insert_ne by lia.
        destruct (decide (k < length (own s))) as [Hlt'|Hge'].
        -- rewrite lookup_app_l by done. by apply Hf.
        -- rewrite lookup_app_r by lia.
           destruct (k - length (own s)) as [|?]; simpl; [by intros [= <-] | done].
      * rewrite lookup_app_r by (rewrite length_insert, length_app; simpl; lia).
        destruct (k - _) as [|?]; simpl; [by intros [= <-] | done].
Qed.

(** ** [Promise.race] behind [getFastestPromise] *)

Lemma race_fold (os : list (nat * outcome)) (x : option outcome) :
  fold_left race_step os x
  = match x with Some o => Some o | None => head (map snd os) end.
Proof.
  revert x. induction os as [|io os IH]; intros x; [by destruct x|].
  cbn [fold_left]. rewrite IH. by destruct x.
Qed.

Lemma mk_outcome_eta (o : outcome) :
  mk_outcome (outcome_rej o) (outcome_val o) = o.
Proof. by destruct o. Qed.

Section RaceFacts.

Variable action : value → value → nat → list value → completion.

Variable array : list nat.

Local Abbreviation race_inv :=
  (el_inv array (λ _, HResolveFn (Own 1)) (option outcome) (λ x, x) (λ _ _, True)).

Lemma race_job_step (x : option outcome) (io : nat * outcome) (s : state) :
  io.1 < length array → True →
  ∃ s1, tasks s1 = tasks s ∧ own s1 = own s ∧ queue s1 = queue s ∧ True ∧
        ((call action (el_handler (λ _, HResolveFn (Own 1)) io) (outcome_val io.2) s
          = (Normal VUndef, s1)
          ∧ race_step x io = x)
         ∨ ∃ rej v,
             call action (el_handler (λ _, HResolveFn (Own 1)) io) (outcome_val io.2) s
             = (Normal VUndef, settle (Own 1) rej v s1)
             ∧ race_step x io = Some (default (mk_outcome rej v) x)).
Proof.
  intros _ _. exists s. repeat split; try done. right.
  exists (outcome_rej io.2), (outcome_val io.2). rewrite mk_outcome_eta.
  split; [|by destruct x].
  unfold el_handler. by destruct io as [idx [v|e]].
Qed.

Lemma race_call (s0 : state) :
  clean s0 → Forall (λ i, i < length (tasks s0)) array →
  let r := getFastestPromise array s0 in
  r.1.1 = Own 0 ∧ r.1.2 = Own 1 ∧
  tbl (run_microtasks action r.2) = tbl s0 ∧
  race_inv (fold_left race_step (tagged_at_call 0 array (tbl s0)) None)
           (run_microtasks action r.2).
Proof.
  intros [Ho Hq Hl Ht] Hwf. cbn zeta.
  unfold getFastestPromise, Promise_race, alloc. rewrite Ho. cbn [length]. proj.
  rewrite Ho. cbn [app length]. rewrite (race_loop_el _ _ 0) by exact Hwf.
  match goal with |- context [el_loop _ _ _ _ _ ?s3] =>
    destruct (el_loop_spec array (λ _, HResolveFn (Own 1)) (λ s, s) (λ l, l) (λ n, n)
                ltac:(done) ltac:(done) ltac:(done) ltac:(done) ltac:(done) array 0 s3)
      as (s' & qs & -> & Htbl & Hq' & Hobs & _ & _ & Hold & Hnew & Htasks)
  end.
  { exact Hwf. } { proj. rewrite Ho. simpl. lia. } { simpl. lia. }
  change (tbl (set_own _ (set_own _ s0))) with (tbl s0) in *.
  proj. rewrite Ho in Hold, Hnew. cbn [app length] in Hold, Hnew.
  destruct (wrap_spec s' None) as (tail & Hqw & Hlw & Hfw & Htw & _).
  { by rewrite Hold by lia. } { by rewrite Hold by lia. } { exact Hnew. }
  inversion Hlw as [k1 k2 Hk1 Hk2 HA HP Ea Et| |]; subst tail.
  rewrite app_nil_r in Hqw. cbn [fst snd].
  destruct (drain_elements action array (λ _, HResolveFn (Own 1)) (option outcome)
              race_step (λ x, x) (λ _ _, True) ltac:(done) race_job_step
              _ _ Hobs (wrap (Own 0) (Own 1) s') None [])
    as (Ht' & Hq'' & Hf' & _ & Hl').
  { by rewrite Hqw, Hq', Hq, app_nil_r. } { exact Hlw. } { exact Hfw. } { done. }
  assert (tasks (run_microtasks action (wrap (Own 0) (Own 1) s')) = tasks s') as Ett
    by (by rewrite Ht', Htw).
  split; [done|]. split; [done|]. split.
  { unfold tbl. rewrite Ett. exact Htbl. }
  split; try done.
  - rewrite Ett. apply (f_equal length) in Htbl. unfold tbl in Htbl.
    rewrite !length_map in Htbl. by rewrite Htbl.
  - rewrite Ett. intros i p Hp Hst.
    assert (∃ p0, tasks s0 !! i = Some p0 ∧ p_state p0 = Pending) as (p0 & Hp0 & Hst0).
    { apply (f_equal (λ l, l !! i)) in Htbl. unfold tbl in Htbl.
      rewrite !list_lookup_fmap, Hp in Htbl.
      destruct (tasks s0 !! i) as [p0|]; [|done]. exists p0. split; [done|].
      simpl in Htbl. congruence. }
    destruct (Htasks i p0 Hp0 Hst0) as (rs & Hrs & Hlook).
    rewrite (Ht i p0 Hp0) in Hlook. rewrite Hp in Hlook. injection Hlook as ->. done.
Qed.

(** The whole run: both promises end in the state of the first outcome
    observed. *)
Lemma race_run (T : nat) (pre post : list event) :
  Forall (λ i, i < T) array →
  let r := run_race action T pre array post in
  r.1.1 = Own 0 ∧ r.1.2 = Own 1 ∧ queue r.2 = [] ∧
  link r.2 (head (seen T pre array post)) [].
Proof.
  intros Hwf. cbn zeta. unfold run_race.
  destruct (prelude_clean action T pre) as [Hclean Htbl].
  set (s0 := fold_left (fire action) pre (init T)) in *. clearbody s0.
  destruct (race_call s0 Hclean) as (Hp & Ha & Htbl1 & Hinv).
  { assert (length (tasks s0) = T) as ->; [|done].
    rewrite <- (table_length T pre), <- Htbl. unfold tbl. by rewrite length_map. }
  destruct (getFastestPromise array s0) as [[p a] s1]. cbn [fst snd] in *.
  destruct (el_post action array (λ _, HResolveFn (Own 1)) (option outcome)
              race_step (λ x, x) (λ _ _, True) ltac:(done) race_job_step post _ _ Hinv)
    as [Hinv' _].
  rewrite Htbl1, Htbl, <- fold_left_app in Hinv'.
  pose proof (ei_link _ _ _ _ _ _ _ Hinv') as Hl.
  change (tagged_at_call 0 array (table T pre) ++ tagged_after array (table T pre) post)
    with (tagged T pre array post) in Hl.
  rewrite race_fold, tagged_snd in Hl.
  repeat split; try done. apply Hinv'.
Qed.

End RaceFacts.

Lemma link_quiet (s : state) (a : option outcome) :
  link s a [] →
  state_of (Own 0) s = state_of (Own 1) s ∧
  state_of (Own 0) s = Some (from_option outcome_state Pending a).
Proof.
  unfold state_of. cbn [get].
  intros Hl. remember [] as tail eqn:Et.
  destruct Hl as [k1 k2 ? ? H1 H0|o k1 k2 ? ? H1 H0|o H1 H0];
    [| discriminate Et |]; by rewrite H0, H1.
Qed.

(** C9 (as amended).  The promise returned by [getFastestPromise]
    settles as [Promise.race(array)] does, which is as the first entry
    whose settlement is observed: the first in input order among the
    entries already settled at the call, if there is one, and otherwise
    the first to settle; while nothing is observed both are pending.
    When every entry is pending at the call, that entry is the task
    that settles first. *)
Theorem fastest_follows_first_seen
    (action : value → value → nat → list value → completion) (T : nat)
    (pre post : list event) (array : list nat) :
  Forall (λ i, i < T) array →
  let r := run_race action T pre array post in
  state_of r.1.1 r.2 = state_of r.1.2 r.2 ∧
  state_of r.1.1 r.2
  = Some (from_option outcome_state Pending (head (seen T pre array post))) ∧
  (Forall (λ i, table T pre !! i = Some Pending) array →
   seen T pre array post = settlement_order T array (pre ++ post)).
Proof.
  intros Hwf. cbn zeta.
  destruct (race_run action array T pre post Hwf) as (-> & -> & _ & Hl).
  destruct (link_quiet _ _ Hl) as [H1 H2].
  split; [done|]. split; [done|]. apply seen_settlement_order.
Qed.

Lemma fastest_follows_first_seen_witness :
  let r := run_race (binop js_add) 2 [] [0; 1]
             [(1, Failure (VStr "x")); (0, Success (VNum 1))] in
  state_of r.1.1 r.2 = state_of r.1.2 r.2 ∧
  state_of r.1.1 r.2
  = Some (from_option outcome_state Pending
            (head (seen 2 [] [0; 1] [(1, Failure (VStr "x")); (0, Success (VNum 1))]))) ∧
  (Forall (λ i, table 2 [] !! i = Some Pending) [0; 1] →
   seen 2 [] [0; 1] [(1, Failure (VStr "x")); (0, Success (VNum 1))]
   = settlement_order 2 [0; 1] ([] ++ [(1, Failure (VStr "x")); (0, Success (VNum 1))])).
Proof.
  apply (fastest_follows_first_seen (binop js_add) 2). repeat constructor.
Defined.

(** C9 as stated fails: of two tasks settled before the call, the one
    that settled first loses to the one that comes first in the
    array. *)
Lemma fastest_counterexample :
  let pre := [(1, Success (VNum 2)); (0, Failure (VStr "x"))] in
  let r := run_race (binop js_add) 2 pre [0; 1] [] in
  head (settlement_order 2 [0; 1] (pre ++ [])) = Some (Success (VNum 2)) ∧
  state_of (Task 1) r.2 = Some (Fulfilled (VNum 2)) ∧
  state_of r.1.1 r.2 = Some (Rejected (VStr "x")) ∧
  state_of r.1.1 r.2 ≠ state_of (Task 1) r.2.
Proof.
  cbn zeta. split; [reflexivity|]. split; [vm_compute; reflexivity|].
  split; [vm_compute; reflexivity|]. vm_compute. discriminate.
Qed.

(** ** [Promise.all] behind [processAllPromises] *)

Lemma count_none_replicate (n : nat) : count_none (replicate n None) = n.
Proof. induction n as [|n IH]; [done|]. cbn. by rewrite IH. Qed.

Lemma count_none_insert (l : list (option value)) (i : nat) (v : value) :
  l !! i = Some None → count_none (<[i:=Some v]> l) = pred (count_none l).
Proof.
  revert i. induction l as [|[w|] l IH]; intros [|i] Hi; simplify_eq/=; try done.
  - by apply IH.
  - rewrite (IH _ Hi). destruct l as [|? ?]; [done|].
    assert (0 < count_none (o :: l)); [|lia].
    clear IH. revert i Hi. generalize (o :: l). intros l'.
    induction l' as [|[w|] l' IH]; intros [|i] Hi; simplify_eq/=; try lia. eauto.
Qed.

Lemma count_none_zero (l : list (option value)) (i : nat) :
  count_none l = 0 → i < length l → ∃ v, l !! i = Some (Some v).
Proof.
  revert i. induction l as [|[w|] l IH]; intros [|i] H0 Hi; simplify_eq/=; try lia.
  - by eexists.
  - apply IH; [done | lia].
Qed.

Lemma count_none_pos (l : list (option value)) :
  0 < count_none l → ∃ i, l !! i = Some None.
Proof.
  induction l as [|[w|] l IH]; cbn; intros H; [lia| |by exists 0].
  destruct (IH H) as [i Hi]. by exists (S i).
Qed.

Lemma failures_app (os os' : list outcome) :
  failures (os ++ os') = failures os ++ failures os'.
Proof. apply omap_app. Qed.

Lemma all_account_step (n : nat) (os : list (nat * outcome))
    (x : list (option value) * option outcome) (io : nat * outcome) :
  all_account n os x → all_account n (os ++ [io]) (all_step x io).
Proof.
  intros [Hlen Hfill Hseen Hnone Hfail Hdone].
  destruct x as [vals res], io as [idx [v|e]]; unfold all_step; cbn [fst snd] in *.
  - destruct (vals !! idx) as [[w|]|] eqn:Hidx.
    + split; cbn [fst snd]; try done.
      * intros i u Hi. apply elem_of_app. left. eauto.
      * intros i u Hin Hi. apply elem_of_app in Hin as [Hin|Hin]; [eauto|].
        apply list_elem_of_singleton in Hin. injection Hin as -> ->. eauto.
      * intros ->. rewrite map_app, failures_app. cbn. rewrite app_nil_r. auto.
      * intros e ->. rewrite map_app, failures_app. cbn. rewrite app_nil_r. auto.
    + assert (idx < length vals) as Hlt by (by eapply lookup_lt_Some).
      split; cbn [fst snd].
      * by rewrite length_insert.
      * intros i u. destruct (decide (i = idx)) as [->|Hne].
        -- rewrite list_lookup_insert_eq by done. intros [= <-].
           apply elem_of_app. right. by apply list_elem_of_singleton.
        -- rewrite list_lookup_insert_ne by done. intros Hi.
           apply elem_of_app. left. eauto.
      * intros i u Hin Hi. destruct (decide (i = idx)) as [->|Hne].
        -- rewrite list_lookup_insert_eq by done. eauto.
        -- rewrite list_lookup_insert_ne by done.
           apply elem_of_app in Hin as [Hin|Hin]; [eauto|].
           apply list_elem_of_singleton in Hin. congruence.
      * rewrite map_app, failures_app. cbn. rewrite app_nil_r.
        destruct res as [o|]; [done|].
        destruct (Nat.eqb_spec (count_none (<[idx:=Some v]> vals)) 0); [done|].
        intros _. split; [by apply Hnone | lia].
      * intros e. rewrite map_app, failures_app. cbn. rewrite app_nil_r.
        destruct res as [o|]; [intros [= ->]; auto|].
        by destruct (Nat.eqb (count_none (<[idx:=Some v]> vals)) 0).
      * intros y. destruct res as [o|].
        -- intros [= ->]. destruct (Hdone _ eq_refl) as [_ H0].
           destruct (count_none_zero _ idx H0 Hlt) as [u Hu]. congruence.
        -- destruct (Nat.eqb_spec (count_none (<[idx:=Some v]> vals)) 0); [|done].
           by intros [= <-].
    + split; cbn [fst snd].
      * by rewrite length_insert.
      * intros i u. rewrite list_insert_ge by (by apply lookup_ge_None).
        intros Hi. apply elem_of_app. left. eauto.
      * intros i u Hin Hi. rewrite list_insert_ge by (by apply lookup_ge_None).
        apply elem_of_app in Hin as [Hin|Hin]; [eauto|].
        apply list_elem_of_singleton in Hin. injection Hin as -> ->.
        apply lookup_ge_None in Hidx. lia.
      * rewrite list_insert_ge by (by apply lookup_ge_None).
        rewrite map_app, failures_app. cbn. rewrite app_nil_r.
        destruct res as [o|]; [done|].
        destruct (Nat.eqb_spec (count_none vals) 0); [done|]. auto.
      * intros e. rewrite list_insert_ge by (by apply lookup_ge_None).
        rewrite map_app, failures_app. cbn. rewrite app_nil_r.
        destruct res as [o|]; [intros [= ->]; auto|].
        by destruct (Nat.eqb (count_none vals) 0).
      * intros y. rewrite list_insert_ge by (by apply lookup_ge_None).
        destruct res as [o|]; [intros [= ->]; auto|].
        destruct (Nat.eqb_spec (count_none vals) 0); [|done]. by intros [= <-].
  - split; cbn [fst snd]; try done.
    + intros i u Hi. apply elem_of_app. left. eauto.
    + intros i u Hin Hi. apply elem_of_app in Hin as [Hin|Hin]; [eauto|].
      apply list_elem_of_singleton in Hin. discriminate.
    + intros e'. rewrite map_app, failures_app. cbn.
      destruct res as [[u|e'']|]; cbn [default]; intros [= <-].
      * destruct (failures (map snd os)) eqn:Ef; [|by apply Hfail].
        by specialize (Hfail _ eq_refl).
      * destruct (Hnone eq_refl) as [-> _]. done.
    + intros y. destruct res as [[u|e'']|]; cbn [default]; [|done..].
      intros [= ->]. auto.
Qed.

Lemma all_account_fold (n : nat) (os : list (nat * outcome)) :
  0 < n → all_account n os (fold_left all_step os (all_start n)).
Proof.
  intros Hn. induction os as [|io os IH] using rev_ind.
  - unfold all_start. destruct (Nat.eqb_spec n 0) as [?|_]; [lia|].
    split; cbn [fold_left fst snd].
    + apply length_replicate.
    + intros idx v Hi. apply lookup_replicate in Hi as [[=] _].
    + intros idx v Hin. by apply elem_of_nil in Hin.
    + intros _. rewrite count_none_replicate. done.
    + done.
    + done.
  - rewrite fold_left_app. cbn [fold_left]. by apply all_account_step.
Qed.

Section AllFacts.

Variable action : value → value → nat → list value → completion.

Variable array : list nat.

Local Abbreviation N := (length array).

Local Abbreviation onAll := (λ idx, HAllElement idx (Own 1)).

Local Abbreviation all_inv :=
  (el_inv array onAll (list (option value) * option outcome) snd (all_rep N)).

Lemma all_rep_ext (x : list (option value) * option outcome) (s s' : state) :
  all_values s' = all_values s → all_remaining s' = all_remaining s →
  all_rep N x s → all_rep N x s'.
Proof. intros Hv Hr (? & ? & ?). unfold all_rep. by rewrite Hv, Hr. Qed.

Lemma all_job_step (x : list (option value) * option outcome)
    (io : nat * outcome) (s : state) :
  io.1 < N → all_rep N x s →
  ∃ s1, tasks s1 = tasks s ∧ own s1 = own s ∧ queue s1 = queue s ∧
        all_rep N (all_step x io) s1 ∧
        ((call action (el_handler onAll io) (outcome_val io.2) s = (Normal VUndef, s1)
          ∧ (all_step x io).2 = x.2)
         ∨ ∃ rej v,
             call action (el_handler onAll io) (outcome_val io.2) s
             = (Normal VUndef, settle (Own 1) rej v s1)
             ∧ (all_step x io).2 = Some (default (mk_outcome rej v) x.2)).
Proof.
  intros Hidx (Hv & Hr & Hlen).
  destruct x as [vals res], io as [idx [v|e]];
    unfold el_handler, all_step; cbn [fst snd outcome_val call] in *.
  - rewrite Hv. destruct (vals !! idx) as [[w|]|] eqn:Hi.
    + exists s. repeat split; try done. by left.
    + set (s2 := set_all_remaining pred
                   (set_all_values (λ l, <[idx:=Some v]> l) s)).
      assert (all_remaining s2 = count_none (<[idx:=Some v]> vals)) as Hr2.
      { unfold s2. proj. by rewrite Hr, count_none_insert. }
      assert (all_values s2 = <[idx:=Some v]> vals) as Hv2.
      { unfold s2. proj. by rewrite Hv. }
      exists s2. split; [done|]. split; [done|]. split; [done|]. split.
      { split; [done|]. split; [done|]. cbn [fst]. by rewrite length_insert. }
      cbn [snd]. rewrite Hr2, Hv2.
      destruct (Nat.eqb (count_none (<[idx:=Some v]> vals)) 0).
      * right. exists false, (values_array (<[idx:=Some v]> vals)).
        split; [done|]. by destruct res.
      * left. split; [done|]. by destruct res.
    + apply lookup_ge_None in Hi. lia.
  - exists s. repeat split; try done. right. by exists true, e.
Qed.

Lemma all_iter_values (n : nat) (l : list (option value)) :
  Nat.iter n (λ l, l ++ [None]) l = l ++ replicate n None.
Proof.
  induction n as [|n IH]; [cbn; by rewrite app_nil_r|].
  rewrite Nat.iter_succ, IH, <- app_assoc. f_equal.
  clear IH. induction n as [|n IH]; [done|]. cbn. by rewrite IH.
Qed.

Lemma all_iter_remaining (n r : nat) : Nat.iter n S r = n + r.
Proof.
  induction n as [|n IH]; [done|]. rewrite Nat.iter_succ, IH. lia.
Qed.

Lemma all_call (s0 : state) :
  clean s0 → Forall (λ i, i < length (tasks s0)) array →
  let r := processAllPromises array s0 in
  r.1.1 = Own 0 ∧ r.1.2 = Own 1 ∧
  tbl (run_microtasks action r.2) = tbl s0 ∧
  all_inv (fold_left all_step (tagged_at_call 0 array (tbl s0)) (all_start N))
          (run_microtasks action r.2).
Proof.
  intros [Ho Hq Hl Ht] Hwf. cbn zeta.
  unfold processAllPromises, Promise_all, alloc. rewrite Ho. cbn [length]. proj.
  rewrite Ho. cbn [app length]. rewrite all_loop_el by exact Hwf.
  match goal with |- context [el_loop _ _ _ _ _ ?s3] =>
    destruct (el_loop_spec array onAll
                (λ s, set_all_remaining S (set_all_values (λ l, l ++ [None]) s))
                (λ l, l ++ [None]) S
                ltac:(done) ltac:(done) ltac:(done) ltac:(done) ltac:(done) array 0 s3)
      as (s' & qs & -> & Htbl & Hq' & Hobs & Hv & Hr & Hold & Hnew & Htasks)
  end.
  { exact Hwf. } { proj. rewrite Ho. simpl. lia. } { simpl. lia. }
  change (tbl (set_all_remaining _ (set_all_values _ (set_own _ (set_own _ s0)))))
    with (tbl s0) in *.
  proj. rewrite Ho in Hold, Hnew. cbn [app length] in Hold, Hnew.
  rewrite all_iter_values in Hv. rewrite all_iter_remaining in Hr.
  cbn [app] in Hv. rewrite Hq in Hq'. cbn [app] in Hq'.
  rewrite Hr. replace (pred (N + 1)) with N by lia.
  set (s4 := set_all_remaining pred s').
  assert (own s4 !! 0 = Some (Promise Pending [])) as H0
    by (unfold s4; proj; by rewrite Hold by lia).
  assert (own s4 !! 1 = Some (Promise Pending [])) as H1
    by (unfold s4; proj; by rewrite Hold by lia).
  assert (all_rep N (all_start N) s4) as Hrep.
  { unfold all_rep, all_start, s4. proj. rewrite Hv, Hr. cbn [fst].
    rewrite count_none_replicate, length_replicate. repeat split; lia. }
  set (s5 := if Nat.eqb N 0 then resolve_fn (Own 1) (values_array (all_values s')) s4
             else s4).
  assert (tasks s5 = tasks s' ∧ queue s5 = qs ∧ frame2 s5 ∧ all_rep N (all_start N) s5
          ∧ own s5 !! 0 = Some (Promise Pending [])
          ∧ own s5 !! 1
            = Some (Promise (from_option outcome_state Pending (all_start N).2) []))
    as (Ht5 & Hq5 & Hf5 & Hrep5 & H05 & H15).
  { unfold s5, all_start. cbn [snd]. destruct (Nat.eqb_spec N 0) as [E|E].
    - unfold resolve_fn.
      rewrite settle_silent by (intros p; rewrite H1; by intros [= <-]).
      proj. rewrite list_lookup_alter_ne by lia.
      rewrite list_lookup_alter_eq, H1, H0.
      split; [done|]. split; [done|]. split.
      { intros k Hk. proj. apply no_reactions_alter. by apply Hnew. }
      split.
      { by eapply all_rep_ext; [| |exact Hrep]. }
      split; [done|]. cbn. by rewrite Hv, E.
    - repeat split; try done; apply Hrep. }
  clearbody s5.
  destruct (wrap_spec s5 (all_start N).2 H05 H15 Hf5)
    as (tail & Hqw & Hlw & Hfw & Htw & Hvw & Hrw).
  cbn [fst snd].
  destruct (drain_elements action array onAll _ all_step snd (all_rep N)
              all_rep_ext all_job_step _ _ Hobs (wrap (Own 0) (Own 1) s5)
              (all_start N) tail)
    as (Ht' & Hq'' & Hf' & Hrep' & Hl').
  { by rewrite Hqw, Hq5. } { exact Hlw. } { exact Hfw. }
  { by eapply all_rep_ext; [| |exact Hrep5]. }
  assert (tasks (run_microtasks action (wrap (Own 0) (Own 1) s5)) = tasks s') as Ett
    by (by rewrite Ht', Htw, Ht5).
  split; [done|]. split; [done|]. split.
  { unfold tbl. rewrite Ett. exact Htbl. }
  split; try done.
  - rewrite Ett. apply (f_equal length) in Htbl. unfold tbl in Htbl.
    rewrite !length_map in Htbl. by rewrite Htbl.
  - rewrite Ett. intros i p Hp Hst.
    assert (∃ p0, tasks s0 !! i = Some p0 ∧ p_state p0 = Pending) as (p0 & Hp0 & Hst0).
    { apply (f_equal (λ l, l !! i)) in Htbl. unfold tbl in Htbl.
      rewrite !list_lookup_fmap, Hp in Htbl.
      destruct (tasks s0 !! i) as [p0|]; [|done]. exists p0. split; [done|].
      simpl in Htbl. congruence. }
    destruct (Htasks i p0 Hp0 Hst0) as (rs & Hrs & Hlook).
    rewrite (Ht i p0 Hp0) in Hlook. rewrite Hp in Hlook. injection Hlook as ->. done.
Qed.

End AllFacts.

(** ** The tagged observations against the final table *)

Lemma positions_from_spec (start i idx : nat) (arr : list nat) :
  idx ∈ positions_from start i arr ↔ ∃ k, idx = start + k ∧ arr !! k = Some i.
Proof.
  revert start. induction arr as [|j arr IH]; intros start; cbn [positions_from].
  - rewrite elem_of_nil. split; [done | by intros (k & _ & ?)].
  - rewrite elem_of_app, IH. split.
    + intros [Hin|(k & -> & Hk)].
      * destruct (Nat.eqb_spec j i) as [->|?]; [|by apply elem_of_nil in Hin].
        apply list_elem_of_singleton in Hin. subst. exists 0. split; [lia | done].
      * exists (S k). split; [lia | done].
    + intros ([|k] & -> & Hk).
      * left. injection Hk as ->. rewrite Nat.eqb_refl, Nat.add_0_r.
        by apply list_elem_of_singleton.
      * right. exists k. split; [lia | done].
Qed.

Lemma tagged_at_call_spec (start idx : nat) (o : outcome) (arr : list nat)
    (t : list pstate) :
  (idx, o) ∈ tagged_at_call start arr t
  ↔ ∃ k i, idx = start + k ∧ arr !! k = Some i ∧ t !! i ≫= outcome_of = Some o.
Proof.
  revert start. induction arr as [|j arr IH]; intros start; cbn [tagged_at_call].
  - rewrite elem_of_nil. split; [done | by intros (k & i & _ & ? & _)].
  - rewrite elem_of_app, IH. split.
    + intros [Hin|(k & i & -> & Hk & Ho)].
      * destruct (t !! j ≫= outcome_of) as [o'|] eqn:Ho; [|by apply elem_of_nil in Hin].
        apply list_elem_of_singleton in Hin. injection Hin as -> ->.
        exists 0, j. split; [lia | done].
      * exists (S k), i. split; [lia | done].
    + intros ([|k] & i & -> & Hk & Ho).
      * left. injection Hk as ->. rewrite Ho, Nat.add_0_r.
        by apply list_elem_of_singleton.
      * right. exists k, i. split; [lia | done].
Qed.

Lemma tagged_after_sound (arr : list nat) (post : list event) (idx : nat)
    (o : outcome) :
  ∀ t, (idx, o) ∈ tagged_after arr t post →
       ∃ i, arr !! idx = Some i
            ∧ fold_left settle_tbl post t !! i = Some (outcome_state o).
Proof.
  induction post as [|e post IH]; intros t; cbn [tagged_after fold_left].
  - by rewrite elem_of_nil.
  - assert (settle_tbl t e = t ∨ t !! e.1 = Some Pending) as Hcase.
    { unfold settle_tbl. destruct (t !! e.1) as [[| |]|]; auto. }
    destruct (t !! e.1) as [[| |]|] eqn:He;
      try (destruct Hcase as [->|?]; [apply IH | done]).
    rewrite elem_of_app. intros [Hin|Hin]; [|by apply IH].
    apply list_elem_of_fmap in Hin as (idx' & [= -> ->] & Hpos).
    apply positions_from_spec in Hpos as (k & -> & Hk). exists e.1.
    split; [done|]. apply fold_settle_keeps; [|apply outcome_state_settled].
    unfold settle_tbl. rewrite He. apply list_lookup_insert_eq. by eapply lookup_lt_Some.
Qed.

Lemma tagged_after_complete (arr : list nat) (post : list event) (idx i : nat)
    (st : pstate) :
  arr !! idx = Some i → settled st →
  ∀ t, t !! i = Some Pending → fold_left settle_tbl post t !! i = Some st →
       ∃ o, (idx, o) ∈ tagged_after arr t post ∧ outcome_state o = st.
Proof.
  intros Hidx Hst. induction post as [|e post IH]; intros t Hi Hfin;
    cbn [tagged_after fold_left] in *.
  - rewrite Hi in Hfin. injection Hfin as <-. done.
  - destruct (decide (e.1 = i)) as [E|E].
    + rewrite E, Hi.
      assert (settle_tbl t e !! i = Some (outcome_state e.2)) as Hs.
      { unfold settle_tbl. rewrite E, Hi. apply list_lookup_insert_eq.
        by eapply lookup_lt_Some. }
      rewrite (fold_settle_keeps post _ _ _ Hs (outcome_state_settled _)) in Hfin.
      injection Hfin as <-. exists e.2. split; [|done].
      apply elem_of_app. left. apply list_elem_of_fmap. exists idx. split; [done|].
      apply positions_from_spec. by exists idx.
    + assert (settle_tbl t e !! i = Some Pending) as Hs.
      { unfold settle_tbl. destruct (t !! e.1) as [[| |]|]; try done.
        by rewrite list_lookup_insert_ne. }
      destruct (IH _ Hs Hfin) as (o & Hin & Ho). exists o. split; [|done].
      assert (settle_tbl t e = t ∨ t !! e.1 = Some Pending) as Hcase.
      { unfold settle_tbl. destruct (t !! e.1) as [[| |]|]; auto. }
      destruct (t !! e.1) as [[| |]|] eqn:He;
        try (destruct Hcase as [Hc|?]; [by rewrite Hc in Hin | done]).
      apply elem_of_app. by right.
Qed.

Lemma tagged_sound (T : nat) (pre post : list event) (arr : list nat)
    (idx : nat) (o : outcome) :
  (idx, o) ∈ tagged T pre arr post →
  ∃ i, arr !! idx = Some i ∧ table T (pre ++ post) !! i = Some (outcome_state o).
Proof.
  unfold tagged, table. rewrite fold_left_app, elem_of_app.
  intros [Hin|Hin]; [|by apply tagged_after_sound].
  apply tagged_at_call_spec in Hin as (k & i & -> & Hk & Ho).
  exists i. split; [done|].
  destruct (fold_left settle_tbl pre (replicate T Pending) !! i) as [st|] eqn:Hi; [|done].
  cbn in Ho. apply outcome_of_inv in Ho as ->.
  apply fold_settle_keeps; [done | apply outcome_state_settled].
Qed.

Lemma tagged_complete (T : nat) (pre post : list event) (arr : list nat)
    (idx i : nat) (st : pstate) :
  arr !! idx = Some i → table T (pre ++ post) !! i = Some st → settled st →
  ∃ o, (idx, o) ∈ tagged T pre arr post ∧ outcome_state o = st.
Proof.
  unfold tagged, table. rewrite fold_left_app. intros Hidx Hfin Hst.
  set (t := fold_left settle_tbl pre (replicate T Pending)) in *. clearbody t.
  destruct (t !! i) as [[|v|e]|] eqn:Hi.
  - destruct (tagged_after_complete arr post idx i st Hidx Hst t Hi Hfin) as (o & Hin & Ho).
    exists o. split; [|done]. apply elem_of_app. by right.
  - rewrite (fold_settle_keeps post t i (Fulfilled v)) in Hfin by done.
    injection Hfin as <-. exists (Success v). split; [|done].
    apply elem_of_app. left. apply tagged_at_call_spec. exists idx, i.
    by rewrite Hi.
  - rewrite (fold_settle_keeps post t i (Rejected e)) in Hfin by done.
    injection Hfin as <-. exists (Failure e). split; [|done].
    apply elem_of_app. left. apply tagged_at_call_spec. exists idx, i.
    by rewrite Hi.
  - exfalso. clear Hidx. revert t Hi Hfin. induction post as [|ev post IH]; intros t Hi Hfin.
    + cbn in Hfin. congruence.
    + cbn [fold_left] in Hfin. apply (IH (settle_tbl t ev)); [|done].
      unfold settle_tbl. destruct (t !! ev.1) as [[| |]|] eqn:He; try done.
      apply lookup_ge_None. rewrite length_insert. by apply lookup_ge_None.
Qed.

Section AllRun.

Variable action : value → value → nat → list value → completion.

Variable array : list nat.

(** The whole run: both promises end in the state [Promise.all] has
    made of the observations. *)
Lemma all_run (T : nat) (pre post : list event) :
  Forall (λ i, i < T) array →
  let r := run_all action T pre array post in
  r.1.1 = Own 0 ∧ r.1.2 = Own 1 ∧
  link r.2 (fold_left all_step (tagged T pre array post)
              (all_start (length array))).2 [].
Proof.
  intros Hwf. cbn zeta. unfold run_all.
  destruct (prelude_clean action T pre) as [Hclean Htbl].
  set (s0 := fold_left (fire action) pre (init T)) in *. clearbody s0.
  destruct (all_call action array s0 Hclean) as (Hp & Ha & Htbl1 & Hinv).
  { assert (length (tasks s0) = T) as ->; [|done].
    rewrite <- (table_length T pre), <- Htbl. unfold tbl. by rewrite length_map. }
  destruct (processAllPromises array s0) as [[p a] s1]. cbn [fst snd] in *.
  destruct (el_post action array _ _ all_step snd (all_rep (length array))
              (all_rep_ext array) (all_job_step action array) post _ _ Hinv)
    as [Hinv' _].
  rewrite Htbl1, Htbl, <- fold_left_app in Hinv'.
  pose proof (ei_link _ _ _ _ _ _ _ Hinv') as Hl.
  repeat split; try done.
Qed.

End AllRun.

Lemma head_failures_elem (os : list outcome) (e : value) :
  head (failures os) = Some e → Failure e ∈ os.
Proof.
  induction os as [|[v|x] os IH]; cbn; [done| |].
  - intros H. apply elem_of_cons. right. by apply IH.
  - intros [= ->]. apply elem_of_cons. by left.
Qed.

Lemma seen_elem (T : nat) (pre post : list event) (arr : list nat) (o : outcome) :
  o ∈ seen T pre arr post →
  ∃ i, i ∈ arr ∧ table T (pre ++ post) !! i = Some (outcome_state o).
Proof.
  rewrite <- tagged_snd. intros Hin.
  apply list_elem_of_fmap in Hin as ([idx o'] & -> & Hin).
  apply tagged_sound in Hin as (i & Hi & Ht). exists i. split; [|done].
  by eapply list_elem_of_lookup_2.
Qed.

(** C8 (as amended).  The promise returned by [processAllPromises]
    settles as [Promise.all(array)] does: fulfilled with the values of
    all the tasks in input order when every task succeeds, rejected
    with the error of the first failure observed when a task fails:
    the first failed entry in input order among those settled at the
    call, if there is one, and otherwise the first task to fail.  When
    every entry is pending at the call, the order of observation is
    the order in which the tasks settle. *)
Theorem all_settles_like_Promise_all
    (action : value → value → nat → list value → completion) (T : nat)
    (pre post : list event) (array : list nat) :
  Forall (λ i, i < T) array →
  let r := run_all action T pre array post in
  state_of r.1.1 r.2 = state_of r.1.2 r.2 ∧
  (Forall (λ i, table T pre !! i = Some Pending) array →
   seen T pre array post = settlement_order T array (pre ++ post)) ∧
  (Forall (λ i, ∃ v, table T (pre ++ post) !! i = Some (Fulfilled v)) array →
   ∃ vs, Forall2 (λ i v, table T (pre ++ post) !! i = Some (Fulfilled v)) array vs ∧
         state_of r.1.1 r.2 = Some (Fulfilled (VArr vs))) ∧
  (∀ e, head (failures (seen T pre array post)) = Some e →
        state_of r.1.1 r.2 = Some (Rejected e)).
Proof.
  intros Hwf. cbn zeta.
  destruct (all_run action array T pre post Hwf) as (-> & -> & Hl).
  destruct (link_quiet _ _ Hl) as [H1 H2]. split; [done|].
  split; [apply seen_settlement_order|]. rewrite H2. clear H1 H2 Hl.
  destruct (decide (length array = 0)) as [E|E].
  { destruct array; [|done].
    assert (tagged T pre [] post = []) as ->.
    { apply (fmap_nil_inv snd). change (snd <$> ?l) with (map snd l).
      rewrite tagged_snd. apply Permutation_nil_r. by rewrite seen_perm. }
    assert (seen T pre [] post = []) as ->.
    { apply Permutation_nil_r. by rewrite seen_perm. }
    split; [|done]. intros _. exists []. split; [constructor | done]. }
  pose proof (all_account_fold (length array) (tagged T pre array post)
                ltac:(lia)) as Hacc.
  destruct (fold_left all_step (tagged T pre array post) (all_start (length array)))
    as [vals res].
  destruct Hacc as [Hlen Hfill Hseen Hnone Hfail Hdone]. cbn [fst snd] in *.
  rewrite tagged_snd in Hnone, Hfail.
  assert (count_none vals = 0 →
          Forall2 (λ i v, table T (pre ++ post) !! i = Some (Fulfilled v))
                  array (map (default VUndef) vals)) as Hfull.
  { intros H0. apply Forall2_same_length_lookup. split; [by rewrite length_map|].
    intros idx i v Hi Hv. rewrite list_lookup_fmap in Hv.
    destruct (count_none_zero vals idx H0) as [w Hw].
    { rewrite Hlen. by eapply lookup_lt_Some. }
    rewrite Hw in Hv. injection Hv as <-.
    destruct (tagged_sound _ _ _ _ _ _ (Hfill _ _ Hw)) as (i' & Hi' & Ht).
    rewrite Hi in Hi'. injection Hi' as <-. exact Ht. }
  split.
  - intros Hall. rewrite Forall_forall in Hall.
    destruct res as [[y|e]|].
    + destruct (Hdone _ eq_refl) as [-> H0].
      exists (map (default VUndef) vals). split; [by apply Hfull | done].
    + pose proof (Hfail _ eq_refl) as He.
      apply head_failures_elem, seen_elem in He as (i & Hi & Ht).
      destruct (Hall _ Hi) as [v Hv]. cbn in Ht. congruence.
    + destruct (Hnone eq_refl) as [_ Hpos].
      apply count_none_pos in Hpos as [idx Hidx].
      assert (idx < length array) as Hlt.
      { rewrite <- Hlen. by eapply lookup_lt_Some. }
      destruct (lookup_lt_is_Some_2 _ _ Hlt) as [i Hi].
      destruct (Hall i) as [v Hv]; [by eapply list_elem_of_lookup_2|].
      destruct (tagged_complete T pre post array idx i _ Hi Hv) as (o & Hin & Ho); [done|].
      destruct o as [w|w]; [|done].
      destruct (Hseen _ _ Hin Hlt) as [u Hu]. congruence.
  - intros e He. destruct res as [[y|e']|].
    + destruct (Hdone _ eq_refl) as [_ H0]. specialize (Hfull H0).
      apply head_failures_elem, seen_elem in He as (i & Hi & Ht).
      apply list_elem_of_lookup_1 in Hi as [idx Hidx].
      destruct (Forall2_lookup_l _ _ _ _ _ Hfull Hidx) as (v & _ & Hv).
      cbn in Ht. congruence.
    + specialize (Hfail _ eq_refl). cbn. congruence.
    + destruct (Hnone eq_refl) as [Hno _]. by rewrite Hno in He.
Qed.

Lemma all_settles_like_Promise_all_witness :
  let pre := [(1, Success (VNum 3))] in
  let post := [(2, Failure (VStr "late")); (0, Failure (VStr "later"))] in
  let r := run_all (binop js_add) 3 pre [0; 1; 2] post in
  state_of r.1.1 r.2 = state_of r.1.2 r.2 ∧
  (Forall (λ i, table 3 pre !! i = Some Pending) [0; 1; 2] →
   seen 3 pre [0; 1; 2] post = settlement_order 3 [0; 1; 2] (pre ++ post)) ∧
  (Forall (λ i, ∃ v, table 3 (pre ++ post) !! i = Some (Fulfilled v)) [0; 1; 2] →
   ∃ vs, Forall2 (λ i v, table 3 (pre ++ post) !! i = Some (Fulfilled v)) [0; 1; 2] vs ∧
         state_of r.1.1 r.2 = Some (Fulfilled (VArr vs))) ∧
  (∀ e, head (failures (seen 3 pre [0; 1; 2] post)) = Some e →
        state_of r.1.1 r.2 = Some (Rejected e)).
Proof.
  apply (all_settles_like_Promise_all (binop js_add) 3). repeat constructor.
Defined.

(** C8 as stated fails: of two tasks that have failed before the call,
    the one that failed first loses to the one that comes first in the
    array. *)
Lemma all_settles_like_Promise_all_counterexample :
  let pre := [(1, Failure (VStr "b")); (0, Failure (VStr "a"))] in
  let r := run_all (binop js_add) 2 pre [0; 1] [] in
  head (failures (settlement_order 2 [0; 1] (pre ++ []))) = Some (VStr "b") ∧
  state_of (Task 1) r.2 = Some (Rejected (VStr "b")) ∧
  state_of r.1.1 r.2 = Some (Rejected (VStr "a")) ∧
  state_of r.1.2 r.2 = Some (Rejected (VStr "a")) ∧
  state_of r.1.1 r.2 ≠ Some (Rejected (VStr "b")).
Proof.
  cbn zeta. split; [reflexivity|]. split; [vm_compute; reflexivity|].
  split; [vm_compute; reflexivity|]. split; [vm_compute; reflexivity|].
  vm_compute. discriminate.
Qed.

(** * [willYouMarryMe] *)

Lemma answers_spelled :
  String.length yes_answer = 25 ∧ String.get 19 yes_answer = Some "034"%char ∧
  String.get 23 yes_answer = Some "034"%char ∧
  String.length no_answer = 21 ∧ String.get 16 no_answer = Some "034"%char ∧
  String.get 19 no_answer = Some "034"%char.
Proof. repeat split; reflexivity. Qed.

Lemma fresh_settle (s : state) (rej : bool) (v : value) :
  let r := alloc s in
  get r.1 (settle r.1 rej v r.2) = Some (Promise (new_state rej v) []).
Proof.
  cbn zeta. unfold alloc. cbn [fst snd]. rewrite settle_eq. cbn [get settle_in]. proj.
  rewrite list_lookup_alter_eq, lookup_app_r by done.
  rewrite Nat.sub_diag. reflexivity.
Qed.

(** C10.  [willYouMarryMe] rejects with the Error 'Wrong parameter is
    passed! Ask her again.' for every argument that is not a boolean,
    a missing one included, the call of [resolve] that follows having
    no effect; it resolves with the "Yes" answer for [true] and with
    the "No" answer for [false]. *)
Theorem willYouMarryMe_settles (isPositiveAnswer : value) (s : state) :
  let r := willYouMarryMe isPositiveAnswer s in
  state_of r.1 r.2
  = Some match isPositiveAnswer with
         | VBool true => Fulfilled (VStr yes_answer)
         | VBool false => Fulfilled (VStr no_answer)
         | _ => Rejected (VErr wrong_parameter)
         end
  ∧ (is_boolean isPositiveAnswer = false →
     r.2 = reject_fn r.1 (VErr wrong_parameter) (alloc s).2)
  ∧ state_of (willYouMarryMe VUndef s).1 (willYouMarryMe VUndef s).2
    = Some (Rejected (VErr wrong_parameter)).
Proof.
  assert (∀ arg, is_boolean arg = false →
            (willYouMarryMe arg s).2
            = reject_fn (willYouMarryMe arg s).1 (VErr wrong_parameter) (alloc s).2
            ∧ state_of (willYouMarryMe arg s).1 (willYouMarryMe arg s).2
              = Some (Rejected (VErr wrong_parameter))) as Hwrong.
  { intros arg Hb. unfold willYouMarryMe. rewrite Hb. cbn [negb].
    pose proof (fresh_settle s true (VErr wrong_parameter)) as Hf. cbn zeta in Hf.
    destruct (alloc s) as [p s1]. cbn [fst snd] in *.
    unfold resolve_fn, reject_fn in *.
    rewrite (settle_noop _ _ _ _ _ Hf) by done.
    split; [done|]. unfold state_of. by rewrite Hf. }
  cbn zeta. split; [|split; [intros Hb; by apply Hwrong | by apply Hwrong]].
  destruct isPositiveAnswer as [|[|]| | | |]; try (by apply Hwrong).
  - unfold willYouMarryMe. cbn [is_boolean negb to_boolean].
    pose proof (fresh_settle s false (VStr yes_answer)) as Hf. cbn zeta in Hf.
    destruct (alloc s) as [p s1]. cbn [fst snd] in *.
    unfold state_of, resolve_fn. by rewrite Hf.
  - unfold willYouMarryMe. cbn [is_boolean negb to_boolean].
    pose proof (fresh_settle s false (VStr no_answer)) as Hf. cbn zeta in Hf.
    destruct (alloc s) as [p s1]. cbn [fst snd] in *.
    unfold state_of, resolve_fn. by rewrite Hf.
Qed.

(** ** At return

    The promise that [processAllPromises] or [getFastestPromise]
    returns is pending when the function returns: it is settled by
    the callbacks of lines 58-59 and 85-86, which run as microtasks. *)

Lemma own_settle (r : ref) (rej : bool) (v : value) (s : state) :
  own (settle r rej v s)
  = match r with
    | Task _ => own s
    | Own i => alter (settled_cell rej v) i (own s)
    end.
Proof. rewrite settle_eq. by destruct r. Qed.

Lemma tasks_settle (r : ref) (rej : bool) (v : value) (s : state) :
  tasks (settle r rej v s)
  = match r with
    | Task i => alter (settled_cell rej v) i (tasks s)
    | Own _ => tasks s
    end.
Proof. rewrite settle_eq. by destruct r. Qed.

Lemma queue_settle (r : ref) (rej : bool) (v : value) (s : state) :
  queue (settle r rej v s)
  = queue s ++ map (job_of rej v) (pending_reactions r s).
Proof. rewrite settle_eq. by destruct r. Qed.

Lemma then_some (r : ref) (onF onR : option handler) (s : state) :
  is_Some (get r s) → is_Some (then_ r onF onR s).
Proof. intros [p Hp]. unfold then_. rewrite Hp. by destruct (alloc s). Qed.

Lemma then_own_length (r : ref) (onF onR : option handler) (s s' : state)
    (d : ref) :
  then_ r onF onR s = Some (d, s') → length (own s') = S (length (own s)).
Proof.
  unfold then_, alloc. destruct (get r s) as [p|]; [|done]. intros [= <- <-].
  destruct (p_state p); proj; rewrite ?length_app, ?Nat.add_1_r; try done.
  destruct r; cbn [put]; proj; rewrite ?length_insert, length_app, Nat.add_1_r; done.
Qed.

Lemma then_keeps (r : ref) (onF onR : option handler) (s s' : state) (d : ref)
    (k : nat) (p : promise) :
  r ≠ Own k → own s !! k = Some p → then_ r onF onR s = Some (d, s') →
  own s' !! k = Some p.
Proof.
  unfold then_, alloc. destruct (get r s) as [q|]; [|done]. intros Hne Hk [= <- <-].
  destruct (p_state q); proj; try (by apply lookup_app_l_Some).
  destruct r as [i|i]; cbn [put]; proj; [by apply lookup_app_l_Some|].
  rewrite list_lookup_insert_ne by congruence. by apply lookup_app_l_Some.
Qed.

Lemma all_loop_keeps (cap : ref) (arr : list nat) (k : nat) (p : promise) :
  ∀ idx s, Forall (λ i, i < length (tasks s)) arr → own s !! k = Some p →
           own (all_loop cap idx arr s).2 !! k = Some p.
Proof.
  induction arr as [|i arr IH]; intros idx s Hwf Hk; cbn [all_loop]; [done|].
  apply Forall_cons in Hwf as [Hi Hwf]. cbn zeta.
  rewrite promise_resolve_task by done.
  destruct (then_ _ _ _ _) as [[d s1]|] eqn:E; [|done].
  apply IH; [by rewrite (then_tasks_length _ _ _ _ _ _ E)|].
  by eapply then_keeps; [| |exact E].
Qed.

Lemma race_loop_keeps (cap : ref) (arr : list nat) (k : nat) (p : promise) :
  ∀ s, Forall (λ i, i < length (tasks s)) arr → own s !! k = Some p →
       own (race_loop cap arr s).2 !! k = Some p.
Proof.
  induction arr as [|i arr IH]; intros s Hwf Hk; cbn [race_loop]; [done|].
  apply Forall_cons in Hwf as [Hi Hwf]. rewrite promise_resolve_task by done.
  destruct (then_ _ _ _ _) as [[d s1]|] eqn:E; [|done].
  apply IH; [by rewrite (then_tasks_length _ _ _ _ _ _ E)|].
  by eapply then_keeps; [| |exact E].
Qed.

Lemma wrap_keeps_res (s : state) (p : promise) :
  own s !! 0 = Some p → is_Some (own s !! 1) →
  own (wrap (Own 0) (Own 1) s) !! 0 = Some p.
Proof.
  intros H0 H1. unfold wrap, catch_.
  destruct (then_some (Own 1) (Some (HWrapResolve (Own 0))) None s H1) as [[d1 s1] E1].
  rewrite E1.
  pose proof (then_keeps (Own 1) _ _ _ _ _ 0 p ltac:(done) H0 E1) as H0'.
  destruct (then_some (Own 1) None (Some (HWrapReject (Own 0))) s1) as [[d2 s2] E2].
  { apply lookup_lt_is_Some_2. rewrite (then_own_length _ _ _ _ _ _ E1).
    apply lookup_lt_is_Some_1 in H1. lia. }
  rewrite E2. by eapply then_keeps; [| |exact E2].
Qed.

Lemma all_at_return (array : list nat) (s0 : state) :
  clean s0 → Forall (λ i, i < length (tasks s0)) array →
  let r := processAllPromises array s0 in
  r.1.1 = Own 0 ∧ state_of (Own 0) r.2 = Some Pending.
Proof.
  intros [Ho Hq Hl Ht] Hwf. cbn zeta.
  unfold processAllPromises, Promise_all, alloc. rewrite Ho. cbn [length]. proj.
  rewrite Ho. cbn [app length].
  match goal with |- context [all_loop _ _ _ ?s] => set (s2 := s) end.
  assert (own s2 = [Promise Pending []; Promise Pending []]) as Hown
    by (unfold s2; proj; by rewrite Ho).
  pose proof (all_loop_keeps (Own 1) array 0 (Promise Pending []) 0 s2 Hwf
                ltac:(by rewrite Hown)) as H0.
  pose proof (all_loop_keeps (Own 1) array 1 (Promise Pending []) 0 s2 Hwf
                ltac:(by rewrite Hown)) as H1.
  clear Hown.
  destruct (all_loop (Own 1) 0 array s2) as [[v|e] s3]; cbn [fst snd] in *.
  - cbn zeta. split; [done|]. unfold state_of. cbn [get].
    rewrite (wrap_keeps_res _ (Promise Pending [])); [done| |].
    + destruct (Nat.eqb _ _); [|done]. unfold resolve_fn.
      rewrite own_settle. by rewrite list_lookup_alter_ne.
    + destruct (Nat.eqb _ _); [|by eexists]. unfold resolve_fn.
      rewrite own_settle, list_lookup_alter_eq. proj. by rewrite H1.
  - split; [done|]. unfold state_of. cbn [get].
    rewrite (wrap_keeps_res _ (Promise Pending [])); [done| |]; unfold reject_fn;
      rewrite own_settle.
    + by rewrite list_lookup_alter_ne.
    + rewrite list_lookup_alter_eq, H1. by eexists.
Qed.

Lemma race_at_return (array : list nat) (s0 : state) :
  clean s0 → Forall (λ i, i < length (tasks s0)) array →
  let r := getFastestPromise array s0 in
  r.1.1 = Own 0 ∧ state_of (Own 0) r.2 = Some Pending.
Proof.
  intros [Ho Hq Hl Ht] Hwf. cbn zeta.
  unfold getFastestPromise, Promise_race, alloc. rewrite Ho. cbn [length]. proj.
  rewrite Ho. cbn [app length].
  match goal with |- context [race_loop _ _ ?s] => set (s2 := s) end.
  assert (own s2 = [Promise Pending []; Promise Pending []]) as Hown
    by (unfold s2; proj; by rewrite Ho).
  pose proof (race_loop_keeps (Own 1) array 0 (Promise Pending []) s2 Hwf
                ltac:(by rewrite Hown)) as H0.
  pose proof (race_loop_keeps (Own 1) array 1 (Promise Pending []) s2 Hwf
                ltac:(by rewrite Hown)) as H1.
  clear Hown.
  destruct (race_loop (Own 1) array s2) as [[v|e] s3]; cbn [fst snd] in *.
  - split; [done|]. unfold state_of. cbn [get].
    by rewrite (wrap_keeps_res _ (Promise Pending [])); [| |eexists].
  - split; [done|]. unfold state_of. cbn [get].
    rewrite (wrap_keeps_res _ (Promise Pending [])); [done| |]; unfold reject_fn;
      rewrite own_settle.
    + by rewrite list_lookup_alter_ne.
    + rewrite list_lookup_alter_eq, H1. by eexists.
Qed.

Lemma prelude_tasks
    (action : value → value → nat → list value → completion) (T : nat)
    (pre : list event) :
  clean (fold_left (fire action) pre (init T))
  ∧ length (tasks (fold_left (fire action) pre (init T))) = T.
Proof.
  destruct (prelude_clean action T pre) as [Hclean Htbl].
  set (s0 := fold_left (fire action) pre (init T)) in *. clearbody s0.
  split; [done|].
  rewrite <- (table_length T pre), <- Htbl. unfold tbl. by rewrite length_map.
Qed.

(** * Further properties of the exported functions *)

(** ** What has been observed of the empty array *)

Lemma seen_nil (T : nat) (pre post : list event) : seen T pre [] post = [].
Proof. apply Permutation_nil_r. by rewrite seen_perm. Qed.

Lemma tagged_nil (T : nat) (pre post : list event) : tagged T pre [] post = [].
Proof.
  apply (fmap_nil_inv snd). change (snd <$> ?l) with (map snd l).
  rewrite tagged_snd. apply seen_nil.
Qed.

Lemma tagged_after_app (arr : list nat) (post post' : list event) :
  ∀ t, tagged_after arr t (post ++ post')
       = tagged_after arr t post
         ++ tagged_after arr (fold_left settle_tbl post t) post'.
Proof.
  induction post as [|e post IH]; intros t; [done|].
  cbn [app tagged_after fold_left].
  assert (settle_tbl t e = t ∨ t !! e.1 = Some Pending) as [E|E].
  { unfold settle_tbl. destruct (t !! e.1) as [[| |]|]; auto. }
  - rewrite E. destruct (t !! e.1) as [[| |]|]; rewrite IH, ?E, ?app_assoc; done.
  - rewrite E, IH. by rewrite app_assoc.
Qed.

Lemma tagged_app (T : nat) (pre post post' : list event) (array : list nat) :
  tagged T pre array (post ++ post')
  = tagged T pre array post ++ tagged_after array (table T (pre ++ post)) post'.
Proof. unfold tagged, table. by rewrite tagged_after_app, fold_left_app, app_assoc. Qed.

Lemma seen_at_call_nil_inv (arr : list nat) (t : list pstate) :
  Forall (λ i, i < length t) arr → seen_at_call arr t = [] →
  Forall (λ i, t !! i = Some Pending) arr.
Proof.
  induction 1 as [|i arr Hi _ IH]; [constructor|].
  rewrite seen_at_call_cons.
  destruct (lookup_lt_is_Some_2 _ _ Hi) as [st Hst]. rewrite Hst.
  destruct st; cbn [mbind option_bind outcome_of from_option app]; intros H;
    try done.
  constructor; [done | by apply IH].
Qed.

Lemma failures_elem (os : list outcome) (e : value) :
  Failure e ∈ os → failures os ≠ [].
Proof.
  induction os as [|[v|x] os IH]; intros Hin.
  - by apply elem_of_nil in Hin.
  - apply elem_of_cons in Hin as [?|Hin]; [done | by apply IH].
  - done.
Qed.

(** Once [Promise.all] has an outcome, it keeps it. *)
Lemma all_step_keeps (os : list (nat * outcome))
    (x : list (option value) * option outcome) (o : outcome) :
  x.2 = Some o → (fold_left all_step os x).2 = Some o.
Proof.
  revert x. induction os as [|io os IH]; intros x Hx; [done|].
  cbn [fold_left]. apply IH. unfold all_step.
  destruct (io.2) as [v|e]; [|by rewrite Hx].
  destruct (x.1 !! io.1) as [[w|]|]; cbn [snd]; by rewrite ?Hx.
Qed.

(** ** The empty array *)

(** X1.  [chainPromises] on the empty array returns a promise that
    stays pending whatever happens afterwards: the loop of line 112
    registers no observer, so the test "counter equals N" is never
    run, nothing is folded and [res] is never called. *)
Theorem chain_empty_array
    (action : value → value → nat → list value → completion) (T : nat)
    (pre post : list event) :
  let r := run_chain action T pre [] post in
  final_state r = Some Pending ∧ log r.2 = [] ∧
  results r.2 = [] ∧ promisesCompleted r.2 = 0.
Proof.
  cbn zeta.
  destruct (chain_outcome action T pre post [] ltac:(constructor))
    as (Hr & Hc & _ & Hfin).
  rewrite seen_nil in *. cbn [length Nat.eqb andb negb] in Hfin.
  destruct Hfin as [Hp Hl]. by unfold final_state.
Qed.

(** X2.  [processAllPromises] on the empty array returns a promise
    that is fulfilled with the empty array, whatever the tasks around
    it do. *)
Theorem all_empty_array
    (action : value → value → nat → list value → completion) (T : nat)
    (pre post : list event) :
  let r := run_all action T pre [] post in
  state_of r.1.1 r.2 = Some (Fulfilled (VArr [])).
Proof.
  cbn zeta.
  destruct (all_run action [] T pre post ltac:(constructor)) as (-> & _ & Hl).
  rewrite tagged_nil in Hl. apply link_quiet in Hl as [_ H]. exact H.
Qed.

(** X3.  [getFastestPromise] on the empty array returns a promise
    that stays pending whatever happens afterwards. *)
Theorem fastest_empty_array
    (action : value → value → nat → list value → completion) (T : nat)
    (pre post : list event) :
  let r := run_race action T pre [] post in
  state_of r.1.1 r.2 = Some Pending.
Proof.
  cbn zeta.
  destruct (race_run action [] T pre post ltac:(constructor)) as (-> & _ & _ & Hl).
  rewrite seen_nil in Hl. apply link_quiet in Hl as [_ H]. exact H.
Qed.

(** ** While the returned promise is pending *)

(** X4.  [getFastestPromise] returns a pending promise, also when
    tasks of the array have settled before the call.  Once the
    microtask queue has run dry, after the call and after each later
    settlement, the returned promise is pending if and only if every
    task of the array is pending. *)
Theorem fastest_pending_iff
    (action : value → value → nat → list value → completion) (T : nat)
    (pre post : list event) (array : list nat) :
  Forall (λ i, i < T) array →
  let c := getFastestPromise array (fold_left (fire action) pre (init T)) in
  let r := run_race action T pre array post in
  state_of c.1.1 c.2 = Some Pending ∧
  (state_of r.1.1 r.2 = Some Pending
   ↔ Forall (λ i, table T (pre ++ post) !! i = Some Pending) array).
Proof.
  intros Hwf. cbn zeta. split.
  { destruct (prelude_tasks action T pre) as [Hclean HT].
    destruct (race_at_return array _ Hclean) as [-> H]; [by rewrite HT | done]. }
  destruct (race_run action array T pre post Hwf) as (-> & _ & _ & Hl).
  apply link_quiet in Hl as [_ ->]. split.
  - intros H. apply seen_at_call_nil_inv; [by rewrite table_length|].
    apply Permutation_nil_r. rewrite <- seen_perm.
    destruct (seen T pre array post) as [|[v|e] os]; done.
  - intros H. apply seen_at_call_pending in H.
    assert (seen T pre array post = []) as ->; [|done].
    apply Permutation_nil_r. by rewrite seen_perm, H.
Qed.

Lemma fastest_pending_iff_witness :
  let c := getFastestPromise [0; 1]
             (fold_left (fire (binop js_add)) [(1, Success (VNum 1))] (init 3)) in
  let r := run_race (binop js_add) 3 [(1, Success (VNum 1))] [0; 1]
             [(2, Failure (VStr "other"))] in
  state_of c.1.1 c.2 = Some Pending ∧
  (state_of r.1.1 r.2 = Some Pending
   ↔ Forall (λ i, table 3 ([(1, Success (VNum 1))] ++ [(2, Failure (VStr "other"))]) !! i
                  = Some Pending) [0; 1]).
Proof.
  apply (fastest_pending_iff (binop js_add) 3). repeat constructor.
Defined.

(** X5.  [processAllPromises] returns a pending promise, also when
    the array is empty or its tasks have settled before the call.
    Once the microtask queue has run dry, after the call and after
    each later settlement, the returned promise is pending if and only
    if no task of the array has failed and some task of the array is
    still pending. *)
Theorem all_pending_iff
    (action : value → value → nat → list value → completion) (T : nat)
    (pre post : list event) (array : list nat) :
  Forall (λ i, i < T) array →
  let c := processAllPromises array (fold_left (fire action) pre (init T)) in
  let r := run_all action T pre array post in
  state_of c.1.1 c.2 = Some Pending ∧
  (state_of r.1.1 r.2 = Some Pending
   ↔ Forall (λ i, ∀ e, table T (pre ++ post) !! i ≠ Some (Rejected e)) array
     ∧ Exists (λ i, table T (pre ++ post) !! i = Some Pending) array).
Proof.
  intros Hwf. cbn zeta. split.
  { destruct (prelude_tasks action T pre) as [Hclean HT].
    destruct (all_at_return array _ Hclean) as [-> H]; [by rewrite HT | done]. }
  destruct (all_run action array T pre post Hwf) as (-> & _ & Hl).
  apply link_quiet in Hl as [_ ->].
  destruct (decide (length array = 0)) as [E|E].
  { destruct array; [|done]. rewrite tagged_nil. split; [done|].
    intros [_ H]. by apply Exists_nil in H. }
  pose proof (all_account_fold (length array) (tagged T pre array post)
                ltac:(lia)) as Hacc.
  destruct (fold_left all_step (tagged T pre array post) (all_start (length array)))
    as [vals res].
  destruct Hacc as [Hlen Hfill Hseen Hnone Hfail Hdone]. cbn [fst snd] in *.
  rewrite tagged_snd in Hnone, Hfail.
  assert (∀ i e, i ∈ array → table T (pre ++ post) !! i = Some (Rejected e) →
                 failures (seen T pre array post) ≠ []) as Hrej.
  { intros i e Hi Ht. apply list_elem_of_lookup_1 in Hi as [idx Hidx].
    destruct (tagged_complete T pre post array idx i _ Hidx Ht) as (o & Hin & Ho);
      [done|].
    destruct o as [w|w]; [done|]. apply (failures_elem _ w).
    rewrite <- tagged_snd. apply list_elem_of_fmap. by exists (idx, Failure w). }
  split.
  - intros Hp. destruct res as [o|]; [by destruct o|].
    destruct (Hnone eq_refl) as [Hno Hpos].
    assert (Forall (λ i, ∀ e, table T (pre ++ post) !! i ≠ Some (Rejected e)) array)
      as Hnorej.
    { apply Forall_forall. intros i Hi e Ht. by apply (Hrej i e Hi Ht). }
    split; [done|].
    apply count_none_pos in Hpos as [idx Hidx].
    assert (idx < length array) as Hlt.
    { rewrite <- Hlen. by eapply lookup_lt_Some. }
    destruct (lookup_lt_is_Some_2 _ _ Hlt) as [i Hi].
    assert (i ∈ array) as Hin by (by eapply list_elem_of_lookup_2).
    apply Exists_exists. exists i. split; [done|].
    rewrite Forall_forall in Hwf, Hnorej.
    destruct (lookup_lt_is_Some_2 (table T (pre ++ post)) i) as [st Hst].
    { rewrite table_length. by apply Hwf. }
    destruct st as [|v|e]; [done| |by destruct (Hnorej i Hin e)].
    destruct (tagged_complete T pre post array idx i _ Hi Hst) as (o & Ho & Hos);
      [done|].
    destruct o as [w|w]; [|done].
    destruct (Hseen _ _ Ho Hlt) as [u Hu]. congruence.
  - intros [Hnorej Hpend]. destruct res as [[y|e]|]; [| |done]; exfalso.
    + destruct (Hdone _ eq_refl) as [_ H0].
      apply Exists_exists in Hpend as (i & Hi & Ht).
      apply list_elem_of_lookup_1 in Hi as [idx Hidx].
      destruct (count_none_zero vals idx H0) as [w Hw].
      { rewrite Hlen. by eapply lookup_lt_Some. }
      destruct (tagged_sound _ _ _ _ _ _ (Hfill _ _ Hw)) as (i' & Hi' & Ht').
      rewrite Hidx in Hi'. injection Hi' as <-. cbn in Ht'. congruence.
    + pose proof (Hfail _ eq_refl) as He.
      apply head_failures_elem, seen_elem in He as (i & Hi & Ht).
      rewrite Forall_forall in Hnorej. by apply (Hnorej i Hi e).
Qed.

Lemma all_pending_iff_witness :
  let c := processAllPromises [0; 1]
             (fold_left (fire (binop js_add)) [(1, Success (VNum 3))] (init 2)) in
  let r := run_all (binop js_add) 2 [(1, Success (VNum 3))] [0; 1] [] in
  state_of c.1.1 c.2 = Some Pending ∧
  (state_of r.1.1 r.2 = Some Pending
   ↔ Forall (λ i, ∀ e, table 2 ([(1, Success (VNum 3))] ++ []) !! i
                       ≠ Some (Rejected e)) [0; 1]
     ∧ Exists (λ i, table 2 ([(1, Success (VNum 3))] ++ []) !! i = Some Pending) [0; 1]).
Proof.
  apply (all_pending_iff (binop js_add) 2). repeat constructor.
Defined.

(** ** Once the returned promise is settled *)

(** X6.  Once the promise returned by [chainPromises] is settled,
    nothing that happens later changes it, and neither the reducer nor
    [res] is called again. *)
Theorem chain_settled_stays
    (action : value → value → nat → list value → completion) (T : nat)
    (pre post post' : list event) (array : list nat) :
  Forall (λ i, i < T) array →
  let r := run_chain action T pre array post in
  let r' := run_chain action T pre array (post ++ post') in
  final_state r ≠ Some Pending →
  final_state r' = final_state r ∧ log r'.2 = log r.2.
Proof.
  intros Hwf. cbn zeta. intros Hset.
  destruct (chain_outcome action T pre post array Hwf) as (_ & _ & _ & Hfin).
  destruct (chain_outcome action T pre (post ++ post') array Hwf)
    as (_ & _ & _ & Hfin').
  unfold final_state in *.
  destruct (Nat.eqb_spec (length (seen T pre array post)) (length array)) as [E|E];
    cbn [andb] in Hfin; [|by destruct Hfin as [Hp _]].
  rewrite (seen_complete T pre post post' array E) in Hfin'.
  rewrite E, Nat.eqb_refl in Hfin'. cbn [andb] in Hfin'.
  destruct (negb _); [|by destruct Hfin as [Hp _]].
  destruct Hfin as [-> ->], Hfin' as [-> ->]. done.
Qed.

Lemma chain_settled_stays_witness :
  let r := run_chain (binop js_add) 2 [(0, Success (VNum 1))] [0; 1]
             [(1, Success (VNum 2))] in
  let r' := run_chain (binop js_add) 2 [(0, Success (VNum 1))] [0; 1]
              ([(1, Success (VNum 2))] ++ [(1, Failure (VStr "late")); (0, Success (VNum 5))]) in
  final_state r ≠ Some Pending ∧
  final_state r' = final_state r ∧ log r'.2 = log r.2.
Proof.
  cbn zeta. split; [vm_compute; discriminate|].
  apply (chain_settled_stays (binop js_add) 2); [repeat constructor|].
  vm_compute. discriminate.
Defined.

(** X7.  Once the promise returned by [processAllPromises] is
    settled, nothing that happens later changes it: a failure after
    the first, or after the fulfilment, is ignored. *)
Theorem all_settled_stays
    (action : value → value → nat → list value → completion) (T : nat)
    (pre post post' : list event) (array : list nat) :
  Forall (λ i, i < T) array →
  let r := run_all action T pre array post in
  let r' := run_all action T pre array (post ++ post') in
  state_of r.1.1 r.2 ≠ Some Pending →
  state_of r'.1.1 r'.2 = state_of r.1.1 r.2.
Proof.
  intros Hwf. cbn zeta. intros Hset.
  destruct (all_run action array T pre post Hwf) as (Hp & _ & Hl).
  destruct (all_run action array T pre (post ++ post') Hwf) as (Hp' & _ & Hl').
  rewrite Hp in *. rewrite Hp'. clear Hp Hp'.
  apply link_quiet in Hl as [_ H], Hl' as [_ H']. rewrite H in *. rewrite H'.
  rewrite tagged_app, fold_left_app.
  destruct (fold_left all_step (tagged T pre array post) (all_start (length array))).2
    as [o|] eqn:Ho; [|done].
  by rewrite (all_step_keeps _ _ o Ho).
Qed.

Lemma all_settled_stays_witness :
  let r := run_all (binop js_add) 2 [] [0; 1] [(1, Failure (VStr "first"))] in
  let r' := run_all (binop js_add) 2 [] [0; 1]
              ([(1, Failure (VStr "first"))] ++ [(0, Failure (VStr "second"))]) in
  state_of r.1.1 r.2 ≠ Some Pending ∧
  state_of r'.1.1 r'.2 = state_of r.1.1 r.2.
Proof.
  cbn zeta. split; [vm_compute; discriminate|].
  apply (all_settled_stays (binop js_add) 2); [repeat constructor|].
  vm_compute. discriminate.
Defined.

(** X8.  Once the promise returned by [getFastestPromise] is settled,
    nothing that happens later changes it: the tasks that settle
    afterwards are ignored. *)
Theorem fastest_settled_stays
    (action : value → value → nat → list value → completion) (T : nat)
    (pre post post' : list event) (array : list nat) :
  Forall (λ i, i < T) array →
  let r := run_race action T pre array post in
  let r' := run_race action T pre array (post ++ post') in
  state_of r.1.1 r.2 ≠ Some Pending →
  state_of r'.1.1 r'.2 = state_of r.1.1 r.2.
Proof.
  intros Hwf. cbn zeta. intros Hset.
  destruct (race_run action array T pre post Hwf) as (Hp & _ & _ & Hl).
  destruct (race_run action array T pre (post ++ post') Hwf) as (Hp' & _ & _ & Hl').
  rewrite Hp in *. rewrite Hp'. clear Hp Hp'.
  apply link_quiet in Hl as [_ H], Hl' as [_ H']. rewrite H in *. rewrite H'.
  rewrite seen_app. by destruct (seen T pre array post).
Qed.

Lemma fastest_settled_stays_witness :
  let r := run_race (binop js_add) 2 [] [0; 1] [(1, Success (VNum 7))] in
  let r' := run_race (binop js_add) 2 [] [0; 1]
              ([(1, Success (VNum 7))] ++ [(0, Failure (VStr "late"))]) in
  state_of r.1.1 r.2 ≠ Some Pending ∧
  state_of r'.1.1 r'.2 = state_of r.1.1 r.2.
Proof.
  cbn zeta. split; [vm_compute; discriminate|].
  apply (fastest_settled_stays (binop js_add) 2); [repeat constructor|].
  vm_compute. discriminate.
Defined.

(** ** The reducer of [chainPromises] *)

Lemma seen_all_settled (T : nat) (pre post : list event) (array : list nat) :
  Forall (λ i, ∃ st, table T (pre ++ post) !! i = Some st ∧ settled st) array →
  length (seen T pre array post) = length array.
Proof.
  intros H. rewrite seen_length.
  apply (seen_at_call_all _ _ (λ _, True)).
  eapply Forall_impl; [exact H|]. intros i (st & Hi & Hs). eauto.
Qed.

(** X9.  When every task of the array has settled and the reducer
    throws while the collected values are folded, the returned promise
    is left pending for good: [res] is never called, and nothing
    rejects the promise either. *)
Theorem chain_reducer_throws
    (action : value → value → nat → list value → completion) (T : nat)
    (pre post post' : list event) (array : list nat) (e : value) :
  Forall (λ i, ∃ st, table T (pre ++ post) !! i = Some st ∧ settled st) array →
  (reduce action (successes (seen T pre array post))).1 = Throw e →
  let r := run_chain action T pre array (post ++ post') in
  final_state r = Some Pending ∧ res_calls (log r.2) = 0.
Proof.
  intros Hall Hthrow. cbn zeta.
  pose proof (table_range _ _ _ _ Hall) as Hwf.
  pose proof (seen_all_settled _ _ _ _ Hall) as Hlen.
  destruct (chain_outcome action T pre (post ++ post') array Hwf)
    as (_ & _ & _ & Hfin).
  rewrite (seen_complete T pre post post' array Hlen) in Hfin.
  unfold final_state.
  destruct (_ && _); destruct Hfin as [-> ->]; [|done].
  unfold finish. pose proof (reduce_calls action (successes (seen T pre array post))) as Hc.
  destruct (reduce action (successes (seen T pre array post))) as [[v|x] l];
    [done|]. cbn [fst snd] in *. split; [done|].
  unfold res_calls. cbn [List.filter is_res].
  rewrite filter_none; [done|].
  eapply Forall_impl; [exact Hc|]. by intros [].
Qed.

Lemma chain_reducer_throws_witness :
  let action := λ _ _ _ _, Throw (VStr "boom") in
  let post := [(1, Success (VNum 2)); (0, Success (VNum 1))] in
  let r := run_chain action 2 [] [0; 1] (post ++ [(0, Success (VNum 9))]) in
  Forall (λ i, ∃ st, table 2 ([] ++ post) !! i = Some st ∧ settled st) [0; 1] ∧
  (reduce action (successes (seen 2 [] [0; 1] post))).1 = Throw (VStr "boom") ∧
  final_state r = Some Pending ∧ res_calls (log r.2) = 0.
Proof.
  cbn zeta.
  assert (Forall (λ i, ∃ st, table 2 ([] ++ [(1, Success (VNum 2)); (0, Success (VNum 1))]) !! i
                             = Some st ∧ settled st) [0; 1]) as Hall.
  { repeat constructor; eexists; (split; [vm_compute; reflexivity | discriminate]). }
  split; [exact Hall|]. split; [reflexivity|].
  exact (chain_reducer_throws (λ _ _ _ _, Throw (VStr "boom")) 2 [] _
           [(0, Success (VNum 9))] [0; 1] (VStr "boom") Hall eq_refl).
Defined.

Lemma reduce_from_index action (arr xs : list value) :
  ∀ k acc,
    ∃ n, omap call_index (reduce_from action arr k acc xs).2 = seq k n ∧
         n ≤ length xs ∧
         (∀ v, (reduce_from action arr k acc xs).1 = Normal v → n = length xs).
Proof.
  induction xs as [|x xs IH]; intros k acc; cbn [reduce_from].
  - exists 0. done.
  - destruct (action acc x k arr) as [a|e].
    + destruct (IH (S k) a) as (n & Hn & Hle & Hfull).
      destruct (reduce_from action arr (S k) a xs) as [c l]. cbn [fst snd] in *.
      exists (S n). cbn [omap list_omap call_index seq length]. rewrite <- Hn.
      split; [done|]. split; [lia|]. intros v Hv. f_equal. by eapply Hfull.
    + exists 1. cbn [fst snd length]. split; [done|]. split; [lia|]. done.
Qed.

(** X10.  The reducer is called with the indices 1, 2, ... in turn
    ([reduce] has no initial value, so index 0 is never passed), at
    most once per collected value but the first, and exactly so often
    when the returned promise is fulfilled. *)
Theorem chain_reducer_indices
    (action : value → value → nat → list value → completion) (T : nat)
    (pre post : list event) (array : list nat) :
  Forall (λ i, i < T) array →
  let r := run_chain action T pre array post in
  ∃ n, omap call_index (log r.2) = seq 1 n ∧
       n ≤ length (results r.2) - 1 ∧
       (∀ v, final_state r = Some (Fulfilled v) → n = length (results r.2) - 1).
Proof.
  intros Hwf. cbn zeta.
  destruct (chain_outcome action T pre post array Hwf) as (-> & _ & _ & Hfin).
  unfold final_state.
  destruct (_ && _); destruct Hfin as [-> ->]; [|exists 0; split; [done|]; split; [lia | done]].
  unfold finish, reduce.
  destruct (successes (seen T pre array post)) as [|x xs] eqn:Hs.
  { exists 0. cbn. split; [done|]. split; [lia | done]. }
  destruct (reduce_from_index action (x :: xs) xs 1 x) as (n & Hn & Hle & Hfull).
  destruct (reduce_from action (x :: xs) 1 x xs) as [[v|e] l]; cbn [fst snd] in *;
    exists n; replace (length (x :: xs) - 1) with (length xs) by (cbn [length]; lia).
  - split.
    + cbn [omap list_omap call_index]. rewrite omap_app. cbn. by rewrite app_nil_r.
    + split; [done|]. intros _ _. by eapply Hfull.
  - split; [done|]. split; [done|]. done.
Qed.

Lemma chain_reducer_indices_witness :
  let r := run_chain (binop js_add) 3 [(2, Success (VNum 1))] [0; 1; 2]
             [(0, Success (VNum 2)); (1, Success (VNum 3))] in
  ∃ n, omap call_index (log r.2) = seq 1 n ∧
       n ≤ length (results r.2) - 1 ∧
       (∀ v, final_state r = Some (Fulfilled v) → n = length (results r.2) - 1).
Proof.
  apply (chain_reducer_indices (binop js_add) 3). repeat constructor.
Defined.

(** ** Reducers that do not care about the order *)

Section Commutative.

Variable op : value → value → value.
Hypothesis op_comm : ∀ a b, op a b = op b a.
Hypothesis op_assoc : ∀ a b c, op (op a b) c = op a (op b c).

Lemma fold_left_swap (a b c : value) : op (op a b) c = op (op a c) b.
Proof. by rewrite !op_assoc, (op_comm b c). Qed.

Lemma fold_left_perm (l l' : list value) :
  l ≡ₚ l' → ∀ a, fold_left op l a = fold_left op l' a.
Proof.
  induction 1 as [|x l l' _ IH|x y l|l l' l'' _ IH1 _ IH2]; intros a; cbn [fold_left].
  - done.
  - apply IH.
  - by rewrite fold_left_swap.
  - by rewrite IH1.
Qed.

(** Folding without an initial value, as [reduce] does. *)
Lemma fold_first_perm (l l' : list value) :
  l ≡ₚ l' →
  match l, l' with
  | x :: xs, y :: ys => fold_left op xs x = fold_left op ys y
  | [], [] => True
  | _, _ => False
  end.
Proof.
  induction 1 as [|x l l' Hp _|x y l|l l' l'' _ IH1 _ IH2].
  - done.
  - by apply fold_left_perm.
  - cbn [fold_left]. by rewrite (op_comm y x).
  - destruct l as [|x xs], l' as [|y ys], l'' as [|z zs]; try done. congruence.
Qed.

End Commutative.

(** X11.  For a reducer that is commutative and associative the
    result does not depend on the order in which the tasks settle:
    once every task of the array has settled, the returned promise is
    fulfilled with the fold of the values of the successful tasks
    taken in input order. *)
Theorem chain_order_irrelevant (op : value → value → value) (T : nat)
    (pre post : list event) (array : list nat) (v0 : value) (vs : list value) :
  (∀ a b, op a b = op b a) → (∀ a b c, op (op a b) c = op a (op b c)) →
  Forall (λ i, ∃ st, table T (pre ++ post) !! i = Some st ∧ settled st) array →
  successes (seen_at_call array (table T (pre ++ post))) = v0 :: vs →
  final_state (run_chain (binop op) T pre array post)
  = Some (Fulfilled (fold_left op vs v0)).
Proof.
  intros Hcomm Hassoc Hall Hvals.
  pose proof (table_range _ _ _ _ Hall) as Hwf.
  pose proof (seen_all_settled _ _ _ _ Hall) as Hlen.
  destruct (chain_outcome (binop op) T pre post array Hwf) as (_ & _ & _ & Hfin).
  rewrite Hlen, Nat.eqb_refl in Hfin. cbn [andb] in Hfin.
  destruct array as [|i array]; [done|]. cbn [length Nat.eqb negb] in Hfin.
  destruct Hfin as [Hst _]. unfold final_state. rewrite Hst.
  assert (successes (seen T pre (i :: array) post) ≡ₚ v0 :: vs) as Hperm.
  { rewrite <- Hvals. unfold successes. by rewrite seen_perm. }
  apply (fold_first_perm op Hcomm Hassoc) in Hperm.
  destruct (successes (seen T pre (i :: array) post)) as [|w0 ws]; [done|].
  by rewrite finish_binop, Hperm.
Qed.

Lemma js_add_comm (a b : value) : js_add a b = js_add b a.
Proof. destruct a, b; cbn; try done. f_equal. lia. Qed.

Lemma js_add_assoc (a b c : value) : js_add (js_add a b) c = js_add a (js_add b c).
Proof. destruct a, b, c; cbn; try done. f_equal. lia. Qed.

Lemma chain_order_irrelevant_witness :
  let pre := [(2, Success (VNum 30))] in
  let post := [(1, Success (VNum 20)); (0, Success (VNum 10)); (3, Failure (VStr "x"))] in
  Forall (λ i, ∃ st, table 4 (pre ++ post) !! i = Some st ∧ settled st) [0; 1; 2; 3] ∧
  successes (seen_at_call [0; 1; 2; 3] (table 4 (pre ++ post)))
  = VNum 10 :: [VNum 20; VNum 30] ∧
  final_state (run_chain (binop js_add) 4 pre [0; 1; 2; 3] post)
  = Some (Fulfilled (fold_left js_add [VNum 20; VNum 30] (VNum 10))).
Proof.
  cbn zeta.
  assert (Forall (λ i, ∃ st, table 4 ([(2, Success (VNum 30))]
                    ++ [(1, Success (VNum 20)); (0, Success (VNum 10));
                        (3, Failure (VStr "x"))]) !! i = Some st ∧ settled st)
                 [0; 1; 2; 3]) as Hall.
  { repeat constructor; eexists; (split; [vm_compute; reflexivity | discriminate]). }
  split; [exact Hall|]. split; [reflexivity|].
  exact (chain_order_irrelevant js_add 4 _ _ [0; 1; 2; 3] (VNum 10) [VNum 20; VNum 30]
           js_add_comm js_add_assoc Hall eq_refl).
Defined.

(** ** The bookkeeping of [chainPromises] *)

(** X12.  When [chainPromises] returns, the counter
    [promisesCompleted] is 0 and [results] is empty, also when tasks
    of the array have settled before the call.  Once the microtask
    queue has run dry, after the call and after each later
    settlement, the counter is the number of entries of the array
    whose task has settled, an entry listed twice counting twice; it
    does not exceed the length of the array; and [results] holds the
    values of the entries whose task has succeeded, in some order. *)
Theorem chain_counter_invariant
    (action : value → value → nat → list value → completion) (T : nat)
    (pre post : list event) (array : list nat) :
  Forall (λ i, i < T) array →
  let c := chainPromises array (fold_left (fire action) pre (init T)) in
  let r := run_chain action T pre array post in
  (promisesCompleted c.2 = 0 ∧ results c.2 = []) ∧
  promisesCompleted r.2 = length (seen_at_call array (table T (pre ++ post))) ∧
  promisesCompleted r.2 ≤ length array ∧
  results r.2 ≡ₚ successes (seen_at_call array (table T (pre ++ post))).
Proof.
  intros Hwf. cbn zeta. split.
  { by destruct (chain_before_microtasks action T pre array Hwf) as (_ & _ & -> & ->). }
  destruct (chain_outcome action T pre post array Hwf) as (-> & -> & _ & _).
  rewrite seen_length. split; [done|].
  split; [apply seen_at_call_length|].
  unfold successes. by rewrite seen_perm.
Qed.

Lemma chain_counter_invariant_witness :
  let c := chainPromises [0; 1; 0]
             (fold_left (fire (binop js_add)) [(1, Failure (VStr "x"))] (init 2)) in
  let r := run_chain (binop js_add) 2 [(1, Failure (VStr "x"))] [0; 1; 0]
             [(0, Success (VNum 4))] in
  (promisesCompleted c.2 = 0 ∧ results c.2 = []) ∧
  promisesCompleted r.2
  = length (seen_at_call [0; 1; 0]
              (table 2 ([(1, Failure (VStr "x"))] ++ [(0, Success (VNum 4))]))) ∧
  promisesCompleted r.2 ≤ length [0; 1; 0] ∧
  results r.2
  ≡ₚ successes (seen_at_call [0; 1; 0]
                  (table 2 ([(1, Failure (VStr "x"))] ++ [(0, Success (VNum 4))]))).
Proof.
  apply (chain_counter_invariant (binop js_add) 2). repeat constructor.
Defined.

(** ** An entry that is not a promise *)

Lemma settle_fresh_cell (k : nat) (rej : bool) (v : value) (s : state) :
  own s !! k = Some (Promise Pending []) →
  settle (Own k) rej v s
  = set_own (λ h, <[k:=Promise (new_state rej v) []]> h) s.
Proof.
  intros Hk. unfold settle. cbn [get put map]. rewrite Hk. cbn [map].
  apply enqueue_nil.
Qed.

Lemma stuck_ext (s s' : state) :
  own s' = own s → queue s' = queue s → tasks s' = tasks s →
  Forall (λ l, is_fire l = true) (log s') → stuck s → stuck s'.
Proof.
  intros Ho Hq Ht Hl [H1 H2 H3 H4 H5]. split; rewrite ?Ho, ?Hq, ?Ht; done.
Qed.

Lemma stuck_settle_own (s : state) (k : nat) (rej : bool) (v : value) :
  1 ≤ k → stuck s → stuck (settle (Own k) rej v s).
Proof.
  intros Hk Hs. rewrite settle_silent by (by apply Hs).
  destruct Hs as [H1 H2 H3 H4 H5]. split; cbn [settle_in]; proj; try done.
  - rewrite list_lookup_alter_ne by lia. done.
  - intros j Hj. apply no_reactions_alter. by apply H2.
Qed.

Lemma stuck_then (s s' : state) (i : nat) (onF onR : option handler) (d : ref) :
  observer onF → observer onR → stuck s →
  then_ (Task i) onF onR s = Some (d, s') →
  stuck s' ∧ length (tasks s') = length (tasks s) ∧ i < length (tasks s) ∧
  (∀ k p, own s !! k = Some p → own s' !! k = Some p).
Proof.
  intros HF HR [H1 H2 H3 H4 H5]. unfold then_, alloc. cbn [get].
  destruct (tasks s !! i) as [p|] eqn:Hp; [|done]. intros [= <- <-].
  assert (1 ≤ length (own s)) as Hlen. { apply lookup_lt_Some in H1. lia. }
  assert (inner (Own (length (own s)))) as Hin by (by eexists).
  assert (∀ k, 1 ≤ k → no_reactions (own s ++ [Promise Pending []]) k) as Hown.
  { intros k Hk q Hq. apply lookup_app_Some in Hq as [Hq|[_ Hq]]; [by eapply H2|].
    apply list_lookup_singleton_Some in Hq as [_ <-]. done. }
  assert (∀ k q, own s !! k = Some q → (own s ++ [Promise Pending []]) !! k = Some q)
    as Hold.
  { intros k q Hq. by apply lookup_app_l_Some. }
  assert (i < length (tasks s)) as Hi by (by eapply lookup_lt_Some).
  destruct (p_state p) as [|v|e] eqn:Hst.
  - split; [|cbn [put]; proj; by rewrite length_insert].
    split; cbn [put]; proj; try done; [by apply Hold|].
    apply Forall_insert; [done|]. cbn [p_reactions]. apply Forall_app. split.
    + rewrite Forall_forall in H4. apply (H4 p). by eapply list_elem_of_lookup_2.
    + by repeat constructor.
  - split; [|done]. split; proj; try done; [by apply Hold|].
    apply Forall_app. split; [done|]. by repeat constructor.
  - split; [|done]. split; proj; try done; [by apply Hold|].
    apply Forall_app. split; [done|]. by repeat constructor.
Qed.

(** The loop of line 112 stops with a TypeError at the first entry
    that is not a promise. *)
Lemma stuck_forEach (n : nat) (arr : list nat) :
  ∀ s, stuck s →
    stuck (chain_forEach n (Own 1) arr s).2 ∧
    length (tasks (chain_forEach n (Own 1) arr s).2) = length (tasks s) ∧
    (∀ k p, own s !! k = Some p →
            own (chain_forEach n (Own 1) arr s).2 !! k = Some p) ∧
    (Exists (λ i, length (tasks s) ≤ i) arr →
     (chain_forEach n (Own 1) arr s).1 = Throw type_error).
Proof.
  induction arr as [|i arr IH]; intros s Hs; cbn [chain_forEach].
  { split; [done|]. split; [done|]. split; [done|].
    intros H. by apply Exists_nil in H. }
  destruct (then_ (Task i) (Some (HChainThen n (Own 1))) None s) as [[d1 s1]|] eqn:E1;
    [|by (split; [|split; [|split]])].
  destruct (stuck_then _ _ _ (Some (HChainThen n (Own 1))) None _ eq_refl I Hs E1)
    as (Hs1 & Hl1 & Hi & Ho1).
  unfold catch_.
  destruct (then_ (Task i) None (Some (HChainCatch n (Own 1))) s1) as [[d2 s2]|] eqn:E2;
    [|cbn [fst snd]; by (split; [|split; [|split]])].
  destruct (stuck_then _ _ _ None (Some (HChainCatch n (Own 1))) _ I eq_refl Hs1 E2)
    as (Hs2 & Hl2 & _ & Ho2).
  destruct (IH s2 Hs2) as (Ha & Hb & Hc & Hd).
  split; [done|]. split; [congruence|]. split; [by auto|].
  intros Hex. apply Hd. apply Exists_cons in Hex as [Hge|Hex]; [lia|].
  by rewrite Hl2, Hl1.
Qed.

Section Stuck.

Variable action : value → value → nat → list value → completion.

Lemma stuck_run_job (s : state) (j : job) (q : list job) :
  stuck s → queue s = j :: q → stuck (run_job action j (set_queue (λ _, q) s)).
Proof.
  intros Hs Hq.
  assert (observer_job j ∧ stuck (set_queue (λ _, q) s)) as [[Hh (k & Hk & Hcap)] Hs'].
  { destruct Hs as [H1 H2 H3 H4 H5]. rewrite Hq in H3.
    apply Forall_cons in H3 as [Hj H3]. split; [done|]. split; proj; done. }
  set (s1 := set_queue (λ _, q) s) in *. clearbody s1.
  unfold run_job. rewrite Hcap.
  destruct (j_handler j) as [h|].
  - destruct h; try done; cbn [observer] in Hh; subst allp; cbn [call];
      unfold check_done, resolve_fn;
      destruct (Nat.eqb _ _); apply stuck_settle_own; try done;
      try (apply stuck_settle_own; [lia|]);
      (eapply stuck_ext; [ | | | | exact Hs']); proj; try done;
      try (apply Forall_app; split; [apply Hs' | by repeat constructor]);
      apply Hs'.
  - destruct (j_rej j); unfold reject_fn, resolve_fn; by apply stuck_settle_own.
Qed.

Lemma stuck_run_microtasks (s : state) : stuck s → stuck (run_microtasks action s).
Proof.
  remember (measure s) as m eqn:Em. revert s Em.
  induction m as [m IH] using lt_wf_ind. intros s Em Hs.
  destruct (queue s) as [|j q] eqn:Hq.
  - by rewrite run_microtasks_nil.
  - rewrite (run_microtasks_cons action s j q Hq).
    eapply IH; [|reflexivity | by apply stuck_run_job].
    rewrite measure_run_job. subst m. unfold measure. proj. rewrite Hq.
    cbn [length]. lia.
Qed.

Lemma stuck_settle_task (s : state) (e : event) : stuck s → stuck (settle_task e s).
Proof.
  intros [H1 H2 H3 H4 H5]. destruct e as [i o]. rewrite settle_task_eq, settle_eq.
  unfold pending_reactions. cbn [get settle_in].
  split; proj; try done.
  - apply Forall_app. split; [done|].
    destruct (tasks s !! i) as [[[| |] rs]|] eqn:Hi; try by constructor.
    rewrite Forall_forall in H4.
    specialize (H4 _ (list_elem_of_lookup_2 _ _ _ Hi)). cbn [p_reactions] in H4.
    change (map ?f ?l) with (f <$> l). apply Forall_fmap.
    eapply Forall_impl; [exact H4|]. intros r (Hf & Hr & Hc).
    split; [|done]. cbn [job_of j_handler]. by destruct (outcome_rej o).
  - apply Forall_alter; [done|]. intros p _ Hp. unfold settled_cell.
    destruct (p_state p); [by constructor | done | done].
Qed.

Lemma stuck_fire (s : state) (e : event) : stuck s → stuck (fire action s e).
Proof. intros Hs. by apply stuck_run_microtasks, stuck_settle_task. Qed.

(** The call itself: [allProms] is rejected by the time line 129
    reacts to it, so the reaction becomes a job without a handler. *)
Lemma stuck_call (array : list nat) (s0 : state) :
  clean s0 → Exists (λ i, length (tasks s0) ≤ i) array →
  (chainPromises array s0).1 = Own 0 ∧ stuck (chainPromises array s0).2.
Proof.
  intros [Ho Hq Hl Ht] Hex. unfold chainPromises, alloc. rewrite Ho.
  cbn [length]. proj. rewrite Ho. cbn [app length].
  match goal with |- context [chain_forEach _ _ _ ?s] => set (s3 := s) end.
  assert (stuck s3) as Hs3.
  { subst s3. split; proj; rewrite ?Ho, ?Hq, ?Hl; try done.
    - intros [|[|[|k]]] Hk p Hp; try done; try lia. by injection Hp as <-.
    - apply Forall_forall. intros p Hp.
      apply list_elem_of_lookup_1 in Hp as [i Hi]. by rewrite (Ht i p Hi). }
  destruct (stuck_forEach (length array) array s3 Hs3) as (Hs & Hlen & Hold & Hthrow).
  specialize (Hthrow Hex).
  assert (own s3 !! 1 = Some (Promise Pending [])) as Hown3.
  { unfold s3. proj. by rewrite Ho. }
  specialize (Hold 1 (Promise Pending []) Hown3). clear Hown3.
  destruct (chain_forEach (length array) (Own 1) array s3) as [c s'].
  cbn [fst snd] in *. subst c. unfold reject_fn.
  rewrite (settle_fresh_cell 1 true type_error s' Hold).
  unfold then_, alloc. cbn [get]. proj.
  rewrite list_lookup_insert_eq by (by eapply lookup_lt_Some).
  cbn [p_state new_state fst]. split; [done|].
  destruct Hs as [H1 H2 H3 H4 H5]. cbn [snd].
  assert (1 ≤ length (own s')) as Hlen1. { apply lookup_lt_Some in H1. lia. }
  split; proj; try done.
  - rewrite lookup_app_l by (rewrite length_insert; lia).
    by rewrite list_lookup_insert_ne.
  - intros k Hk p Hp. apply lookup_app_Some in Hp as [Hp|[_ Hp]].
    + destruct (decide (k = 1)) as [->|Hne].
      * rewrite list_lookup_insert_eq in Hp by (by eapply lookup_lt_Some).
        by injection Hp as <-.
      * rewrite list_lookup_insert_ne in Hp by done. by eapply H2.
    + apply list_lookup_singleton_Some in Hp as [_ <-]. done.
  - apply Forall_app. split; [done|]. repeat constructor.
    exists (length (<[1:=Promise (Rejected type_error) []]> (own s'))).
    split; [by rewrite length_insert | done].
Qed.

End Stuck.

(** X13.  When some entry of the array is not a promise (it has no
    [then] method), the TypeError of line 113 is swallowed by the
    executor of [allProms]: the promise returned by [chainPromises]
    is neither rejected nor ever settled, and the reducer is never
    called, whatever the tasks do. *)
Theorem chain_not_a_promise
    (action : value → value → nat → list value → completion) (T : nat)
    (pre post : list event) (array : list nat) :
  Exists (λ i, T ≤ i) array →
  let r := run_chain action T pre array post in
  final_state r = Some Pending ∧
  reducer_calls (log r.2) = [] ∧ res_calls (log r.2) = 0.
Proof.
  intros Hex. cbn zeta. unfold run_chain.
  destruct (prelude_clean action T pre) as [Hclean Htbl].
  set (s0 := fold_left (fire action) pre (init T)) in *. clearbody s0.
  assert (length (tasks s0) = T) as HT.
  { rewrite <- (table_length T pre), <- Htbl. unfold tbl. by rewrite length_map. }
  destruct (stuck_call array s0 Hclean) as [Hr Hs]; [by rewrite HT|].
  destruct (chainPromises array s0) as [r s1]. cbn [fst snd] in *. subst r.
  apply (stuck_run_microtasks action) in Hs.
  assert (stuck (fold_left (fire action) post (run_microtasks action s1))) as Hfin.
  { revert Hs. generalize (run_microtasks action s1).
    induction post as [|e post IH]; intros s Hs; [done|].
    cbn [fold_left]. by apply IH, stuck_fire. }
  destruct Hfin as [H1 _ _ _ H5]. unfold final_state, state_of. cbn [fst snd get].
  rewrite H1. split; [done|].
  unfold reducer_calls, res_calls.
  rewrite !filter_none; [done | |]; (eapply Forall_impl; [exact H5|]); by intros [].
Qed.

Lemma chain_not_a_promise_witness :
  let r := run_chain (binop js_add) 2 [(0, Success (VNum 1))] [0; 5; 1]
             [(1, Success (VNum 2))] in
  final_state r = Some Pending ∧
  reducer_calls (log r.2) = [] ∧ res_calls (log r.2) = 0.
Proof.
  apply (chain_not_a_promise (binop js_add) 2).
  apply Exists_cons_tl, Exists_cons_hd. lia.
Defined.

(** ** Where the result comes from *)

(** X14.  For any reducer, the promise returned by [chainPromises]
    is fulfilled with [v] exactly when the array is not empty, every
    task of it has settled, and folding the collected values with the
    reducer returns [v]. *)
Theorem chain_fulfilled_iff
    (action : value → value → nat → list value → completion) (T : nat)
    (pre post : list event) (array : list nat) (v : value) :
  Forall (λ i, i < T) array →
  let r := run_chain action T pre array post in
  final_state r = Some (Fulfilled v)
  ↔ array ≠ [] ∧
    Forall (λ i, ∃ st, table T (pre ++ post) !! i = Some st ∧ settled st) array ∧
    (reduce action (results r.2)).1 = Normal v.
Proof.
  intros Hwf. cbn zeta.
  destruct (chain_outcome action T pre post array Hwf) as (-> & _ & _ & Hfin).
  unfold final_state. pose proof (seen_length T pre post array) as Hlen.
  destruct (Nat.eqb_spec (length (seen T pre array post)) (length array)) as [E|E];
    cbn [andb] in Hfin.
  - destruct (Nat.eqb_spec (length array) 0) as [E0|E0]; cbn [negb] in Hfin;
      destruct Hfin as [-> _].
    + split; [done|]. intros [Hne _]. by destruct array.
    + unfold finish. split.
      * intros Hv. split; [by intros ->|]. split.
        { apply seen_at_call_full. congruence. }
        destruct (reduce action (successes (seen T pre array post))) as [[w|x] l];
          cbn [fst] in *; congruence.
      * intros (_ & _ & Hv).
        destruct (reduce action (successes (seen T pre array post))) as [[w|x] l];
          cbn [fst] in *; congruence.
  - destruct Hfin as [-> _]. split; [done|]. intros (_ & Hall & _).
    by apply seen_all_settled in Hall.
Qed.

Lemma chain_fulfilled_iff_witness :
  let action := λ acc cur k arr,
    if Nat.eqb k 2 then Throw (VStr "stop") else Normal (js_mul acc cur) in
  let r := run_chain action 2 [(1, Success (VNum 3))] [0; 1] [(0, Success (VNum 5))] in
  final_state r = Some (Fulfilled (VNum 15))
  ↔ [0; 1] ≠ [] ∧
    Forall (λ i, ∃ st, table 2 ([(1, Success (VNum 3))] ++ [(0, Success (VNum 5))]) !! i
                       = Some st ∧ settled st) [0; 1] ∧
    (reduce action (results r.2)).1 = Normal (VNum 15).
Proof.
  cbn zeta.
  apply (chain_fulfilled_iff
           (λ acc cur k arr,
              if Nat.eqb k 2 then Throw (VStr "stop") else Normal (js_mul acc cur)) 2).
  repeat constructor.
Defined.

(** X15.  [getFastestPromise] never makes up a result: when the
    returned promise is settled, it is in the state of some task of
    the array. *)
Theorem fastest_result_from_array
    (action : value → value → nat → list value → completion) (T : nat)
    (pre post : list event) (array : list nat) (st : pstate) :
  Forall (λ i, i < T) array →
  let r := run_race action T pre array post in
  state_of r.1.1 r.2 = Some st → st ≠ Pending →
  ∃ i, i ∈ array ∧ table T (pre ++ post) !! i = Some st.
Proof.
  intros Hwf. cbn zeta.
  destruct (race_run action array T pre post Hwf) as (-> & _ & _ & Hl).
  apply link_quiet in Hl as [_ ->]. intros [= <-] Hst.
  destruct (seen T pre array post) as [|o os] eqn:Hs; [done|].
  cbn [head from_option] in *. apply (seen_elem T pre post array o).
  rewrite Hs. by left.
Qed.

Lemma fastest_result_from_array_witness :
  let r := run_race (binop js_add) 3 [(1, Failure (VStr "no"))] [2; 1; 0]
             [(2, Success (VNum 1))] in
  state_of r.1.1 r.2 = Some (Rejected (VStr "no")) ∧
  Rejected (VStr "no") ≠ Pending ∧
  ∃ i, i ∈ [2; 1; 0]
       ∧ table 3 ([(1, Failure (VStr "no"))] ++ [(2, Success (VNum 1))]) !! i
         = Some (Rejected (VStr "no")).
Proof.
  cbn zeta. split; [vm_compute; reflexivity|]. split; [discriminate|].
  apply (fastest_result_from_array (binop js_add) 3);
    [repeat constructor | vm_compute; reflexivity | discriminate].
Defined.

Lemma all_slots_filled (T : nat) (pre post : list event) (array : list nat)
    (vals : list (option value)) :
  length vals = length array →
  (∀ idx v, vals !! idx = Some (Some v) → (idx, Success v) ∈ tagged T pre array post) →
  count_none vals = 0 →
  Forall2 (λ i v, table T (pre ++ post) !! i = Some (Fulfilled v))
          array (map (default VUndef) vals).
Proof.
  intros Hlen Hfill H0. apply Forall2_same_length_lookup.
  split; [by rewrite length_map|].
  intros idx i v Hi Hv. rewrite list_lookup_fmap in Hv.
  destruct (count_none_zero vals idx H0) as [w Hw].
  { rewrite Hlen. by eapply lookup_lt_Some. }
  rewrite Hw in Hv. injection Hv as <-.
  destruct (tagged_sound _ _ _ _ _ _ (Hfill _ _ Hw)) as (i' & Hi' & Ht).
  rewrite Hi in Hi'. injection Hi' as <-. exact Ht.
Qed.

(** X16.  [processAllPromises] never makes up a result either: when
    the returned promise is rejected, some task of the array is
    rejected with the same error; when it is fulfilled, its value is
    an array that holds, entry by entry, the values the tasks of the
    array are fulfilled with. *)
Theorem all_result_from_array
    (action : value → value → nat → list value → completion) (T : nat)
    (pre post : list event) (array : list nat) :
  Forall (λ i, i < T) array →
  let r := run_all action T pre array post in
  (∀ e, state_of r.1.1 r.2 = Some (Rejected e) →
        ∃ i, i ∈ array ∧ table T (pre ++ post) !! i = Some (Rejected e)) ∧
  (∀ w, state_of r.1.1 r.2 = Some (Fulfilled w) →
        ∃ vs, w = VArr vs ∧
              Forall2 (λ i v, table T (pre ++ post) !! i = Some (Fulfilled v))
                      array vs).
Proof.
  intros Hwf. cbn zeta.
  destruct (all_run action array T pre post Hwf) as (-> & _ & Hl).
  apply link_quiet in Hl as [_ ->].
  destruct (decide (length array = 0)) as [E|E].
  { destruct array; [|done]. rewrite tagged_nil. split; [done|].
    intros w [= <-]. exists []. split; [done | constructor]. }
  pose proof (all_account_fold (length array) (tagged T pre array post)
                ltac:(lia)) as Hacc.
  destruct (fold_left all_step (tagged T pre array post) (all_start (length array)))
    as [vals res].
  destruct Hacc as [Hlen Hfill Hseen Hnone Hfail Hdone]. cbn [fst snd] in *.
  rewrite tagged_snd in Hfail.
  destruct res as [[y|x]|]; cbn [from_option outcome_state new_state outcome_rej outcome_val].
  - split; [done|]. intros w [= <-]. destruct (Hdone _ eq_refl) as [-> H0].
    eexists. split; [reflexivity|]. by apply all_slots_filled.
  - split; [|done]. intros e [= <-].
    apply (seen_elem T pre post array (Failure x)), head_failures_elem. by apply Hfail.
  - done.
Qed.

Lemma all_result_from_array_witness :
  let pre := [(1, Success (VNum 3))] in
  let post := [(0, Success (VNum 4))] in
  let r := run_all (binop js_add) 2 pre [0; 1; 0] post in
  (∀ e, state_of r.1.1 r.2 = Some (Rejected e) →
        ∃ i, i ∈ [0; 1; 0] ∧ table 2 (pre ++ post) !! i = Some (Rejected e)) ∧
  (∀ w, state_of r.1.1 r.2 = Some (Fulfilled w) →
        ∃ vs, w = VArr vs ∧
              Forall2 (λ i v, table 2 (pre ++ post) !! i = Some (Fulfilled v))
                      [0; 1; 0] vs).
Proof.
  apply (all_result_from_array (binop js_add) 2). repeat constructor.
Defined.

(** ** Promises nobody holds *)

Lemma reactions_of_app (h h' : list promise) :
  reactions_of (h ++ h') = reactions_of h ++ reactions_of h'.
Proof. unfold reactions_of. by rewrite map_app, concat_app. Qed.

Lemma reactions_of_cons (p : promise) (h : list promise) :
  reactions_of (p :: h) = p_reactions p ++ reactions_of h.
Proof. reflexivity. Qed.

(** Settling a cell takes its reactions out of the heap. *)
Lemma reactions_alter (h : list promise) (i : nat) (rej : bool) (v : value) :
  reactions_of h
  ≡ₚ match h !! i with Some (Promise Pending rs) => rs | _ => [] end
     ++ reactions_of (alter (settled_cell rej v) i h).
Proof.
  revert i. induction h as [|p h IH]; intros [|i]; try done.
  - cbn [lookup list_lookup alter list_alter]. rewrite !reactions_of_cons.
    by destruct p as [[| |] rs].
  - cbn [lookup list_lookup alter list_alter].
    change (list_alter ?f ?i ?l) with (alter f i l).
    change (list_lookup ?i ?l) with (l !! i).
    rewrite !reactions_of_cons, (IH i) at 1.
    rewrite !app_assoc. apply Permutation_app_tail, Permutation_app_comm.
Qed.

Lemma reactions_insert_more (h : list promise) (i : nat) (p : promise)
    (rc : reaction) :
  h !! i = Some p →
  reactions_of (<[i:=Promise Pending (p_reactions p ++ [rc])]> h)
  ≡ₚ rc :: reactions_of h.
Proof.
  revert i. induction h as [|q h IH]; intros [|i] Hi; simplify_eq/=.
  - rewrite !reactions_of_cons. cbn [p_reactions]. rewrite <- app_assoc.
    symmetry. apply Permutation_middle.
  - rewrite !reactions_of_cons, (IH _ Hi). symmetry. apply Permutation_middle.
Qed.

Lemma reactions_insert_same (h : list promise) (i : nat) (p q : promise) :
  h !! i = Some p → p_reactions q = p_reactions p →
  reactions_of (<[i:=q]> h) = reactions_of h.
Proof.
  revert i. induction h as [|x h IH]; intros [|i] Hi Hq; simplify_eq/=.
  - by rewrite !reactions_of_cons, Hq.
  - by rewrite !reactions_of_cons, (IH _ Hi Hq).
Qed.

Lemma job_of_caps (rej : bool) (v : value) (rs : list reaction) :
  map j_cap (map (job_of rej v) rs) = map r_cap rs.
Proof. by rewrite map_map. Qed.

(** Settling moves capabilities from the reactions to the queue. *)
Lemma caps_settle (r : ref) (rej : bool) (v : value) (s : state) :
  caps (settle r rej v s) ≡ₚ caps s.
Proof.
  unfold caps. rewrite queue_settle, own_settle, tasks_settle.
  rewrite map_app, job_of_caps. unfold pending_reactions.
  destruct r as [i|i]; cbn [get].
  - rewrite (reactions_alter (tasks s) i rej v) at 1.
    rewrite map_app, <- !app_assoc. done.
  - rewrite (reactions_alter (own s) i rej v) at 1.
    rewrite map_app, <- !app_assoc. apply Permutation_app_head.
    rewrite !app_assoc. apply Permutation_app_tail, Permutation_app_comm.
Qed.

Lemma spare_keep (s s' : state) (c : ref) :
  (∀ k, 2 ≤ k → c = Own k → own s !! k = Some (Promise Pending []) →
        own s' !! k = Some (Promise Pending [])) →
  spare s c → spare s' c.
Proof. intros H (k & -> & Hk & Hc). exists k. auto. Qed.

Lemma spare_settle_outer (r : ref) (rej : bool) (v : value) (s : state) (c : ref) :
  outer r → spare s c → spare (settle r rej v s) c.
Proof.
  intros Hr. apply spare_keep. intros k Hk -> Hc. rewrite own_settle.
  destruct r as [i|i]; [done|]. cbn in Hr. by rewrite list_lookup_alter_ne by lia.
Qed.

Lemma tidy_ext (s s' : state) : same_heap s s' → tidy s → tidy s'.
Proof.
  intros (Ht & Ho & Hq) [H1 H2 H3 H4 H5].
  assert (caps s' = caps s) as Hc by (unfold caps; by rewrite Ht, Ho, Hq).
  split; rewrite ?Hc, ?Ht, ?Ho, ?Hq; try done.
  eapply Forall_impl; [exact H2|]. intros c. apply spare_keep. by rewrite Ho.
Qed.

Lemma tidy_settle_outer (r : ref) (rej : bool) (v : value) (s : state) :
  outer r → tidy s → tidy (settle r rej v s).
Proof.
  intros Hr [H1 H2 H3 H4 H5].
  assert (Forall aims_out_reaction (pending_reactions r s)) as Hp.
  { unfold pending_reactions. destruct r as [i|i]; cbn [get].
    - rewrite (reactions_alter (tasks s) i rej v) in H4.
      apply Forall_app in H4 as [H4 _]. exact H4.
    - rewrite (reactions_alter (own s) i rej v) in H5.
      apply Forall_app in H5 as [H5 _]. exact H5. }
  split.
  - by rewrite caps_settle.
  - rewrite caps_settle. eapply Forall_impl; [exact H2|].
    intros c. by apply spare_settle_outer.
  - rewrite queue_settle. apply Forall_app. split; [done|].
    change (map ?f ?l) with (f <$> l). apply Forall_fmap.
    eapply Forall_impl; [exact Hp|]. intros rc [Hf Hj]. cbn. by destruct rej.
  - rewrite tasks_settle. destruct r as [i|i]; [|done].
    rewrite (reactions_alter (tasks s) i rej v) in H4.
    by apply Forall_app in H4 as [_ H4].
  - rewrite own_settle. destruct r as [i|i]; [done|].
    rewrite (reactions_alter (own s) i rej v) in H5.
    by apply Forall_app in H5 as [_ H5].
Qed.

(** The promise of a job that has left the queue is settled by that
    job. *)
Lemma tidy_settle_spare (c : ref) (rej : bool) (v : value) (s : state) :
  spare s c → c ∉ caps s → tidy s → tidy (settle c rej v s).
Proof.
  intros (k & -> & Hk & Hc) Hnin [H1 H2 H3 H4 H5].
  rewrite (settle_fresh_cell k rej v s Hc).
  assert (reactions_of (<[k:=Promise (new_state rej v) []]> (own s))
          = reactions_of (own s)) as Hro.
  { by apply (reactions_insert_same _ _ (Promise Pending [])). }
  assert (caps (set_own (λ h, <[k:=Promise (new_state rej v) []]> h) s) = caps s)
    as Hcaps.
  { unfold caps. proj. by rewrite Hro. }
  split; rewrite ?Hcaps; proj; rewrite ?Hro; try done.
  apply Forall_forall. intros c Hin. rewrite Forall_forall in H2.
  apply (spare_keep s); [|by apply H2]. intros j Hj -> Hcj. proj.
  rewrite list_lookup_insert_ne; [done|]. by intros ->.
Qed.

Lemma caps_bound (s : state) (c : ref) :
  tidy s → c ∈ caps s → ∃ k, c = Own k ∧ k < length (own s).
Proof.
  intros [_ H2 _ _ _] Hin. rewrite Forall_forall in H2.
  destruct (H2 c Hin) as (k & -> & _ & Hk). exists k. split; [done|].
  by eapply lookup_lt_Some.
Qed.

(** [then] hands out a promise nobody has seen before. *)
Lemma tidy_then (r : ref) (onF onR : option handler) (s s' : state) (d : ref) :
  outer r → aims_out onF → aims_out onR → 2 ≤ length (own s) → tidy s →
  then_ r onF onR s = Some (d, s') →
  tidy s' ∧ length (own s') = S (length (own s))
  ∧ length (tasks s') = length (tasks s).
Proof.
  intros Hr HF HR Hlen Ht. unfold then_, alloc.
  destruct (get r s) as [p|] eqn:Hg; [|done]. intros [= <- <-].
  assert (Own (length (own s)) ∉ caps s) as Hfresh.
  { intros Hin. destruct (caps_bound s _ Ht Hin) as (k & [= <-] & Hk). lia. }
  destruct Ht as [H1 H2 H3 H4 H5].
  set (d := Own (length (own s))) in *.
  set (rc := Reaction onF onR d).
  assert (aims_out_reaction rc) as Hrc by done.
  assert (reactions_of (own s ++ [Promise Pending []]) = reactions_of (own s)) as Hro.
  { rewrite reactions_of_app. apply app_nil_r. }
  assert (∀ c own', (∀ k, 2 ≤ k → k < length (own s) →
                          own' !! k = (own s ++ [Promise Pending []]) !! k) →
                    own' !! length (own s) = Some (Promise Pending []) →
                    ∀ s2, own s2 = own' → c ∈ d :: caps s → spare s2 c) as Hsp.
  { intros c own' Hold Hnew s2 Hs2 Hin. apply elem_of_cons in Hin as [->|Hin].
    - exists (length (own s)). by rewrite Hs2.
    - rewrite Forall_forall in H2. destruct (H2 c Hin) as (k & -> & Hk & Hc).
      exists k. split; [done|]. split; [done|].
      rewrite Hs2, Hold; [|done|(by eapply lookup_lt_Some)].
      by apply lookup_app_l_Some. }
  assert (NoDup (d :: caps s)) as Hnd by (by constructor).
  destruct (p_state p) as [|v|e] eqn:Hst.
  - destruct r as [i|i]; cbn [get put] in *.
    + assert (caps (set_tasks (λ h, <[i:=Promise Pending (p_reactions p ++ [rc])]> h)
                      (set_own (λ h, h ++ [Promise Pending []]) s)) ≡ₚ d :: caps s) as Hc.
      { unfold caps. proj. rewrite Hro, (reactions_insert_more _ _ _ rc Hg).
        cbn [map r_cap rc]. symmetry. apply Permutation_middle. }
      split; [|proj; by rewrite length_app, length_insert, Nat.add_1_r].
      split; rewrite ?Hc; proj; rewrite ?Hro; try done.
      * apply Forall_forall. intros c Hin.
        eapply (Hsp c (own s ++ [Promise Pending []])); [done| |done|done].
        rewrite lookup_app_r, Nat.sub_diag by done. done.
      * rewrite (reactions_insert_more _ _ _ rc Hg). by constructor.
    + assert ((own s ++ [Promise Pending []]) !! i = Some p) as Hg'
        by (by apply lookup_app_l_Some).
      assert (caps (set_own (λ h, <[i:=Promise Pending (p_reactions p ++ [rc])]> h)
                      (set_own (λ h, h ++ [Promise Pending []]) s)) ≡ₚ d :: caps s) as Hc.
      { unfold caps. proj. rewrite (reactions_insert_more _ _ _ rc Hg'), Hro.
        cbn [map r_cap rc]. rewrite !app_assoc. symmetry. apply Permutation_middle. }
      split; [|proj; by rewrite length_insert, length_app, Nat.add_1_r].
      split; rewrite ?Hc; proj; try done.
      * apply Forall_forall. intros c Hin. cbn in Hr.
        eapply (Hsp c (<[i:=Promise Pending (p_reactions p ++ [rc])]>
                         (own s ++ [Promise Pending []]))); [| |done|done].
        -- intros k Hk _. by rewrite list_lookup_insert_ne by lia.
        -- rewrite list_lookup_insert_ne by lia.
           rewrite lookup_app_r, Nat.sub_diag by done. done.
      * rewrite (reactions_insert_more _ _ _ rc Hg'), Hro. by constructor.
  - assert (caps (enqueue [job_of false v rc] (set_own (λ h, h ++ [Promise Pending []]) s))
            ≡ₚ d :: caps s) as Hc.
    { unfold caps. proj. rewrite Hro, map_app. cbn [map j_cap job_of r_cap rc].
      rewrite <- app_assoc. symmetry. apply Permutation_middle. }
    split; [|proj; by rewrite length_app, Nat.add_1_r].
    split; rewrite ?Hc; proj; rewrite ?Hro; try done.
    + apply Forall_forall. intros c Hin.
      eapply (Hsp c (own s ++ [Promise Pending []])); [done| |done|done].
      rewrite lookup_app_r, Nat.sub_diag by done. done.
    + apply Forall_app. split; [done|]. by repeat constructor.
  - assert (caps (enqueue [job_of true e rc] (set_own (λ h, h ++ [Promise Pending []]) s))
            ≡ₚ d :: caps s) as Hc.
    { unfold caps. proj. rewrite Hro, map_app. cbn [map j_cap job_of r_cap rc].
      rewrite <- app_assoc. symmetry. apply Permutation_middle. }
    split; [|proj; by rewrite length_app, Nat.add_1_r].
    split; rewrite ?Hc; proj; rewrite ?Hro; try done.
    + apply Forall_forall. intros c Hin.
      eapply (Hsp c (own s ++ [Promise Pending []])); [done| |done|done].
      rewrite lookup_app_r, Nat.sub_diag by done. done.
    + apply Forall_app. split; [done|]. by repeat constructor.
Qed.

Lemma tidy_pop (s : state) (j : job) (q : list job) :
  tidy s → queue s = j :: q →
  tidy (set_queue (λ _, q) s) ∧ spare (set_queue (λ _, q) s) (j_cap j)
  ∧ (j_cap j ∉ caps (set_queue (λ _, q) s)) ∧ aims_out (j_handler j).
Proof.
  intros [H1 H2 H3 H4 H5] Hq.
  assert (caps s = j_cap j :: caps (set_queue (λ _, q) s)) as Hc.
  { unfold caps. proj. by rewrite Hq. }
  rewrite Hc in H1, H2. rewrite Hq in H3.
  apply NoDup_cons in H1 as [Hnin H1]. apply Forall_cons in H2 as [Hsp H2].
  apply Forall_cons in H3 as [Haim H3].
  split; [by split|]. done.
Qed.

Section Tidy.

Variable action : value → value → nat → list value → completion.

(** A handler changes the promises only by settling its target. *)
Lemma call_effect (h : handler) (arg : value) (s : state) :
  ∃ s1, same_heap s s1 ∧
        ((call action h arg s).2 = s1
         ∨ ∃ b v, (call action h arg s).2 = settle (handler_target h) b v s1).
Proof.
  destruct h; cbn [call handler_target]; unfold check_done, resolve_fn, reject_fn.
  - destruct (Nat.eqb _ _); eexists; (split; [|eauto]); done.
  - destruct (Nat.eqb _ _); eexists; (split; [|eauto]); done.
  - destruct arg; try (exists s; split; [done | by left]).
    destruct (reduce action l) as [[v|e] lg]; eexists; (split; [|eauto]); done.
  - exists s. split; [done | eauto].
  - exists s. split; [done | eauto].
  - exists s. split; [done | eauto].
  - exists s. split; [done | eauto].
  - destruct (all_values s !! idx) as [[x|]|]; try (exists s; split; [done | by left]);
      cbn zeta; destruct (Nat.eqb _ _); eexists; (split; [|eauto]); done.
Qed.

Lemma tidy_run_job (s : state) (j : job) (q : list job) :
  tidy s → queue s = j :: q → tidy (run_job action j (set_queue (λ _, q) s)).
Proof.
  intros Ht Hq. destruct (tidy_pop s j q Ht Hq) as (Ht1 & Hsp & Hnin & Haim).
  set (s1 := set_queue (λ _, q) s) in *. clearbody s1.
  assert (∀ c s2, tidy s2 → spare s2 (j_cap j) → j_cap j ∉ caps s2 →
                  tidy (match c with
                        | Normal v => resolve_fn (j_cap j) v s2
                        | Throw e => reject_fn (j_cap j) e s2
                        end)) as Hfin.
  { intros [v|e] s2 ? ? ?; by apply tidy_settle_spare. }
  unfold run_job. destruct (j_handler j) as [h|].
  - destruct (call_effect h (j_arg j) s1) as (s2 & Hsame & Hcall).
    destruct (call action h (j_arg j) s1) as [c s3]. cbn [snd] in Hcall.
    assert (tidy s2 ∧ spare s2 (j_cap j) ∧ j_cap j ∉ caps s2) as (Ht2 & Hsp2 & Hnin2).
    { split; [by eapply tidy_ext|]. destruct Hsame as (Hts & Ho & Hqs). split.
      - eapply spare_keep; [|exact Hsp]. by rewrite Ho.
      - unfold caps. by rewrite Hts, Ho, Hqs. }
    destruct Hcall as [->|(b & v & ->)]; [by apply Hfin|].
    apply Hfin.
    + by apply tidy_settle_outer.
    + by apply spare_settle_outer.
    + by rewrite caps_settle.
  - destruct (j_rej j);
      [by apply (Hfin (Throw (j_arg j))) | by apply (Hfin (Normal (j_arg j)))].
Qed.

Lemma tidy_run_microtasks (s : state) : tidy s → tidy (run_microtasks action s).
Proof.
  remember (measure s) as m eqn:Em. revert s Em.
  induction m as [m IH] using lt_wf_ind. intros s Em Hs.
  destruct (queue s) as [|j q] eqn:Hq.
  - by rewrite run_microtasks_nil.
  - rewrite (run_microtasks_cons action s j q Hq).
    eapply IH; [|reflexivity | by apply tidy_run_job].
    rewrite measure_run_job. subst m. unfold measure. proj. rewrite Hq.
    cbn [length]. lia.
Qed.

Lemma tidy_fire (s : state) (e : event) : tidy s → tidy (fire action s e).
Proof.
  intros Hs. apply tidy_run_microtasks. destruct e as [i o].
  rewrite settle_task_eq. by apply tidy_settle_outer.
Qed.

End Tidy.

(** ** A rejection no handler takes *)

Lemma get_settle (src r : ref) (rej : bool) (v : value) (s : state) :
  get src (settle r rej v s)
  = if decide (r = src) then settled_cell rej v <$> get src s else get src s.
Proof.
  destruct src as [j|j]; cbn [get]; rewrite ?tasks_settle, ?own_settle;
    destruct r as [i|i]; destruct (decide _) as [E|E]; try done;
    try (injection E as ->; by rewrite list_lookup_alter_eq);
    rewrite list_lookup_alter_ne; [done | congruence | done | congruence].
Qed.

Lemma orphan_settle (r : ref) (rej : bool) (v e : value) (s : state) :
  orphan e s → orphan e (settle r rej v s).
Proof.
  intros (k & Hk & Hc). exists k. split; [done|]. rewrite own_settle.
  destruct r as [i|i]; [done|]. destruct (decide (i = k)) as [->|Hne].
  - by rewrite list_lookup_alter_eq, Hc.
  - by rewrite list_lookup_alter_ne.
Qed.

Lemma orphan_ext (e : value) (s s' : state) :
  (∀ k p, own s !! k = Some p → p_state p ≠ Pending → own s' !! k = Some p) →
  orphan e s → orphan e s'.
Proof. intros H (k & Hk & Hc). exists k. split; [done|]. by apply H. Qed.

Lemma owes_ext (src : ref) (s s' : state) :
  same_heap s s' → owes src s → owes src s'.
Proof.
  intros (Ht & Ho & Hq). unfold owes, orphan.
  assert (get src s' = get src s) as -> by (destruct src; cbn; congruence).
  by rewrite Hq, Ho.
Qed.

(** Whoever is settled, a debt stays a debt; the rejection of [src]
    itself turns the reaction into a job. *)
Lemma owes_settle (src r : ref) (rej : bool) (v : value) (s : state) :
  owes src s → owes src (settle r rej v s).
Proof.
  unfold owes. rewrite get_settle.
  assert (∀ e, Exists (passes_on e) (queue s) ∨ orphan e s →
               Exists (passes_on e) (queue (settle r rej v s))
               ∨ orphan e (settle r rej v s)) as Hkeep.
  { intros e [Hq|Ho]; [left | right; by apply orphan_settle].
    rewrite queue_settle. apply Exists_app. by left. }
  destruct (decide (r = src)) as [->|Hne].
  - destruct (get src s) as [[[|w|e] rs]|] eqn:Hg;
      cbn [fmap option_fmap option_map settled_cell p_state new_state]; try done;
      [|by apply Hkeep].
    intros Hex. destruct rej; [|done]. left. rewrite queue_settle.
    apply Exists_app. right. unfold pending_reactions. rewrite Hg.
    change (map ?f ?l) with (f <$> l). apply Exists_fmap.
    eapply Exists_impl; [exact Hex|]. intros rc Hrc. by split.
  - destruct (get src s) as [[[|w|e] rs]|]; try done. apply Hkeep.
Qed.

Lemma owes_then (src r : ref) (onF onR : option handler) (s s' : state) (d : ref) :
  then_ r onF onR s = Some (d, s') → owes src s → owes src s'.
Proof.
  unfold then_, alloc. destruct (get r s) as [p|] eqn:Hg; [|done].
  intros [= <- <-]. unfold owes.
  destruct (get src s) as [p0|] eqn:Hs; [|done].
  set (s1 := set_own (λ h, h ++ [Promise Pending []]) s).
  assert (∀ x, get x s = Some p0 → get x s1 = Some p0) as Hold.
  { intros [i|i] Hi; cbn [get] in *; [done|]. unfold s1. proj.
    by apply lookup_app_l_Some. }
  destruct p as [st rs]. cbn [p_state p_reactions]. destruct st as [|v|e].
  - destruct (decide (r = src)) as [->|Hne].
    + assert (p0 = Promise Pending rs) as -> by congruence.
      assert (get src (put src (Promise Pending (rs ++ [Reaction onF onR (Own (length (own s)))])) s1)
              = Some (Promise Pending (rs ++ [Reaction onF onR (Own (length (own s)))])))
        as ->.
      { pose proof (Hold _ Hs) as H1. destruct src as [i|i]; cbn [get put] in *; proj;
          apply list_lookup_insert_eq; by eapply lookup_lt_Some. }
      intros Hex. apply Exists_app. by left.
    + assert (get src (put r (Promise Pending (rs ++ [Reaction onF onR (Own (length (own s)))])) s1)
              = Some p0) as ->.
      { pose proof (Hold _ Hs) as H1.
        destruct src as [j|j], r as [i|i]; cbn [get put] in *; proj; try done;
          rewrite list_lookup_insert_ne; [done | congruence | done | congruence]. }
      destruct p0 as [[|w|e] rs0]; try done.
      intros [Hq|Ho]; [left; by destruct r | right].
      eapply orphan_ext; [|exact Ho]. intros k q Hk Hq'.
      destruct r as [i|i]; cbn [put]; proj; [by apply lookup_app_l_Some|].
      rewrite list_lookup_insert_ne; [by apply lookup_app_l_Some|].
      intros ->. cbn [get] in Hg. rewrite Hg in Hk. by injection Hk as <-.
  - change (get src (enqueue _ s1)) with (get src s1). rewrite (Hold _ Hs).
    destruct p0 as [[|w|e'] rs0]; try done.
    intros [Hq|Ho]; [left; proj; apply Exists_app; by left | right].
    eapply orphan_ext; [|exact Ho]. intros k q Hk _. proj. by apply lookup_app_l_Some.
  - change (get src (enqueue _ s1)) with (get src s1). rewrite (Hold _ Hs).
    destruct p0 as [[|w|e'] rs0]; try done.
    intros [Hq|Ho]; [left; proj; apply Exists_app; by left | right].
    eapply orphan_ext; [|exact Ho]. intros k q Hk _. proj. by apply lookup_app_l_Some.
Qed.

(** [src.then(f)] without a rejection handler: the debt begins. *)
Lemma owes_then_new (src : ref) (onF : option handler) (s s' : state) (d : ref) :
  then_ src onF None s = Some (d, s') → owes src s'.
Proof.
  unfold then_, alloc. destruct (get src s) as [p|] eqn:Hg; [|done].
  intros [= <- <-]. unfold owes.
  set (s1 := set_own (λ h, h ++ [Promise Pending []]) s).
  assert (get src s1 = Some p) as Hold.
  { destruct src as [i|i]; cbn [get] in *; [done|]. unfold s1. proj.
    by apply lookup_app_l_Some. }
  destruct p as [[|v|e] rs]; cbn [p_state p_reactions].
  - assert (get src (put src (Promise Pending (rs ++ [Reaction onF None (Own (length (own s)))])) s1)
            = Some (Promise Pending (rs ++ [Reaction onF None (Own (length (own s)))])))
      as ->.
    { destruct src as [i|i]; cbn [get put] in *; proj;
        apply list_lookup_insert_eq; by eapply lookup_lt_Some. }
    apply Exists_app. right. by constructor.
  - change (get src (enqueue _ s1)) with (get src s1). by rewrite Hold.
  - change (get src (enqueue _ s1)) with (get src s1). rewrite Hold.
    left. proj. apply Exists_app. right. by constructor.
Qed.

Lemma owes_final (src : ref) (s : state) (e : value) :
  owes src s → queue s = [] → state_of src s = Some (Rejected e) → orphan e s.
Proof.
  unfold owes, state_of. intros Ho Hq Hst.
  destruct (get src s) as [[[|w|x] rs]|]; try done.
  injection Hst as ->. rewrite Hq in Ho. destruct Ho as [Hex|Ho]; [|done].
  by apply Exists_nil in Hex.
Qed.

Section Owes.

Variable action : value → value → nat → list value → completion.

Lemma owes_run_job (src : ref) (s : state) (j : job) (q : list job) :
  outer src → tidy s → owes src s → queue s = j :: q →
  owes src (run_job action j (set_queue (λ _, q) s)).
Proof.
  intros Hsrc Ht Ho Hq. destruct (tidy_pop s j q Ht Hq) as (Ht1 & Hsp & Hnin & Haim).
  assert (owes src (set_queue (λ _, q) s)
          ∨ ∃ e pr, get src s = Some (Promise (Rejected e) pr) ∧ passes_on e j)
    as [Ho1|(e & pr & Hg & Hh & Hr & Ha)].
  { unfold owes in *. change (get src (set_queue _ s)) with (get src s).
    destruct (get src s) as [[[|w|e] rs]|]; auto.
    destruct Ho as [Hex|Hor]; [|by left; right].
    rewrite Hq in Hex. apply Exists_cons in Hex as [Hj|Hex]; [right; eauto | by left; left]. }
  - set (s1 := set_queue (λ _, q) s) in *. clearbody s1.
    unfold run_job. destruct (j_handler j) as [h|].
    + destruct (call_effect action h (j_arg j) s1) as (s2 & Hsame & Hcall).
      destruct (call action h (j_arg j) s1) as [c s3]. cbn [snd] in Hcall.
      pose proof (owes_ext src _ _ Hsame Ho1) as Ho2.
      assert (owes src s3) as Ho3.
      { destruct Hcall as [->|(b & v & ->)]; [done | by apply owes_settle]. }
      destruct c; by apply owes_settle.
    + destruct (j_rej j); by apply owes_settle.
  - unfold run_job. rewrite Hh, Hr, Ha. unfold reject_fn.
    destruct Hsp as (k & Hk & Hk2 & Hc). rewrite Hk.
    unfold owes. rewrite get_settle.
    destruct (decide (Own k = src)) as [<-|_]; [cbn in Hsrc; lia|].
    change (get src (set_queue _ s)) with (get src s). rewrite Hg. right.
    exists k. split; [done|]. rewrite own_settle, list_lookup_alter_eq, Hc. done.
Qed.

Lemma owes_run_microtasks (src : ref) (s : state) :
  outer src → tidy s → owes src s → owes src (run_microtasks action s).
Proof.
  intros Hsrc. remember (measure s) as m eqn:Em. revert s Em.
  induction m as [m IH] using lt_wf_ind. intros s Em Ht Ho.
  destruct (queue s) as [|j q] eqn:Hq.
  - by rewrite run_microtasks_nil.
  - rewrite (run_microtasks_cons action s j q Hq).
    eapply IH; [|reflexivity | by apply tidy_run_job | by apply owes_run_job].
    rewrite measure_run_job. subst m. unfold measure. proj. rewrite Hq.
    cbn [length]. lia.
Qed.

Lemma owes_post (src : ref) (post : list event) :
  outer src →
  ∀ s, tidy s → owes src s → queue s = [] →
       owes src (fold_left (fire action) post s)
       ∧ queue (fold_left (fire action) post s) = [].
Proof.
  intros Hsrc. induction post as [|[i o] post IH]; intros s Ht Ho Hq; [done|].
  cbn [fold_left]. apply IH.
  - by apply tidy_fire.
  - unfold fire. rewrite settle_task_eq. apply owes_run_microtasks; [done| |].
    + by apply tidy_settle_outer.
    + by apply owes_settle.
  - apply run_microtasks_quiet.
Qed.

End Owes.

(** ** The calls *)

Lemma reactions_of_none (h : list promise) :
  (∀ i, no_reactions h i) → reactions_of h = [].
Proof.
  induction h as [|p h IH]; intros H; [done|].
  rewrite reactions_of_cons, (H 0 p eq_refl), IH; [done|].
  intros i. exact (H (S i)).
Qed.

Lemma tidy_empty (s : state) :
  queue s = [] → reactions_of (tasks s) = [] → reactions_of (own s) = [] → tidy s.
Proof.
  intros Hq Ht Ho.
  assert (caps s = []) as Hc by (unfold caps; by rewrite Hq, Ht, Ho).
  split; rewrite ?Hc, ?Hq, ?Ht, ?Ho; constructor.
Qed.

Lemma length_own_settle (r : ref) (rej : bool) (v : value) (s : state) :
  length (own (settle r rej v s)) = length (own s).
Proof. rewrite own_settle. destruct r; [done | apply length_alter]. Qed.

(** The loop of line 112: each entry gets the reaction of line 113,
    which has no rejection handler. *)
Lemma tidy_forEach (n : nat) (arr : list nat) :
  ∀ s, 2 ≤ length (own s) → tidy s → Forall (λ i, i < length (tasks s)) arr →
    ∃ s', chain_forEach n (Own 1) arr s = (Normal VUndef, s') ∧ tidy s' ∧
          2 ≤ length (own s') ∧
          (∀ src, owes src s → owes src s') ∧
          (∀ i, i ∈ arr → owes (Task i) s').
Proof.
  induction arr as [|i arr IH]; intros s Hlen Ht Hwf.
  { exists s. split; [done|]. split; [done|]. split; [done|]. split; [done|].
    intros i Hi. by apply elem_of_nil in Hi. }
  apply Forall_cons in Hwf as [Hi Hwf]. cbn [chain_forEach].
  destruct (then_some (Task i) (Some (HChainThen n (Own 1))) None s) as [[d1 s1] E1].
  { by apply lookup_lt_is_Some_2. }
  rewrite E1.
  destruct (tidy_then (Task i) (Some (HChainThen n (Own 1))) None _ _ _ I
              ltac:(cbn; lia) I Hlen Ht E1)
    as (Ht1 & Hl1 & Hlt1).
  pose proof (owes_then_new _ _ _ _ _ E1) as Hnew.
  unfold catch_.
  destruct (then_some (Task i) None (Some (HChainCatch n (Own 1))) s1) as [[d2 s2] E2].
  { apply lookup_lt_is_Some_2. by rewrite Hlt1. }
  rewrite E2.
  destruct (tidy_then (Task i) None (Some (HChainCatch n (Own 1))) s1 _ _ I I
              ltac:(cbn; lia) ltac:(lia) Ht1 E2)
    as (Ht2 & Hl2 & Hlt2).
  destruct (IH s2 ltac:(lia) Ht2) as (s' & -> & Ht' & Hl' & Hkeep & Hnew').
  { by rewrite Hlt2, Hlt1. }
  exists s'. split; [done|]. split; [done|]. split; [done|]. split.
  - intros src Ho. by eapply Hkeep, owes_then, owes_then.
  - intros i0 Hi0. apply elem_of_cons in Hi0 as [->|Hi0]; [|by apply Hnew'].
    by eapply Hkeep, owes_then.
Qed.

Lemma chain_call_orphans (array : list nat) (s0 : state) :
  clean s0 → Forall (λ i, i < length (tasks s0)) array →
  tidy (chainPromises array s0).2
  ∧ ∀ i, i ∈ array → owes (Task i) (chainPromises array s0).2.
Proof.
  intros [Ho Hq Hl Ht] Hwf. unfold chainPromises, alloc. rewrite Ho.
  cbn [length]. proj. rewrite Ho. cbn [app length].
  match goal with |- context [chain_forEach _ _ _ ?s] => set (s3 := s) end.
  assert (tidy s3 ∧ 2 ≤ length (own s3)) as [Ht3 Hl3].
  { split; [apply tidy_empty|]; unfold s3; proj; rewrite ?Ho; try done.
    by apply reactions_of_none. }
  destruct (tidy_forEach (length array) array s3 Hl3 Ht3 Hwf)
    as (s' & -> & Ht' & Hl' & _ & Hnew).
  destruct (then_some (Own 1) (Some (HChainReduce (Own 0))) None s') as [[d s5] E].
  { apply lookup_lt_is_Some_2. lia. }
  rewrite E. cbn [snd].
  destruct (tidy_then (Own 1) (Some (HChainReduce (Own 0))) None _ _ _
              ltac:(cbn; lia) ltac:(cbn; lia) I Hl' Ht' E)
    as (Ht5 & _ & _).
  split; [done|]. intros i Hi. by eapply owes_then, Hnew.
Qed.

Lemma tidy_all_loop (arr : list nat) :
  ∀ idx s, 2 ≤ length (own s) → tidy s →
    Forall (λ i, i < length (tasks s)) arr →
    tidy (all_loop (Own 1) idx arr s).2
    ∧ 2 ≤ length (own (all_loop (Own 1) idx arr s).2).
Proof.
  induction arr as [|i arr IH]; intros idx s Hlen Ht Hwf; cbn [all_loop]; [done|].
  apply Forall_cons in Hwf as [Hi Hwf]. cbn zeta.
  rewrite promise_resolve_task by done.
  set (s2 := set_all_remaining S (set_all_values (λ l, l ++ [None]) s)).
  assert (tidy s2) as Ht2 by (by apply (tidy_ext s)).
  destruct (then_ (Task i) (Some (HAllElement idx (Own 1))) (Some (HRejectFn (Own 1))) s2)
    as [[d s3]|] eqn:E; [|done].
  destruct (tidy_then (Task i) (Some (HAllElement idx (Own 1))) (Some (HRejectFn (Own 1)))
              s2 _ _ I ltac:(cbn; lia) ltac:(cbn; lia) Hlen Ht2 E)
    as (Ht3 & Hl3 & Hlt3).
  apply IH; [|done|by rewrite Hlt3]. rewrite Hl3. unfold s2. proj. lia.
Qed.

Lemma tidy_race_loop (arr : list nat) :
  ∀ s, 2 ≤ length (own s) → tidy s →
    Forall (λ i, i < length (tasks s)) arr →
    tidy (race_loop (Own 1) arr s).2
    ∧ 2 ≤ length (own (race_loop (Own 1) arr s).2).
Proof.
  induction arr as [|i arr IH]; intros s Hlen Ht Hwf; cbn [race_loop]; [done|].
  apply Forall_cons in Hwf as [Hi Hwf]. rewrite promise_resolve_task by done.
  destruct (then_ (Task i) (Some (HResolveFn (Own 1))) (Some (HRejectFn (Own 1))) s)
    as [[d s3]|] eqn:E; [|done].
  destruct (tidy_then (Task i) (Some (HResolveFn (Own 1))) (Some (HRejectFn (Own 1)))
              _ _ _ I ltac:(cbn; lia) ltac:(cbn; lia) Hlen Ht E)
    as (Ht3 & Hl3 & Hlt3).
  apply IH; [lia | done | by rewrite Hlt3].
Qed.

(** Lines 58 and 85: [then] without a rejection handler on the
    aggregate. *)
Lemma wrap_orphans (s : state) :
  2 ≤ length (own s) → tidy s →
  tidy (wrap (Own 0) (Own 1) s) ∧ owes (Own 1) (wrap (Own 0) (Own 1) s).
Proof.
  intros Hlen Ht. unfold wrap.
  destruct (then_some (Own 1) (Some (HWrapResolve (Own 0))) None s) as [[d1 s1] E1].
  { apply lookup_lt_is_Some_2. lia. }
  rewrite E1.
  destruct (tidy_then (Own 1) (Some (HWrapResolve (Own 0))) None _ _ _
              ltac:(cbn; lia) ltac:(cbn; lia) I Hlen Ht E1)
    as (Ht1 & Hl1 & _).
  pose proof (owes_then_new _ _ _ _ _ E1) as Hnew.
  unfold catch_.
  destruct (then_some (Own 1) None (Some (HWrapReject (Own 0))) s1) as [[d2 s2] E2].
  { apply lookup_lt_is_Some_2. lia. }
  rewrite E2.
  destruct (tidy_then (Own 1) None (Some (HWrapReject (Own 0))) s1 _ _
              ltac:(cbn; lia) I ltac:(cbn; lia) ltac:(lia) Ht1 E2) as (Ht2 & _ & _).
  split; [done|]. by eapply owes_then.
Qed.

Lemma all_call_orphans (array : list nat) (s0 : state) :
  clean s0 → Forall (λ i, i < length (tasks s0)) array →
  tidy (processAllPromises array s0).2 ∧ owes (Own 1) (processAllPromises array s0).2.
Proof.
  intros [Ho Hq Hl Ht] Hwf. unfold processAllPromises, Promise_all, alloc. rewrite Ho.
  cbn [length]. proj. rewrite Ho. cbn [app length].
  match goal with |- context [all_loop _ _ _ ?s] => set (s2 := s) end.
  assert (tidy s2 ∧ 2 ≤ length (own s2)) as [Ht2 Hl2].
  { split; [apply tidy_empty|]; unfold s2; proj; rewrite ?Ho; try done.
    by apply reactions_of_none. }
  destruct (tidy_all_loop array 0 s2 Hl2 Ht2 Hwf) as [Ht3 Hl3].
  destruct (all_loop (Own 1) 0 array s2) as [[v|e] s3]; cbn [fst snd] in *.
  - cbn zeta. set (s4 := set_all_remaining pred s3).
    assert (tidy s4) as Ht4 by (by apply (tidy_ext s3)).
    destruct (Nat.eqb _ _); [|by apply wrap_orphans].
    apply wrap_orphans.
    + unfold resolve_fn. by rewrite length_own_settle.
    + apply tidy_settle_outer; [cbn; lia | done].
  - apply wrap_orphans.
    + unfold reject_fn. by rewrite length_own_settle.
    + apply tidy_settle_outer; [cbn; lia | done].
Qed.

Lemma race_call_orphans (array : list nat) (s0 : state) :
  clean s0 → Forall (λ i, i < length (tasks s0)) array →
  tidy (getFastestPromise array s0).2 ∧ owes (Own 1) (getFastestPromise array s0).2.
Proof.
  intros [Ho Hq Hl Ht] Hwf. unfold getFastestPromise, Promise_race, alloc. rewrite Ho.
  cbn [length]. proj. rewrite Ho. cbn [app length].
  match goal with |- context [race_loop _ _ ?s] => set (s2 := s) end.
  assert (tidy s2 ∧ 2 ≤ length (own s2)) as [Ht2 Hl2].
  { split; [apply tidy_empty|]; unfold s2; proj; rewrite ?Ho; try done.
    by apply reactions_of_none. }
  destruct (tidy_race_loop array s2 Hl2 Ht2 Hwf) as [Ht3 Hl3].
  destruct (race_loop (Own 1) array s2) as [[v|e] s3]; cbn [fst snd] in *.
  - by apply wrap_orphans.
  - apply wrap_orphans.
    + unfold reject_fn. by rewrite length_own_settle.
    + apply tidy_settle_outer; [cbn; lia | done].
Qed.

Section Orphans.

Variable action : value → value → nat → list value → completion.

(** From the call to the end of the run. *)
Lemma orphan_at_end (src : ref) (s : state) (post : list event) (e : value) :
  outer src → tidy s → owes src s →
  let s' := fold_left (fire action) post (run_microtasks action s) in
  state_of src s' = Some (Rejected e) →
  ∃ k, 2 ≤ k ∧ state_of (Own k) s' = Some (Rejected e).
Proof.
  intros Hsrc Ht Ho. cbn zeta. intros Hst.
  destruct (owes_post action src post Hsrc (run_microtasks action s)) as [Ho' Hq'].
  - by apply tidy_run_microtasks.
  - by apply owes_run_microtasks.
  - apply run_microtasks_quiet.
  - destruct (owes_final src _ e Ho' Hq' Hst) as (k & Hk & Hc).
    exists k. split; [done|]. unfold state_of. cbn [get]. by rewrite Hc.
Qed.

End Orphans.

(** ** Rejections that nothing handles *)

(** X17.  For every task of the array that fails, the promise that
    [promis.then(...)] returns on line 113, which has no rejection
    handler and which nobody keeps, ends up rejected with the error of
    the task: besides the returned promise (the first the function
    creates) and [allProms] (the second), some promise of the function
    is rejected with that error. *)
Theorem chain_failed_task_orphan
    (action : value → value → nat → list value → completion) (T : nat)
    (pre post : list event) (array : list nat) (i : nat) (e : value) :
  Forall (λ i, i < T) array → i ∈ array →
  table T (pre ++ post) !! i = Some (Rejected e) →
  let r := run_chain action T pre array post in
  r.1 = Own 0 ∧ ∃ k, 2 ≤ k ∧ state_of (Own k) r.2 = Some (Rejected e).
Proof.
  intros Hwf Hi Htab. cbn zeta.
  destruct (chain_run action array T pre post Hwf) as (Hr & _ & Htbl).
  split; [done|]. clear Hr. revert Htbl. unfold run_chain.
  destruct (prelude_clean action T pre) as [Hclean Htbl0].
  set (s0 := fold_left (fire action) pre (init T)) in *. clearbody s0.
  destruct (chain_call_orphans array s0 Hclean) as [Ht Ho].
  { assert (length (tasks s0) = T) as ->; [|done].
    rewrite <- (table_length T pre), <- Htbl0. unfold tbl. by rewrite length_map. }
  specialize (Ho i Hi).
  destruct (chainPromises array s0) as [r s1]. cbn [fst snd] in *. intros Htbl.
  apply (orphan_at_end action (Task i)); [done | done | done |].
  rewrite <- Htbl in Htab. unfold tbl in Htab. unfold state_of. cbn [get].
  by rewrite list_lookup_fmap in Htab.
Qed.

Lemma chain_failed_task_orphan_witness :
  let r := run_chain (binop js_add) 2 [(1, Failure (VStr "down"))] [0; 1]
             [(0, Success (VNum 1))] in
  r.1 = Own 0 ∧ ∃ k, 2 ≤ k ∧ state_of (Own k) r.2 = Some (Rejected (VStr "down")).
Proof.
  apply (chain_failed_task_orphan (binop js_add) 2 _ _ _ 1);
    [repeat constructor | | reflexivity].
  apply elem_of_cons. right. apply elem_of_cons. by left.
Defined.

(** X18.  When the promise returned by [processAllPromises] is
    rejected, the promise that [all.then(...)] returns on line 58,
    which has no rejection handler and which nobody keeps, is rejected
    with the same error: besides the returned promise (the first the
    function creates) and [all] (the second), some promise of the
    function is rejected with that error. *)
Theorem all_rejection_orphan
    (action : value → value → nat → list value → completion) (T : nat)
    (pre post : list event) (array : list nat) (e : value) :
  Forall (λ i, i < T) array →
  let r := run_all action T pre array post in
  state_of r.1.1 r.2 = Some (Rejected e) →
  r.1.1 = Own 0 ∧ r.1.2 = Own 1 ∧
  ∃ k, 2 ≤ k ∧ state_of (Own k) r.2 = Some (Rejected e).
Proof.
  intros Hwf. cbn zeta.
  destruct (all_run action array T pre post Hwf) as (Hp & Ha & Hl).
  rewrite Hp. apply link_quiet in Hl as [Heq _]. rewrite Heq. intros Hst.
  split; [done|]. split; [done|]. clear Hp Ha Heq. revert Hst. unfold run_all.
  destruct (prelude_clean action T pre) as [Hclean Htbl0].
  set (s0 := fold_left (fire action) pre (init T)) in *. clearbody s0.
  destruct (all_call_orphans array s0 Hclean) as [Ht Ho].
  { assert (length (tasks s0) = T) as ->; [|done].
    rewrite <- (table_length T pre), <- Htbl0. unfold tbl. by rewrite length_map. }
  destruct (processAllPromises array s0) as [[p a] s1]. cbn [fst snd] in *.
  apply (orphan_at_end action (Own 1)); [cbn; lia | done | done].
Qed.

Lemma all_rejection_orphan_witness :
  let r := run_all (binop js_add) 2 [] [0; 1]
             [(1, Failure (VStr "down")); (0, Success (VNum 1))] in
  state_of r.1.1 r.2 = Some (Rejected (VStr "down")) ∧
  r.1.1 = Own 0 ∧ r.1.2 = Own 1 ∧
  ∃ k, 2 ≤ k ∧ state_of (Own k) r.2 = Some (Rejected (VStr "down")).
Proof.
  cbn zeta. split; [vm_compute; reflexivity|].
  apply (all_rejection_orphan (binop js_add) 2); [repeat constructor|].
  vm_compute. reflexivity.
Defined.

(** X19.  When the promise returned by [getFastestPromise] is
    rejected, the promise that [race.then(...)] returns on line 85,
    which has no rejection handler and which nobody keeps, is rejected
    with the same error: besides the returned promise (the first the
    function creates) and [race] (the second), some promise of the
    function is rejected with that error. *)
Theorem fastest_rejection_orphan
    (action : value → value → nat → list value → completion) (T : nat)
    (pre post : list event) (array : list nat) (e : value) :
  Forall (λ i, i < T) array →
  let r := run_race action T pre array post in
  state_of r.1.1 r.2 = Some (Rejected e) →
  r.1.1 = Own 0 ∧ r.1.2 = Own 1 ∧
  ∃ k, 2 ≤ k ∧ state_of (Own k) r.2 = Some (Rejected e).
Proof.
  intros Hwf. cbn zeta.
  destruct (race_run action array T pre post Hwf) as (Hp & Ha & _ & Hl).
  rewrite Hp. apply link_quiet in Hl as [Heq _]. rewrite Heq. intros Hst.
  split; [done|]. split; [done|]. clear Hp Ha Heq. revert Hst. unfold run_race.
  destruct (prelude_clean action T pre) as [Hclean Htbl0].
  set (s0 := fold_left (fire action) pre (init T)) in *. clearbody s0.
  destruct (race_call_orphans array s0 Hclean) as [Ht Ho].
  { assert (length (tasks s0) = T) as ->; [|done].
    rewrite <- (table_length T pre), <- Htbl0. unfold tbl. by rewrite length_map. }
  destruct (getFastestPromise array s0) as [[p a] s1]. cbn [fst snd] in *.
  apply (orphan_at_end action (Own 1)); [cbn; lia | done | done].
Qed.

Lemma fastest_rejection_orphan_witness :
  let r := run_race (binop js_add) 2 [(1, Failure (VStr "down"))] [0; 1]
             [(0, Success (VNum 1))] in
  state_of r.1.1 r.2 = Some (Rejected (VStr "down")) ∧
  r.1.1 = Own 0 ∧ r.1.2 = Own 1 ∧
  ∃ k, 2 ≤ k ∧ state_of (Own k) r.2 = Some (Rejected (VStr "down")).
Proof.
  cbn zeta. split; [vm_compute; reflexivity|].
  apply (fastest_rejection_orphan (binop js_add) 2); [repeat constructor|].
  vm_compute. reflexivity.
Defined.
